(** * Coverage tasks of the code-coverage plugin (task.js)

    A shallow embedding of [task.js]: the three tasks [resetCoverage],
    [combineCoverage] and [coverageReport], the helpers [saveCoverage] and
    [maybePrintFinalCoverageFiles], the module-level constants and the
    registration function [registerCodeCoverageTasks], together with the
    plugins file of the example project, which calls it.

    The JavaScript runtime and the npm dependencies the file calls are
    modelled next to it: JavaScript data values, [JSON.parse] and
    [JSON.stringify], the POSIX flavour of Node's [path] module, a file
    system with [existsSync], [readFileSync], [writeFileSync] and
    [mkdirSync], and the coverage map of istanbul-lib-coverage.  The
    functions of [./task-utils], [./support-utils], [nyc] and [execa] are
    collaborators of the module and are taken as parameters. *)

From Stdlib Require Import ZArith String Ascii List Bool Lia Decimal DecimalZ.
From stdpp Require Import gmap strings list.

Local Open Scope string_scope.
Local Open Scope list_scope.
Local Open Scope Z_scope.

(** ** JavaScript data values *)

(** The values that travel through [task.js]: what [JSON.parse] can return,
    plus [NaN], which arithmetic on a missing counter produces.  A number
    is an integer (hit counts, line and column positions) that JavaScript
    holds exactly, a safe integer; an object is the list of its own
    enumerable properties in enumeration order.  [undefined] is [None] in
    an [option value]. *)
#[local] Unset Elimination Schemes.
Inductive value : Type :=
| JNull
| JBool (b : bool)
| JNum (z : Z)
| JNaN
| JStr (s : string)
| JArr (elems : list value)
| JObj (props : list (string * value)).
#[local] Set Elimination Schemes.

Abbreviation object := (list (string * value)).

(** [Number.MAX_SAFE_INTEGER], 2^53 - 1.  Up to it, in absolute value, an
    integer is a number of JavaScript, and a sum of such integers that
    stays in the range is exact; beyond it numbers are rounded. *)
Definition MAX_SAFE_INTEGER : Z := 9007199254740991.

(** [Number.isSafeInteger]. *)
Definition safe_integer (z : Z) : bool :=
  (- MAX_SAFE_INTEGER <=? z) && (z <=? MAX_SAFE_INTEGER).

(** Exceptions that the modelled code can throw; [ENOENT], [EEXIST],
    [ENOTDIR] and [EISDIR] are the system errors of the [fs] module.
    [OutsideModel] is no JavaScript exception: it marks an input that
    leaves the modelled fragment, about which the model says nothing. *)
Inductive exn : Type :=
| SyntaxError
| TypeError
| Error (msg : string)
| ENOENT (path : string)
| EEXIST (path : string)
| ENOTDIR (path : string)
| EISDIR (path : string)
| OutsideModel.

(** Outcome of evaluating a piece of JavaScript. *)
Inductive completion (A : Type) : Type :=
| Normal (a : A)
| Throw (e : exn).
Arguments Normal {A} a.
Arguments Throw {A} e.

Definition cbind {A B} (c : completion A) (k : A -> completion B) : completion B :=
  match c with
  | Normal a => k a
  | Throw e => Throw e
  end.

(** ToBoolean. *)
Definition truthy (v : value) : bool :=
  match v with
  | JNull => false
  | JBool b => b
  | JNum z => negb (z =? 0)
  | JNaN => false
  | JStr s => negb (String.eqb s EmptyString)
  | JArr _ => true
  | JObj _ => true
  end.

(** ToBoolean of a possibly [undefined] value. *)
Definition truthy_opt (o : option value) : bool :=
  match o with
  | Some v => truthy v
  | None => false
  end.

(** [a || b] where [a] may be [undefined]. *)
Definition js_or (a : option value) (b : value) : value :=
  match a with
  | Some v => if truthy v then v else b
  | None => b
  end.

(** Own property of an object, by key. *)
Fixpoint obj_get (k : string) (o : object) : option value :=
  match o with
  | [] => None
  | (k', v) :: o' => if String.eqb k k' then Some v else obj_get k o'
  end.

(** [o[k] = v]: an existing property keeps its place, a new one goes last. *)
Fixpoint obj_set (k : string) (v : value) (o : object) : object :=
  match o with
  | [] => [(k, v)]
  | (k', v') :: o' =>
      if String.eqb k k' then (k', v) :: o' else (k', v') :: obj_set k v o'
  end.

(** Decimal spelling of an array index. *)
Fixpoint uint_chars (d : Decimal.uint) : list ascii :=
  match d with
  | Decimal.Nil => []
  | Decimal.D0 d => "0"%char :: uint_chars d
  | Decimal.D1 d => "1"%char :: uint_chars d
  | Decimal.D2 d => "2"%char :: uint_chars d
  | Decimal.D3 d => "3"%char :: uint_chars d
  | Decimal.D4 d => "4"%char :: uint_chars d
  | Decimal.D5 d => "5"%char :: uint_chars d
  | Decimal.D6 d => "6"%char :: uint_chars d
  | Decimal.D7 d => "7"%char :: uint_chars d
  | Decimal.D8 d => "8"%char :: uint_chars d
  | Decimal.D9 d => "9"%char :: uint_chars d
  end.

Definition index_key (i : nat) : string :=
  string_of_list_ascii (uint_chars (Nat.to_uint i)).

Definition index_keys (n : nat) : list string := map index_key (seq 0 n).

Definition string_chars (s : string) : list value :=
  map (fun c => JStr (String c EmptyString)) (list_ascii_of_string s).

(** [Object.entries(v)] for a value that is neither [null] nor [undefined]:
    arrays and strings enumerate their indices, other primitives nothing. *)
Definition Object_entries (v : value) : object :=
  match v with
  | JObj o => o
  | JArr l => combine (index_keys (List.length l)) l
  | JStr s => combine (index_keys (String.length s)) (string_chars s)
  | _ => []
  end.

(** [Object.keys(v)]; [null] has no properties to list and throws. *)
Definition Object_keys (v : value) : completion (list string) :=
  match v with
  | JNull => Throw TypeError
  | _ => Normal (map fst (Object_entries v))
  end.

(** Property read [v[k]] on own properties; reading from [null] throws.
    Arrays and strings also answer to ["length"]. *)
Definition get (v : value) (k : string) : completion (option value) :=
  match v with
  | JNull => Throw TypeError
  | JArr l =>
      if String.eqb k "length" then Normal (Some (JNum (Z.of_nat (List.length l))))
      else Normal (obj_get k (Object_entries v))
  | JStr s =>
      if String.eqb k "length" then Normal (Some (JNum (Z.of_nat (String.length s))))
      else Normal (obj_get k (Object_entries v))
  | _ => Normal (obj_get k (Object_entries v))
  end.

(** Property read through a possibly [undefined] receiver. *)
Definition get_opt (o : option value) (k : string) : completion (option value) :=
  match o with
  | Some v => get v k
  | None => Throw TypeError
  end.

(** ** JSON.stringify and JSON.parse *)

(** Text is a list of characters; a character is a code unit below 256 (the
    encoding of files is not modelled).  Numbers are integers: on a fraction,
    an exponent or an escape of a code unit from 256 on, [parse] answers
    [OutsideModel] instead of a value. *)
Module JSON.

Definition chars (s : string) : list ascii := list_ascii_of_string s.

Definition dquote : ascii := "034"%char.
Definition backslash : ascii := "092"%char.

Definition hex_char (n : nat) : ascii :=
  nth n (chars "0123456789abcdef") "0"%char.

(** QuoteJSONString, one character. *)
Definition escape_char (c : ascii) : list ascii :=
  if (c =? dquote)%char then [backslash; dquote]
  else if (c =? backslash)%char then [backslash; backslash]
  else if (c =? "008")%char then [backslash; "b"%char]
  else if (c =? "012")%char then [backslash; "f"%char]
  else if (c =? "010")%char then [backslash; "n"%char]
  else if (c =? "013")%char then [backslash; "r"%char]
  else if (c =? "009")%char then [backslash; "t"%char]
  else if (nat_of_ascii c <? 32)%nat then
    backslash :: chars "u00"
      ++ [hex_char (nat_of_ascii c / 16); hex_char (nat_of_ascii c mod 16)]
  else [c].

Definition quote (s : string) : list ascii :=
  dquote :: flat_map escape_char (chars s) ++ [dquote].

Definition print_Z (z : Z) : list ascii :=
  match Z.to_int z with
  | Decimal.Pos d => uint_chars d
  | Decimal.Neg d => "-"%char :: uint_chars d
  end.

Definition newline (ind : nat) : list ascii := "010"%char :: repeat " "%char ind.

(** SerializeJSONProperty with a gap of two spaces; [ind] is the current
    indentation. *)
Fixpoint print (ind : nat) (v : value) : list ascii :=
  match v with
  | JNull => chars "null"
  | JNaN => chars "null"
  | JBool true => chars "true"
  | JBool false => chars "false"
  | JNum z => print_Z z
  | JStr s => quote s
  | JArr [] => chars "[]"
  | JArr (x :: xs) =>
      "["%char :: newline (2 + ind) ++ print (2 + ind) x
        ++ (fix more (l : list value) : list ascii :=
              match l with
              | [] => []
              | y :: l' => ","%char :: newline (2 + ind) ++ print (2 + ind) y ++ more l'
              end) xs
        ++ newline ind ++ ["]"%char]
  | JObj [] => chars "{}"
  | JObj ((k, x) :: xs) =>
      "{"%char :: newline (2 + ind) ++ quote k ++ chars ": " ++ print (2 + ind) x
        ++ (fix more (l : object) : list ascii :=
              match l with
              | [] => []
              | (k', y) :: l' =>
                  ","%char :: newline (2 + ind) ++ quote k' ++ chars ": "
                    ++ print (2 + ind) y ++ more l'
              end) xs
        ++ newline ind ++ ["}"%char]
  end.

(** [JSON.stringify(v, null, 2)]. *)
Definition stringify (v : value) : string := string_of_list_ascii (print 0 v).

Definition is_ws (c : ascii) : bool :=
  ((c =? " ") || (c =? "009") || (c =? "010") || (c =? "013"))%char.

Fixpoint skip_ws (s : list ascii) : list ascii :=
  match s with
  | c :: r => if is_ws c then skip_ws r else s
  | [] => []
  end.

Definition digit_of (c : ascii) : option (Decimal.uint -> Decimal.uint) :=
  if (c =? "0")%char then Some Decimal.D0
  else if (c =? "1")%char then Some Decimal.D1
  else if (c =? "2")%char then Some Decimal.D2
  else if (c =? "3")%char then Some Decimal.D3
  else if (c =? "4")%char then Some Decimal.D4
  else if (c =? "5")%char then Some Decimal.D5
  else if (c =? "6")%char then Some Decimal.D6
  else if (c =? "7")%char then Some Decimal.D7
  else if (c =? "8")%char then Some Decimal.D8
  else if (c =? "9")%char then Some Decimal.D9
  else None.

Fixpoint parse_digits (s : list ascii) : Decimal.uint * list ascii :=
  match s with
  | c :: r =>
      match digit_of c with
      | Some d => let (u, r') := parse_digits r in (d u, r')
      | None => (Decimal.Nil, s)
      end
  | [] => (Decimal.Nil, [])
  end.

(** A fraction or an exponent would follow the integer part. *)
Definition continues_number (s : list ascii) : bool :=
  match s with
  | c :: _ => ((c =? ".") || (c =? "e") || (c =? "E"))%char
  | [] => false
  end.

(** An integer without leading zeros, with an optional minus sign.  An
    integer that is not safe would be rounded: it is outside the model. *)
Definition parse_number (s : list ascii) : completion (value * list ascii) :=
  let (neg, s1) :=
    match s with
    | c :: r => if (c =? "-")%char then (true, r) else (false, s)
    | [] => (false, s)
    end in
  let (u, r) := parse_digits s1 in
  if Decimal.uint_beq (Decimal.unorm u) u then
    if continues_number r then Throw OutsideModel
    else
      let z := Z.of_int (if neg then Decimal.Neg u else Decimal.Pos u) in
      if safe_integer z then Normal (JNum z, r) else Throw OutsideModel
  else Throw SyntaxError.

Definition hex_val (c : ascii) : option nat :=
  let n := nat_of_ascii c in
  if (48 <=? n)%nat && (n <=? 57)%nat then Some (n - 48)%nat
  else if (97 <=? n)%nat && (n <=? 102)%nat then Some (n - 87)%nat
  else if (65 <=? n)%nat && (n <=? 70)%nat then Some (n - 55)%nat
  else None.

(** The code unit of [\uXXXX]; the model has the code units below 256. *)
Definition unicode_escape (h1 h2 h3 h4 : ascii) : completion ascii :=
  match hex_val h1, hex_val h2, hex_val h3, hex_val h4 with
  | Some a, Some b, Some c, Some d =>
      let n := (((a * 16 + b) * 16 + c) * 16 + d)%nat in
      if (n <? 256)%nat then Normal (ascii_of_nat n) else Throw OutsideModel
  | _, _, _, _ => Throw SyntaxError
  end.

Definition simple_escape (e : ascii) : completion ascii :=
  if (e =? dquote)%char then Normal dquote
  else if (e =? backslash)%char then Normal backslash
  else if (e =? "/")%char then Normal "/"%char
  else if (e =? "b")%char then Normal "008"%char
  else if (e =? "f")%char then Normal "012"%char
  else if (e =? "n")%char then Normal "010"%char
  else if (e =? "r")%char then Normal "013"%char
  else if (e =? "t")%char then Normal "009"%char
  else Throw SyntaxError.

Definition prepend (a : ascii) (p : completion (string * list ascii))
  : completion (string * list ascii) :=
  match p with
  | Normal (t, r) => Normal (String a t, r)
  | Throw e => Throw e
  end.

(** The characters of a string literal, after its opening quote. *)
Fixpoint parse_string (s : list ascii) : completion (string * list ascii) :=
  match s with
  | [] => Throw SyntaxError
  | c :: r =>
      if (c =? dquote)%char then Normal (EmptyString, r)
      else if (c =? backslash)%char then
        match r with
        | [] => Throw SyntaxError
        | e :: r1 =>
            if (e =? "u")%char then
              match r1 with
              | h1 :: h2 :: h3 :: h4 :: r2 =>
                  match unicode_escape h1 h2 h3 h4 with
                  | Normal a => prepend a (parse_string r2)
                  | Throw x => Throw x
                  end
              | _ => Throw SyntaxError
              end
            else
              match simple_escape e with
              | Normal a => prepend a (parse_string r1)
              | Throw x => Throw x
              end
        end
      else if (nat_of_ascii c <? 32)%nat then Throw SyntaxError
      else prepend c (parse_string r)
  end.

Fixpoint strip_prefix (p s : list ascii) : option (list ascii) :=
  match p, s with
  | [], _ => Some s
  | a :: p', b :: s' => if (a =? b)%char then strip_prefix p' s' else None
  | _ :: _, [] => None
  end.

(** The rest of a literal name, [v] being its value. *)
Definition parse_literal (name : string) (v : value) (s : list ascii)
  : completion (value * list ascii) :=
  match strip_prefix (chars name) s with
  | Some r => Normal (v, r)
  | None => Throw SyntaxError
  end.

(** Properties are defined in textual order, so that a repeated key keeps
    its first place and its last value. *)
Definition object_of_members (l : object) : object :=
  fold_left (fun o kv => obj_set (fst kv) (snd kv) o) l [].

(** The recursion is on [fuel]; the text of a value is always enough fuel
    for it, and the parser says [OutsideModel] should it run out. *)
Fixpoint parse_value (fuel : nat) (s : list ascii) : completion (value * list ascii) :=
  match fuel with
  | O => Throw OutsideModel
  | S f =>
      match skip_ws s with
      | [] => Throw SyntaxError
      | c :: r =>
          if (c =? "{")%char then
            match skip_ws r with
            | c' :: r' =>
                if (c' =? "}")%char then Normal (JObj [], r')
                else
                  match parse_members f r with
                  | Normal (l, r'') => Normal (JObj (object_of_members l), r'')
                  | Throw e => Throw e
                  end
            | [] => Throw SyntaxError
            end
          else if (c =? "[")%char then
            match skip_ws r with
            | c' :: r' =>
                if (c' =? "]")%char then Normal (JArr [], r')
                else
                  match parse_elements f r with
                  | Normal (l, r'') => Normal (JArr l, r'')
                  | Throw e => Throw e
                  end
            | [] => Throw SyntaxError
            end
          else if (c =? dquote)%char then
            match parse_string r with
            | Normal (t, r') => Normal (JStr t, r')
            | Throw e => Throw e
            end
          else if (c =? "n")%char then parse_literal "ull" JNull r
          else if (c =? "t")%char then parse_literal "rue" (JBool true) r
          else if (c =? "f")%char then parse_literal "alse" (JBool false) r
          else parse_number (c :: r)
      end
  end
with parse_elements (fuel : nat) (s : list ascii) : completion (list value * list ascii) :=
  match fuel with
  | O => Throw OutsideModel
  | S f =>
      match parse_value f s with
      | Normal (v, r) =>
          match skip_ws r with
          | c :: r' =>
              if (c =? ",")%char then
                match parse_elements f r' with
                | Normal (l, r'') => Normal (v :: l, r'')
                | Throw e => Throw e
                end
              else if (c =? "]")%char then Normal ([v], r')
              else Throw SyntaxError
          | [] => Throw SyntaxError
          end
      | Throw e => Throw e
      end
  end
with parse_members (fuel : nat) (s : list ascii) : completion (object * list ascii) :=
  match fuel with
  | O => Throw OutsideModel
  | S f =>
      match skip_ws s with
      | q :: r0 =>
          if (q =? dquote)%char then
            match parse_string r0 with
            | Normal (k, r1) =>
                match skip_ws r1 with
                | c1 :: r2 =>
                    if (c1 =? ":")%char then
                      match parse_value f r2 with
                      | Normal (v, r) =>
                          match skip_ws r with
                          | c :: r' =>
                              if (c =? ",")%char then
                                match parse_members f r' with
                                | Normal (l, r'') => Normal ((k, v) :: l, r'')
                                | Throw e => Throw e
                                end
                              else if (c =? "}")%char then Normal ([(k, v)], r')
                              else Throw SyntaxError
                          | [] => Throw SyntaxError
                          end
                      | Throw e => Throw e
                      end
                    else Throw SyntaxError
                | [] => Throw SyntaxError
                end
            | Throw e => Throw e
            end
          else Throw SyntaxError
      | [] => Throw SyntaxError
      end
  end.

(** [JSON.parse(text)]: the value, or the SyntaxError. *)
Definition parse (text : string) : completion value :=
  let s := chars text in
  match parse_value (2 * List.length s + 2) s with
  | Normal (v, r) =>
      match skip_ws r with
      | [] => Normal v
      | _ :: _ => Throw SyntaxError
      end
  | Throw e => Throw e
  end.

End JSON.


(** ** Node's path module (POSIX) *)

Module path.

Fixpoint split_slash (s : string) : list string :=
  match s with
  | EmptyString => [EmptyString]
  | String c r =>
      if (c =? "/")%char then EmptyString :: split_slash r
      else
        match split_slash r with
        | seg :: segs => String c seg :: segs
        | [] => [String c EmptyString]
        end
  end.

Fixpoint join_slash (segs : list string) : string :=
  match segs with
  | [] => EmptyString
  | [seg] => seg
  | seg :: segs' => seg +:+ "/" +:+ join_slash segs'
  end.

(** One segment of [normalizeString]; the segments kept so far are in
    reverse order. *)
Definition normalize_step (allowAboveRoot : bool) (kept : list string) (seg : string)
  : list string :=
  if String.eqb seg EmptyString || String.eqb seg "." then kept
  else if String.eqb seg ".." then
    match kept with
    | last :: kept' =>
        if String.eqb last ".." then (if allowAboveRoot then seg :: kept else kept)
        else kept'
    | [] => if allowAboveRoot then [seg] else []
    end
  else seg :: kept.

Definition normalizeString (p : string) (allowAboveRoot : bool) : string :=
  join_slash (rev (fold_left (normalize_step allowAboveRoot) (split_slash p) [])).

Definition isAbsolute (p : string) : bool :=
  match p with
  | String c _ => (c =? "/")%char
  | EmptyString => false
  end.

Fixpoint ends_with_slash (p : string) : bool :=
  match p with
  | EmptyString => false
  | String c EmptyString => (c =? "/")%char
  | String _ r => ends_with_slash r
  end.

Definition normalize (p : string) : string :=
  if String.eqb p EmptyString then "."
  else
    let q := normalizeString p (negb (isAbsolute p)) in
    if String.eqb q EmptyString then
      (if isAbsolute p then "/" else if ends_with_slash p then "./" else ".")
    else
      let q' := if ends_with_slash p then q +:+ "/" else q in
      if isAbsolute p then "/" +:+ q' else q'.

(** [path.join(a, b)]. *)
Definition join (a b : string) : string :=
  match String.eqb a EmptyString, String.eqb b EmptyString with
  | true, true => "."
  | true, false => normalize b
  | false, true => normalize a
  | false, false => normalize (a +:+ "/" +:+ b)
  end.

(** [path.resolve(p)] in a process whose working directory is [cwd]. *)
Definition resolve (cwd p : string) : string :=
  let tail := if String.eqb p EmptyString then EmptyString else p +:+ "/" in
  if isAbsolute p then "/" +:+ normalizeString tail false
  else
    let full := if String.eqb cwd EmptyString then tail else cwd +:+ "/" +:+ tail in
    if isAbsolute cwd then "/" +:+ normalizeString full false
    else
      let q := normalizeString full true in
      if String.eqb q EmptyString then "." else q.

End path.

(** ** Normalized absolute paths *)

(** No character of [s] is a slash. *)
Fixpoint no_slash (s : string) : bool :=
  match s with
  | EmptyString => true
  | String c r => negb (c =? "/")%char && no_slash r
  end.

(** A segment of a normalized path: a name that is neither empty nor [.]
    nor [..] and holds no slash. *)
Definition plain_segment (s : string) : bool :=
  negb (String.eqb s EmptyString) && negb (String.eqb s ".")
  && negb (String.eqb s "..") && no_slash s.

(** The absolute path with the segments [segs]; the root has none. *)
Definition path_of (segs : list string) : string := "/" +:+ path.join_slash segs.

(** The segments of an absolute path. *)
Definition absolute_segments (p : string) : list string :=
  List.filter (fun seg => negb (String.eqb seg EmptyString)) (path.split_slash p).

(** [p] is an absolute path in normal form: the path of its segments, none
    of which is [.] or [..]. *)
Definition normalized_absolute (p : string) : bool :=
  String.eqb p (path_of (absolute_segments p))
  && forallb plain_segment (absolute_segments p).

(** ** The file system *)

(** Regular files with their text, and directories, under their paths. *)
Record Disk : Type := mkDisk {
  disk_files : gmap string string;
  disk_dirs : gset string
}.

(** The directory in which the entry of the normalized path [p] lies; the
    root lies in itself. *)
Definition parent (p : string) : string :=
  match rev (path.split_slash p) with
  | _ :: (_ :: _) as above =>
      let d := path.join_slash (rev above) in
      if String.eqb d EmptyString then "/" else d
  | _ => "."
  end.

(** What every file system keeps: no directory is a regular file as well,
    and every entry lies in a directory. *)
Definition consistent (d : Disk) : bool :=
  bool_decide
    (set_Forall (fun p => disk_files d !! p = None) (disk_dirs d)
     /\ set_Forall (fun p => parent p ∈ disk_dirs d \/ parent p = p)
          (dom (disk_files d) ∪ disk_dirs d)).

Record FS : Type := mkFS {
  disk : Disk;
  disk_consistent : consistent disk = true
}.

Definition files (fs : FS) : gmap string string := disk_files (disk fs).
Definition dirs (fs : FS) : gset string := disk_dirs (disk fs).

(** The file system with the entries of [d]; the functions below call it
    only with a consistent [d], the other case is never taken. *)
Definition make_fs (d : Disk) (otherwise : FS) : FS :=
  match decide (consistent d = true) with
  | left ok => mkFS d ok
  | right _ => otherwise
  end.

Definition isDirectory (p : string) (fs : FS) : bool := bool_decide (p ∈ dirs fs).

(** [existsSync(p)]: a regular file or a directory is there. *)
Definition existsSync (p : string) (fs : FS) : bool :=
  bool_decide (is_Some (files fs !! p)) || bool_decide (p ∈ dirs fs).

(** [readFileSync(p, 'utf8')]: the text of the regular file [p].  Where
    there is no such file the read fails; the failure is recorded as
    [ENOENT] in every case. *)
Definition readFileSync (p : string) (fs : FS) : completion string :=
  match files fs !! p with
  | Some text => Normal text
  | None => Throw (ENOENT p)
  end.

(** A regular file stands where a directory above [p] should be; [n]
    bounds the climb. *)
Fixpoint below_file (n : nat) (p : string) (fs : FS) : bool :=
  match n with
  | O => false
  | S n' => bool_decide (is_Some (files fs !! parent p)) || below_file n' (parent p) fs
  end.

(** The failure of an operation on [p] whose directory is not there: a
    regular file stands in the way, or nothing is there. *)
Definition parent_error (p : string) (fs : FS) : exn :=
  if below_file (String.length p) p fs then ENOTDIR p else ENOENT p.

(** [mkdirSync(p)], which is not recursive: [p] must be new, in a
    directory that exists. *)
Definition mkdirSync (p : string) (fs : FS) : completion FS :=
  if existsSync p fs then Throw (EEXIST p)
  else if isDirectory (parent p) fs then
    Normal (make_fs (mkDisk (files fs) ({[p]} ∪ dirs fs)) fs)
  else Throw (parent_error p fs).

(** [writeFileSync(p, text)]: [p] must lie in a directory that exists and
    be no directory itself; a file that is there is overwritten. *)
Definition writeFileSync (p text : string) (fs : FS) : completion FS :=
  if isDirectory p fs then Throw (EISDIR p)
  else if isDirectory (parent p) fs then
    Normal (make_fs (mkDisk (<[p := text]> (files fs)) (dirs fs)) fs)
  else Throw (parent_error p fs).

(** In JavaScript every function is an object, hence truthy: this is the
    value of an expression that names a function without calling it. *)
Definition function_truthy {A : Type} (f : A) : bool := true.

(** ** Observable events and the world *)

Inductive Event : Type :=
| EDebug (format : string) (args : list (option value))
| EWarn (format : string) (args : list (option value))
| EShowNycInfo (file : string)
| ECheckAllPathsNotFound (file : string) (answer : bool)
| ETryFindingLocalFiles (file : string)
| EResolveRelativePaths (file : string)
| EReadNycOptions (dir : string)
| EExeca (file : string) (args : list string) (stdio : string)
| ENewNYC (options : object)
| ENycReport
| EOn (event : string) (tasks : list string).

Record World : Type := mkWorld {
  fs : FS;
  events : list Event
}.

(** Statements run in a world and either complete or throw. *)
Definition M (A : Type) : Type := World -> completion A * World.

Definition ret {A} (a : A) : M A := fun w => (Normal a, w).

Definition throw {A} (e : exn) : M A := fun w => (Throw e, w).

Definition bind {A B} (m : M A) (k : A -> M B) : M B :=
  fun w =>
    match m w with
    | (Normal a, w') => k a w'
    | (Throw e, w') => (Throw e, w')
    end.

Definition lift {A} (c : completion A) : M A := fun w => (c, w).

Definition emit (e : Event) : M unit :=
  fun w => (Normal tt, mkWorld (fs w) (events w ++ [e])).

Definition get_fs : M FS := fun w => (Normal (fs w), w).

Definition modify_fs (f : FS -> FS) : M unit :=
  fun w => (Normal tt, mkWorld (f (fs w)) (events w)).

(** An operation of the file system that may fail. *)
Definition update_fs (f : FS -> completion FS) : M unit :=
  fun w =>
    match f (fs w) with
    | Normal fs' => (Normal tt, mkWorld fs' (events w))
    | Throw e => (Throw e, w)
    end.

Declare Scope task_scope.
Delimit Scope task_scope with task.
Notation "'let*' x ':=' m 'in' k" := (bind m (fun x => k))
  (at level 10, x binder, k at level 200) : task_scope.
Notation "m1 ';;' m2" := (bind m1 (fun _ => m2))
  (at level 100, m2 at level 200, right associativity) : task_scope.

Definition str (s : string) : option value := Some (JStr s).
Definition num (n : nat) : option value := Some (JNum (Z.of_nat n)).

Definition debug (format : string) (args : list (option value)) : M unit :=
  emit (EDebug format args).

Definition console_warn (format : string) (args : list (option value)) : M unit :=
  emit (EWarn format args).


(** ** The coverage map of istanbul-lib-coverage *)

(** The part of istanbul-lib-coverage 3.0 that [task.js] reaches through
    [createCoverageMap] and [merge].  A file coverage is represented by its
    data object, a coverage map by the object that maps keys to file
    coverages.  The hit tables [s], [f] and [b] of a coverage object are
    objects whose counters are numbers; where the library would coerce
    other shapes, the model stops with [OutsideModel]. *)
Module istanbul.

Definition emptyCoverage (filePath : string) : value :=
  JObj [("path", JStr filePath); ("statementMap", JObj []); ("fnMap", JObj []);
        ("branchMap", JObj []); ("s", JObj []); ("f", JObj []); ("b", JObj [])].

(** [assertValidObject]: every listed property is present and truthy. *)
Definition validObject (data : value) : bool :=
  truthy data
  && forallb (fun k => truthy_opt (obj_get k (Object_entries data)))
       ["path"; "statementMap"; "fnMap"; "branchMap"; "s"; "f"; "b"].

(** [new FileCoverage(pathOrObj)] for a path or a plain object. *)
Definition FileCoverage (pathOrObj : value) : completion value :=
  if negb (truthy pathOrObj) then
    Throw (Error "Coverage must be initialized with a path or an object")
  else
    match pathOrObj with
    | JStr p => Normal (emptyCoverage p)
    | JArr _ | JObj _ =>
        if validObject pathOrObj then Normal pathOrObj
        else Throw (Error "Invalid file coverage object, missing keys")
    | _ => Throw (Error "Invalid argument to coverage constructor")
    end.

(** A coverage map: keys to file coverage data. *)
Abbreviation CoverageMap := object.

(** [loadMap(source)]. *)
Fixpoint loadEntries (entries : object) (data : CoverageMap) : completion CoverageMap :=
  match entries with
  | [] => Normal data
  | (k, cov) :: rest =>
      cbind (FileCoverage cov) (fun fc => loadEntries rest (obj_set k fc data))
  end.

Definition loadMap (source : value) : completion CoverageMap :=
  if negb (truthy source) then Normal []
  else loadEntries (Object_entries source) [].

(** The argument of [createCoverageMap]: plain data, or a coverage map that
    exists already and is returned as it is. *)
Inductive MapSource : Type :=
| PlainData (v : value)
| ExistingMap (m : CoverageMap).

Definition createCoverageMap (obj : MapSource) : completion CoverageMap :=
  match obj with
  | ExistingMap m => Normal m
  | PlainData v => loadMap v
  end.

(** [x += v] on a counter [x] that may be missing.  The sum of two safe
    integers is exact when it is a safe integer; a sum that JavaScript
    would round is outside the model. *)
Definition add_counter (x : option value) (v : option value) : completion value :=
  match x, v with
  | Some (JNum a), Some (JNum b) =>
      if safe_integer a && safe_integer b && safe_integer (a + b)
      then Normal (JNum (a + b))
      else Throw OutsideModel
  | None, Some (JNum _) | Some JNaN, Some (JNum _) => Normal JNaN
  | None, None | None, Some JNaN | Some JNaN, None | Some JNaN, Some JNaN => Normal JNaN
  | Some (JNum _), None | Some (JNum _), Some JNaN => Normal JNaN
  | _, _ => Throw OutsideModel
  end.

(** [Object.entries(other).forEach(([k, v]) => { table[k] += v })]. *)
Fixpoint add_table (table : object) (other : object) : completion object :=
  match other with
  | [] => Normal table
  | (k, v) :: rest =>
      cbind (add_counter (obj_get k table) (Some v))
        (fun x => add_table (obj_set k x table) rest)
  end.

(** [for (i = 0; i < retArray.length; i += 1) retArray[i] += v[i]]. *)
Fixpoint add_arrays (retArray : list value) (v : list value) : completion (list value) :=
  match retArray with
  | [] => Normal []
  | x :: xs =>
      cbind (add_counter (Some x) (head v))
        (fun y => cbind (add_arrays xs (tail v)) (fun ys => Normal (y :: ys)))
  end.

Fixpoint add_branches (table : object) (other : object) : completion object :=
  match other with
  | [] => Normal table
  | (k, v) :: rest =>
      match obj_get k table with
      | Some (JArr retArray) =>
          match v with
          | JArr l =>
              cbind (add_arrays retArray l)
                (fun arr => add_branches (obj_set k (JArr arr) table) rest)
          | _ => Throw OutsideModel
          end
      | Some r =>
          if truthy r then Throw OutsideModel
          else add_branches (obj_set k v table) rest
      | None => add_branches (obj_set k v table) rest
      end
  end.

Definition table_of (data : value) (name : string) : completion object :=
  match obj_get name (Object_entries data) with
  | Some (JObj t) => Normal t
  | _ => Throw OutsideModel
  end.

Definition is_true (o : option value) : bool :=
  match o with
  | Some (JBool true) => true
  | _ => false
  end.

(** [Object.entries(data[name])]. *)
Definition entries_of (data : value) (name : string) : completion object :=
  match obj_get name (Object_entries data) with
  | Some JNull | None => Throw TypeError
  | Some t => Normal (Object_entries t)
  end.

(** [FileCoverage.prototype.merge]: the data of [this] afterwards. *)
Definition mergeFile (this other : value) : completion value :=
  if is_true (obj_get "all" (Object_entries other)) then Normal this
  else if is_true (obj_get "all" (Object_entries this)) then Normal other
  else
    match this with
    | JObj props =>
        cbind (entries_of other "s") (fun os =>
        cbind (table_of this "s") (fun s =>
        cbind (add_table s os) (fun s' =>
        cbind (entries_of other "f") (fun of' =>
        cbind (table_of this "f") (fun f =>
        cbind (add_table f of') (fun f' =>
        cbind (entries_of other "b") (fun ob =>
        cbind (table_of this "b") (fun b =>
        cbind (add_branches b ob) (fun b' =>
        Normal (JObj (obj_set "b" (JObj b')
                       (obj_set "f" (JObj f')
                          (obj_set "s" (JObj s') props)))))))))))))
    | _ => Throw OutsideModel
    end.

(** [CoverageMap.prototype.addFileCoverage]. *)
Definition addFileCoverage (data : CoverageMap) (fc : value) : completion CoverageMap :=
  match obj_get "path" (Object_entries fc) with
  | Some (JStr p) =>
      match obj_get p data with
      | Some mine => cbind (mergeFile mine fc) (fun merged => Normal (obj_set p merged data))
      | None => Normal (obj_set p fc data)
      end
  | _ => Throw OutsideModel
  end.

Fixpoint addFileCoverages (data : CoverageMap) (fcs : list value) : completion CoverageMap :=
  match fcs with
  | [] => Normal data
  | fc :: rest => cbind (addFileCoverage data fc) (fun data' => addFileCoverages data' rest)
  end.

(** [CoverageMap.prototype.merge], given plain data. *)
Definition merge (data : CoverageMap) (obj : value) : completion CoverageMap :=
  cbind (loadMap obj) (fun other => addFileCoverages data (map snd other)).

(** [toJSON]. *)
Definition toJSON (data : CoverageMap) : value := JObj data.

End istanbul.

(** ** Collaborators of the module *)

(** What [task.js] imports from [./task-utils], [./support-utils], [nyc]
    and the process it runs in.  Their code is in other files; the
    functions of [./task-utils] and [./support-utils] are described by the
    specification as follows.

    Modelled from the spec: [fixSourcePaths] (the Path Fixer) rewrites the
    source-file path entries of an incoming payload;
    [checkAllPathsNotFound] tells whether all source paths recorded in the
    coverage file fail to resolve on disk; [tryFindingLocalFiles] and
    [resolveRelativePaths] rewrite paths in the coverage file in place;
    [readNycOptions] loads the reporter options of the project.
    [showNycInfo] prints a summary and changes nothing: a call of it is an
    event and no more.  [nycReport] is what [new NYC(options).report()]
    does to the file system once its promise settles.  [cwd] is what
    [process.cwd()] returns, an absolute path in normal form. *)
Class Host : Type := {
  cwd : string;
  cwd_absolute : normalized_absolute cwd = true;
  fixSourcePaths : value -> value;
  checkAllPathsNotFound : string -> FS -> bool;
  tryFindingLocalFiles : string -> FS -> FS;
  resolveRelativePaths : string -> FS -> FS;
  readNycOptions : string -> FS -> object;
  nycReport : object -> FS -> completion FS
}.

(** ** task.js *)

(** What a task hands back to the task runner. *)
Inductive TaskResult : Type :=
| RNull
| RChildProcess (file : string) (args : list string) (stdio : string)
| RPromise (settled : completion (option value)).

Section Task.

Context `{Host}.
Local Open Scope task_scope.

Definition processWorkingDirectory : string := cwd.
Definition outputFolder : string := ".nyc_output".
Definition coverageFolder : string := path.join processWorkingDirectory outputFolder.
Definition nycFilename : string := path.join coverageFolder "out.json".

Definition pkgFilename : string := path.join processWorkingDirectory "package.json".

(** The constants below are evaluated once, when the module is loaded, in
    the file system [fs0] of that moment. *)
Definition pkg (fs0 : FS) : completion value :=
  if existsSync pkgFilename fs0
  then cbind (readFileSync pkgFilename fs0) JSON.parse
  else Normal (JObj []).

Definition scripts (fs0 : FS) : completion value :=
  cbind (pkg fs0) (fun p =>
  cbind (get p "scripts") (fun s => Normal (js_or s (JObj [])))).

Definition DEFAULT_CUSTOM_COVERAGE_SCRIPT_NAME : string := "coverage:report".

Definition customNycReportScript (fs0 : FS) : completion (option value) :=
  cbind (scripts fs0) (fun s => get s DEFAULT_CUSTOM_COVERAGE_SCRIPT_NAME).

Definition saveCoverage (coverage : value) : M unit :=
  let* fs1 := get_fs in
  (if negb (existsSync coverageFolder fs1) then
     update_fs (mkdirSync coverageFolder);;
     debug "created folder %s for output coverage" [str coverageFolder]
   else ret tt);;
  update_fs (writeFileSync nycFilename (JSON.stringify coverage)).

(** [join(folder, 'coverage-final.json')]: [path.join] wants strings. *)
Definition join_checked (folder : option value) (name : string) : completion string :=
  match folder with
  | Some (JStr d) => Normal (path.join d name)
  | _ => Throw TypeError
  end.

(** One round of the [forEach] over the keys of the final coverage. *)
Definition printFinalCoverageFile (finalCoverage : value) (key : string) : M unit :=
  let* fileCoverage := lift (get finalCoverage key) in
  let* s0 := lift (get_opt fileCoverage "s") in
  let s := js_or s0 (JObj []) in
  let* statements := lift (Object_keys s) in
  let totalStatements := List.length statements in
  let coveredStatements :=
    List.length
      (List.filter
         (fun statementKey =>
            match get s statementKey with
            | Normal x => truthy_opt x
            | Throw _ => false
            end)
         statements) in
  let allCovered := Nat.eqb coveredStatements totalStatements in
  debug "%s %s statements covered %d/%d"
    [str (if allCovered then "✅" else "⚠️"); str key;
     num coveredStatements; num totalStatements].

Fixpoint forEach {A} (body : A -> M unit) (l : list A) : M unit :=
  match l with
  | [] => ret tt
  | x :: l' => body x;; forEach body l'
  end.

Definition maybePrintFinalCoverageFiles (folder : option value) : M unit :=
  let* jsonReportFilename := lift (join_checked folder "coverage-final.json") in
  if negb (function_truthy existsSync) then
    debug "Did not find final coverage file %s" [str jsonReportFilename]
  else
    debug "Final coverage in %s" [str jsonReportFilename];;
    let* fs1 := get_fs in
    let* text := lift (readFileSync jsonReportFilename fs1) in
    let* finalCoverage := lift (JSON.parse text) in
    let* keys := lift (Object_keys finalCoverage) in
    forEach (printFinalCoverageFile finalCoverage) keys.

(** [resetCoverage({ isInteractive })]; [arg] is the argument object. *)
Definition resetCoverage (arg : value) : M TaskResult :=
  let* isInteractive := lift (get arg "isInteractive") in
  (if truthy_opt isInteractive then
     debug "reset code coverage in interactive mode" [];;
     let* coverageMap := lift (istanbul.createCoverageMap (istanbul.PlainData (JObj []))) in
     saveCoverage (istanbul.toJSON coverageMap)
   else ret tt);;
  ret RNull.

(** Lines 114-116 of [combineCoverage]: the previous coverage, read from
    the coverage file, or a new empty coverage map when there is no file. *)
Definition loadPrevious : M istanbul.MapSource :=
  let* fs1 := get_fs in
  if existsSync nycFilename fs1
  then
    let* text := lift (readFileSync nycFilename fs1) in
    let* v := lift (JSON.parse text) in
    ret (istanbul.PlainData v)
  else
    let* m := lift (istanbul.createCoverageMap (istanbul.PlainData (JObj []))) in
    ret (istanbul.ExistingMap m).

Definition combineCoverage (sentCoverage : string) : M TaskResult :=
  let* coverage := lift (JSON.parse sentCoverage) in
  debug "parsed sent coverage" [];;
  let coverage := fixSourcePaths coverage in
  let* previous := loadPrevious in
  let* coverageMap := lift (istanbul.createCoverageMap previous) in
  let* coverageMap := lift (istanbul.merge coverageMap coverage) in
  saveCoverage (istanbul.toJSON coverageMap);;
  debug "wrote coverage file %s" [str nycFilename];;
  ret RNull.

(** [nyc.report().then(returnReportFolder)], run until the promise settles. *)
Definition returnReportFolder (nycReportOptions : object) : M (option value) :=
  let reportFolder := obj_get "report-dir" nycReportOptions in
  debug "after reporting, returning the report folder name %s" [reportFolder];;
  maybePrintFinalCoverageFiles reportFolder;;
  ret reportFolder.

(** The promise of [p], settled: a throw inside [p] rejects it. *)
Definition settle (p : M (option value)) : M TaskResult :=
  fun w => let (c, w') := p w in (Normal (RPromise c), w').

(** The format of the first debug line of the script branch; the name of
    the script stands between double quotes. *)
Definition script_message : string :=
  "saving coverage report using script " +:+ String JSON.dquote "%s"
    +:+ String JSON.dquote " from package.json, command: %s".

(** Lines 136-143 of [coverageReport]: the diagnostic pass, the
    completeness check with its fallback, and the path normalization. *)
Definition checkAndNormalizePaths : M unit :=
  emit (EShowNycInfo nycFilename);;
  let* fs2 := get_fs in
  let allSourceFilesMissing := checkAllPathsNotFound nycFilename fs2 in
  emit (ECheckAllPathsNotFound nycFilename allSourceFilesMissing);;
  (if allSourceFilesMissing then
     emit (ETryFindingLocalFiles nycFilename);;
     modify_fs (tryFindingLocalFiles nycFilename)
   else ret tt);;
  emit (EResolveRelativePaths nycFilename);;
  modify_fs (resolveRelativePaths nycFilename).

(** Lines 146-154: the branch of a custom report script. *)
Definition runCustomScript (script : option value) : M TaskResult :=
  debug script_message [str DEFAULT_CUSTOM_COVERAGE_SCRIPT_NAME; script];;
  debug "current working directory is %s" [str cwd];;
  emit (EExeca "npm" ["run"; DEFAULT_CUSTOM_COVERAGE_SCRIPT_NAME] "inherit");;
  ret (RChildProcess "npm" ["run"; DEFAULT_CUSTOM_COVERAGE_SCRIPT_NAME] "inherit").

(** Lines 161-164: the two options that are overridden; [path.resolve]
    wants a string. *)
Definition overrideOptions (nycReportOptions : object) : completion object :=
  let nycReportOptions := obj_set "tempDir" (JStr coverageFolder) nycReportOptions in
  if truthy_opt (obj_get "report-dir" nycReportOptions) then
    match obj_get "report-dir" nycReportOptions with
    | Some (JStr p) =>
        Normal (obj_set "report-dir" (JStr (path.resolve cwd p)) nycReportOptions)
    | _ => Throw TypeError
    end
  else Normal nycReportOptions.

(** Lines 158-181: the branch of the reporting engine. *)
Definition runNyc : M TaskResult :=
  let* fs3 := get_fs in
  emit (EReadNycOptions processWorkingDirectory);;
  let nycReportOptions := readNycOptions processWorkingDirectory fs3 in
  let* nycReportOptions := lift (overrideOptions nycReportOptions) in
  debug "calling NYC reporter with options %o" [Some (JObj nycReportOptions)];;
  debug "current working directory is %s" [str cwd];;
  emit (ENewNYC nycReportOptions);;
  settle
    (emit ENycReport;;
     let* fs4 := get_fs in
     let* fs5 := lift (nycReport nycReportOptions fs4) in
     modify_fs (fun _ => fs5);;
     returnReportFolder nycReportOptions).

(** [coverageReport()]; [script] is the module constant
    [customNycReportScript]. *)
Definition coverageReport (script : option value) : M TaskResult :=
  let* fs1 := get_fs in
  if negb (existsSync nycFilename fs1) then
    console_warn "Cannot find coverage file %s" [str nycFilename];;
    console_warn "Skipping coverage report" [];;
    ret RNull
  else
    checkAndNormalizePaths;;
    if truthy_opt script then runCustomScript script else runNyc.

(** [registerCodeCoverageTasks(on, config)]: [on] is the registration
    function of the host, a call of which is an event.  The module is not
    in strict mode: an assignment to a property of a number, a boolean or a
    string does nothing. *)
Definition registerCodeCoverageTasks (config : value) : M value :=
  emit (EOn "task" ["resetCoverage"; "combineCoverage"; "coverageReport"]);;
  let* env := lift (get config "env") in
  match env with
  | None | Some JNull => throw TypeError
  | Some (JObj e) =>
      match config with
      | JObj props =>
          ret (JObj (obj_set "env"
                       (JObj (obj_set "codeCoverageTasksRegistered" (JBool true) e)) props))
      | _ => throw OutsideModel
      end
  | Some (JArr _) => throw OutsideModel
  | Some _ => ret config
  end.

End Task.

(** ** The plugins file of the example project *)

Section PluginsFile.
Local Open Scope task_scope.

(** [examples/new-cypress-config/frontend/cypress/plugins/index.js].  The
    module [@cypress/code-coverage/task] is [task.js], whose export is
    [registerCodeCoverageTasks]; it changes [config] in place, so that the
    [config] that the plugins file returns is the changed one.  The handler
    of the preprocessor is a function of another package: it names no
    tasks. *)
Definition pluginsFile (config : value) : M value :=
  let* config := registerCodeCoverageTasks config in
  emit (EOn "file:preprocessor" []);;
  ret config.

End PluginsFile.

(** ** Vocabulary of the JSON round trip *)

Import JSON.

(** A character that sends [parse_value] to [parse_number]. *)
Definition number_start (c : ascii) : bool :=
  (c =? "-")%char || match digit_of c with Some _ => true | None => false end.

(** What may follow a printed value: the end of the text, or a character
    that no number runs into. *)
Definition value_end (rest : list ascii) : bool :=
  match rest with
  | [] => true
  | c :: _ =>
      match digit_of c with Some _ => false | None => true end
      && negb (continues_number rest)
  end.

(** [k] is the key of some member of [o]. *)
Fixpoint has_key (k : string) (o : object) : bool :=
  match o with
  | [] => false
  | (k', _) :: o' => String.eqb k k' || has_key k o'
  end.

(** No key is listed twice. *)
Fixpoint distinct_keys (o : object) : bool :=
  match o with
  | [] => true
  | (k, _) :: o' => negb (has_key k o') && distinct_keys o'
  end.

(** A value of JavaScript: every object lists each of its keys once, and
    every number is a safe integer. *)
Fixpoint well_formed (v : value) : bool :=
  match v with
  | JNum z => safe_integer z
  | JArr l => forallb well_formed l
  | JObj o =>
      distinct_keys o
      && forallb (fun kv => match kv with (_, x) => well_formed x end) o
  | _ => true
  end.

(** What JSON keeps of a value: [NaN] is written as [null]. *)
Fixpoint strip_nan (v : value) : value :=
  match v with
  | JNaN => JNull
  | JArr l => JArr (map strip_nan l)
  | JObj o => JObj (map (fun kv => match kv with (k, x) => (k, strip_nan x) end) o)
  | _ => v
  end.

(** The fuel that reading [v] back takes. *)
Fixpoint nodes (v : value) : nat :=
  match v with
  | JArr l => S (list_sum (map (fun x => S (nodes x)) l))
  | JObj o => S (list_sum (map (fun kv => match kv with (_, x) => S (nodes x) end) o))
  | _ => 1
  end.

(** The elements of an array after the first, as [print] writes them. *)
Fixpoint print_elements (ind : nat) (l : list value) : list ascii :=
  match l with
  | [] => []
  | y :: l' =>
      ","%char :: newline (2 + ind) ++ print (2 + ind) y ++ print_elements ind l'
  end.

(** The members of an object after the first, as [print] writes them. *)
Fixpoint print_members (ind : nat) (l : object) : list ascii :=
  match l with
  | [] => []
  | (k, y) :: l' =>
      ","%char :: newline (2 + ind) ++ quote k ++ chars ": "
        ++ print (2 + ind) y ++ print_members ind l'
  end.

(** [parse_value] reads the printed [v] back, up to [strip_nan], and stops
    where the print stops. *)
Definition roundtrips (v : value) : Prop :=
  forall ind rest fuel,
    well_formed v = true ->
    (nodes v <= fuel)%nat ->
    value_end rest = true ->
    parse_value fuel (print ind v ++ rest) = Normal (strip_nan v, rest).

(** ** Vocabulary of the statements *)

(** A line of the debug log. *)
Definition is_debug (e : Event) : bool :=
  match e with
  | EDebug _ _ => true
  | _ => false
  end.


(** A subprocess or the reporting engine. *)
Definition is_reporter_event (e : Event) : bool :=
  match e with
  | EExeca _ _ _ | ENewNYC _ | ENycReport => true
  | _ => false
  end.

(** The line of the early return of [maybePrintFinalCoverageFiles]. *)
Definition did_not_find (e : Event) : bool :=
  match e with
  | EDebug format _ => String.eqb format "Did not find final coverage file %s"
  | _ => false
  end.

(** A debug line other than that of the early return. *)
Definition quiet (e : Event) : bool := is_debug e && negb (did_not_find e).

(** A warning on the console. *)
Definition is_warn (e : Event) : bool :=
  match e with
  | EWarn _ _ => true
  | _ => false
  end.

(** The start of a subprocess. *)
Definition is_subprocess (e : Event) : bool :=
  match e with
  | EExeca _ _ _ => true
  | _ => false
  end.

Section Vocabulary.

Context `{Host}.

(** The file system after the two path steps of [coverageReport]
    (lines 136-141). *)
Definition normalized_fs (fs0 : FS) : FS :=
  resolveRelativePaths nycFilename
    (if checkAllPathsNotFound nycFilename fs0
     then tryFindingLocalFiles nycFilename fs0 else fs0).

(** The calls of the diagnostic pass and of the two path steps, in order. *)
Definition path_events (fs0 : FS) : list Event :=
  [EShowNycInfo nycFilename;
   ECheckAllPathsNotFound nycFilename (checkAllPathsNotFound nycFilename fs0)]
  ++ (if checkAllPathsNotFound nycFilename fs0
      then [ETryFindingLocalFiles nycFilename] else [])
  ++ [EResolveRelativePaths nycFilename].

(** The trace of the custom-script branch (lines 145-156). *)
Definition script_events (script : option value) : list Event :=
  [EDebug script_message [str DEFAULT_CUSTOM_COVERAGE_SCRIPT_NAME; script];
   EDebug "current working directory is %s" [str cwd];
   EExeca "npm" ["run"; DEFAULT_CUSTOM_COVERAGE_SCRIPT_NAME] "inherit"].

(** The trace of the reporting-engine branch up to the call of
    [nyc.report()] (lines 158-171). *)
Definition engine_events (options : object) : list Event :=
  [EReadNycOptions processWorkingDirectory;
   EDebug "calling NYC reporter with options %o" [Some (JObj options)];
   EDebug "current working directory is %s" [str cwd];
   ENewNYC options;
   ENycReport].

(** The coverage file can be written: no directory stands in its place,
    and the coverage folder is a directory, or is missing from a working
    directory in which it can be created. *)
Definition store_writable (fs0 : FS) : bool :=
  negb (isDirectory nycFilename fs0)
  && (isDirectory coverageFolder fs0
      || negb (existsSync coverageFolder fs0) && isDirectory processWorkingDirectory fs0).

End Vocabulary.

(** ** Vocabulary of the coverage map *)

(** No counter of [v] is [NaN]. *)
Fixpoint nan_free (v : value) : bool :=
  match v with
  | JNaN => false
  | JArr l => forallb nan_free l
  | JObj o => forallb (fun kv => match kv with (_, x) => nan_free x end) o
  | _ => true
  end.

(** An entry of a coverage payload: the coverage object of one file, under
    the path of that file. *)
Definition file_entry (kv : string * value) : bool :=
  match kv with
  | (k, JObj props) =>
      match obj_get "path" props with
      | Some (JStr p) => String.eqb p k
      | _ => false
      end
      && istanbul.validObject (JObj props)
      && well_formed (JObj props)
      && nan_free (JObj props)
  | _ => false
  end.

Section PayloadVocabulary.

Context `{Host}.
Local Open Scope task_scope.

(** The payload that [combineCoverage] merges: parsed, then path-fixed. *)
Definition fixed_payload (sentCoverage : string) : option value :=
  match JSON.parse sentCoverage with
  | Normal coverage => Some (fixSourcePaths coverage)
  | Throw _ => None
  end.

(** The files of that payload, each with its coverage object. *)
Definition payload_files (sentCoverage : string) : object :=
  match fixed_payload sentCoverage with
  | Some (JObj o) => o
  | _ => []
  end.

(** The payload is a coverage object: every entry is a [file_entry]. *)
Definition payload_ok (sentCoverage : string) : bool :=
  match fixed_payload sentCoverage with
  | Some (JObj o) => forallb file_entry o
  | _ => false
  end.

(** The coverage map that the coverage file holds: what [loadPrevious]
    finds, when it is an object. *)
Definition persisted_map (fs0 : FS) : option object :=
  match files fs0 !! nycFilename with
  | Some text =>
      match JSON.parse text with
      | Normal (JObj o) => Some o
      | _ => None
      end
  | None => if existsSync nycFilename fs0 then None else Some []
  end.

(** One [combineCoverage] call after the other. *)
Definition combineAll (payloads : list string) : M unit :=
  forEach (fun sentCoverage => combineCoverage sentCoverage;; ret tt) payloads.

End PayloadVocabulary.

(** The hit counts of one file: statements, functions, branches. *)
Record Hits : Type := mkHits {
  hits_s : list (string * Z);
  hits_f : list (string * Z);
  hits_b : list (string * list Z)
}.

(** A hit table [s] or [f] as a value: a counter under each key. *)
Definition hit_entries (t : list (string * Z)) : object :=
  map (fun kc => (fst kc, JNum (snd kc))) t.

(** The branch table [b] as a value: an array of counters under each key. *)
Definition branch_entries (t : list (string * list Z)) : object :=
  map (fun kc => (fst kc, JArr (map JNum (snd kc)))) t.

(** The coverage object with the properties [props], its hit tables being
    those of [h]. *)
Definition with_hits (props : object) (h : Hits) : value :=
  JObj (obj_set "b" (JObj (branch_entries (hits_b h)))
          (obj_set "f" (JObj (hit_entries (hits_f h)))
             (obj_set "s" (JObj (hit_entries (hits_s h))) props))).

(** The sum of two hit tables, under the keys of the first. *)
Fixpoint add_counts (t u : list (string * Z)) : list (string * Z) :=
  match t, u with
  | (k, x) :: t', (_, y) :: u' => (k, x + y) :: add_counts t' u'
  | _, _ => []
  end.

(** The sum of two branch arrays, position by position. *)
Fixpoint add_lists (xs ys : list Z) : list Z :=
  match xs, ys with
  | x :: xs', y :: ys' => x + y :: add_lists xs' ys'
  | _, _ => []
  end.

(** The sum of two branch tables, under the keys of the first. *)
Fixpoint add_branch_counts (t u : list (string * list Z)) : list (string * list Z) :=
  match t, u with
  | (k, xs) :: t', (_, ys) :: u' => (k, add_lists xs ys) :: add_branch_counts t' u'
  | _, _ => []
  end.

(** Counter by counter, the sum of two records of hit counts. *)
Definition add_hits (h1 h2 : Hits) : Hits :=
  mkHits (add_counts (hits_s h1) (hits_s h2))
         (add_counts (hits_f h1) (hits_f h2))
         (add_branch_counts (hits_b h1) (hits_b h2)).

(** Two records of hit counts of the same instrumented file: the same
    keys in each table, and as many counters in each branch array. *)
Definition same_shape (h1 h2 : Hits) : Prop :=
  map fst (hits_s h1) = map fst (hits_s h2)
  /\ map fst (hits_f h1) = map fst (hits_f h2)
  /\ map fst (hits_b h1) = map fst (hits_b h2)
  /\ map (fun kc => List.length (snd kc)) (hits_b h1)
     = map (fun kc => List.length (snd kc)) (hits_b h2).

(** Each table lists each key once. *)
Definition hits_ok (h : Hits) : bool :=
  distinct_keys (hit_entries (hits_s h))
  && distinct_keys (hit_entries (hits_f h))
  && distinct_keys (branch_entries (hits_b h)).

(** Every counter is a safe integer. *)
Definition hits_safe (h : Hits) : bool :=
  forallb (fun kc => safe_integer (snd kc)) (hits_s h)
  && forallb (fun kc => safe_integer (snd kc)) (hits_f h)
  && forallb (fun kc => forallb safe_integer (snd kc)) (hits_b h).

(** The counts [hs], added one after the other to the counts [g], stay
    safe integers all the way. *)
Fixpoint sums_safe (g : Hits) (hs : list Hits) : bool :=
  match hs with
  | [] => true
  | h :: hs' => hits_safe h && hits_safe (add_hits g h) && sums_safe (add_hits g h) hs'
  end.

(** Every counter of [h], twice. *)
Definition double_hits (h : Hits) : Hits :=
  mkHits (map (fun kc => (fst kc, 2 * snd kc)) (hits_s h))
         (map (fun kc => (fst kc, 2 * snd kc)) (hits_f h))
         (map (fun kc => (fst kc, map (Z.mul 2) (snd kc))) (hits_b h)).

Section SpecVocabulary.

Context `{Host}.

(** The payload of a spec that covers the one file [p]: a coverage object
    of [p] whose hit counts [h'] have the shape of [h]. *)
Definition payload_of_file (p : string) (h : Hits) (sentCoverage : string) (h' : Hits)
  : Prop :=
  exists props',
    fixed_payload sentCoverage = Some (JObj [(p, with_hits props' h')])
    /\ file_entry (p, with_hits props' h') = true
    /\ istanbul.is_true (obj_get "all" props') = false
    /\ same_shape h h'.

End SpecVocabulary.

(** ** Vocabulary of the final coverage *)

(** The statement counters that [maybePrintFinalCoverageFiles] counts for
    a file coverage: its property [s], or none when there is no [s] or a
    falsy one.  There is no answer for [null], which has no properties,
    and for an [s] that is no object. *)
Definition statement_counters (fileCoverage : value) : option object :=
  match get fileCoverage "s" with
  | Normal (Some (JObj counters)) => Some counters
  | Normal (Some v) => if truthy v then None else Some []
  | Normal None => Some []
  | Throw _ => None
  end.

(** [statement_counters] has an answer. *)
Definition has_counters (fileCoverage : value) : bool :=
  match statement_counters fileCoverage with
  | Some _ => true
  | None => false
  end.

(** The line of the file [key]: the statements that were hit, out of all
    its statements; the check mark when no statement was missed. *)
Definition coverage_line (key : string) (counters : object) : Event :=
  let hit := fun kc : string * value => truthy (snd kc) in
  EDebug "%s %s statements covered %d/%d"
    [str (if forallb hit counters then "✅" else "⚠️"); str key;
     num (List.length (List.filter hit counters)); num (List.length counters)].

(** The lines of all the files of a final coverage, in its order. *)
Definition final_coverage_lines (finalCoverage : object) : list Event :=
  map (fun kv => coverage_line (fst kv) (default [] (statement_counters (snd kv))))
    finalCoverage.

(** ** Sample project

    A concrete host and concrete worlds, on which the statements below are
    evaluated. *)

(** The file system of a disk that is checked to be consistent. *)
Abbreviation checked d := (mkFS d (@eq_refl bool true <: consistent d = true)) (only parsing).

Definition sample_options : object :=
  [("report-dir", JStr "./coverage"); ("reporter", JArr [JStr "lcov"; JStr "text"])].

Definition sample_host : Host := {|
  cwd := "/home/user/project";
  cwd_absolute := eq_refl;
  fixSourcePaths := fun coverage => coverage;
  checkAllPathsNotFound := fun _ _ => false;
  tryFindingLocalFiles := fun _ fs0 => fs0;
  resolveRelativePaths := fun _ fs0 => fs0;
  readNycOptions := fun _ _ => sample_options;
  nycReport := fun _ fs0 => Normal fs0
|}.

(** A world without any file or directory. *)
Definition empty_disk : Disk := mkDisk ∅ ∅.
Definition empty_world : World := mkWorld (checked empty_disk) [].

(** The directories down to the working directory of [sample_host]. *)
Definition project_dirs : gset string :=
  {[ "/"; "/home"; "/home/user"; "/home/user/project" ]}.

(** A world in which the project has no coverage folder yet. *)
Definition project_disk : Disk := mkDisk ∅ project_dirs.
Definition project_world : World := mkWorld (checked project_disk) [].

(** A world in which the coverage file of [sample_host] holds an empty map. *)
Definition reset_disk : Disk :=
  mkDisk {[ "/home/user/project/.nyc_output/out.json" := "{}" ]}
    ({[ "/home/user/project/.nyc_output" ]} ∪ project_dirs).
Definition reset_world : World := mkWorld (checked reset_disk) [].

(** A world in which [.nyc_output] is a regular file. *)
Definition blocked_disk : Disk :=
  mkDisk {[ "/home/user/project/.nyc_output" := "not a folder" ]} project_dirs.
Definition blocked_world : World := mkWorld (checked blocked_disk) [].

(** The [package.json] of the sample project, with a custom report script. *)
Definition sample_package : value :=
  JObj [("name", JStr "project");
        ("scripts", JObj [("test", JStr "cypress run");
                          ("coverage:report", JStr "nyc report --reporter=html")])].

Definition sample_load_disk : Disk :=
  mkDisk {[ "/home/user/project/package.json" := JSON.stringify sample_package ]}
    project_dirs.
Definition sample_load_fs : FS := checked sample_load_disk.

(** A [package.json] whose report script is the empty string. *)
Definition blank_script_package : value :=
  JObj [("name", JStr "project"); ("scripts", JObj [("coverage:report", JStr EmptyString)])].

Definition blank_script_load_disk : Disk :=
  mkDisk {[ "/home/user/project/package.json" := JSON.stringify blank_script_package ]}
    project_dirs.
Definition blank_script_load_fs : FS := checked blank_script_load_disk.

(** A host whose reporter options set [report-dir] to the empty string. *)
Definition blank_report_dir_host : Host := {|
  cwd := "/home/user/project";
  cwd_absolute := eq_refl;
  fixSourcePaths := fun coverage => coverage;
  checkAllPathsNotFound := fun _ _ => false;
  tryFindingLocalFiles := fun _ fs0 => fs0;
  resolveRelativePaths := fun _ fs0 => fs0;
  readNycOptions := fun _ _ => [("report-dir", JStr EmptyString)];
  nycReport := fun _ fs0 => Normal fs0
|}.

(** A coverage object of the file [p], without its hit tables: one
    statement, one function and one branch with two arms. *)
Definition sample_props (p : string) : object :=
  [("path", JStr p);
   ("statementMap",
    JObj [("0", JObj [("start", JObj [("line", JNum 1); ("column", JNum 0)]);
                      ("end", JObj [("line", JNum 3); ("column", JNum 1)])])]);
   ("fnMap", JObj [("0", JObj [("name", JStr "add"); ("line", JNum 1)])]);
   ("branchMap", JObj [("0", JObj [("type", JStr "if"); ("line", JNum 2)])])].

(** Hit counts for that shape: the statement and the function were hit [n]
    times, the first arm of the branch [n] times, the second never. *)
Definition sample_hits (n : Z) : Hits :=
  mkHits [("0", n)] [("0", n)] [("0", [n; 0])].

Definition file_a : string := "/home/user/project/src/a.js".
Definition file_b : string := "/home/user/project/src/b.js".

(** The payloads of two specs, one file each. *)
Definition payload_a : value := JObj [(file_a, with_hits (sample_props file_a) (sample_hits 1))].
Definition payload_b : value := JObj [(file_b, with_hits (sample_props file_b) (sample_hits 2))].

(** A world whose coverage file holds [payload_a] already. *)
Definition disk_with_a : Disk :=
  mkDisk {[ "/home/user/project/.nyc_output/out.json" := JSON.stringify payload_a ]}
    ({[ "/home/user/project/.nyc_output" ]} ∪ project_dirs).
Definition world_with_a : World := mkWorld (checked disk_with_a) [].


(** A host whose reporting engine makes the report folder and writes the
    final coverage of [payload_a] into it. *)
Definition reporting_host : Host := {|
  cwd := "/home/user/project";
  cwd_absolute := eq_refl;
  fixSourcePaths := fun coverage => coverage;
  checkAllPathsNotFound := fun _ _ => false;
  tryFindingLocalFiles := fun _ fs0 => fs0;
  resolveRelativePaths := fun _ fs0 => fs0;
  readNycOptions := fun _ _ => sample_options;
  nycReport := fun _ fs0 =>
    cbind (mkdirSync "/home/user/project/coverage" fs0)
      (writeFileSync "/home/user/project/coverage/coverage-final.json"
         (JSON.stringify payload_a))
|}.

(** The file system of [reset_world] once the engine of [reporting_host]
    has reported. *)
Definition engine_disk : Disk :=
  mkDisk {[ "/home/user/project/.nyc_output/out.json" := "{}";
            "/home/user/project/coverage/coverage-final.json" := JSON.stringify payload_a ]}
    ({[ "/home/user/project/coverage"; "/home/user/project/.nyc_output" ]} ∪ project_dirs).
Definition engine_fs : FS := checked engine_disk.

(** The configuration that the host hands to the plugin. *)
Definition sample_config : value :=
  JObj [("baseUrl", JStr "http://localhost:3000");
        ("env", JObj [("coverage", JBool true)])].

(** A world whose coverage file was cut short. *)
Definition corrupted_disk : Disk :=
  mkDisk {[ "/home/user/project/.nyc_output/out.json" := "{" ]}
    ({[ "/home/user/project/.nyc_output" ]} ∪ project_dirs).
Definition corrupted_world : World := mkWorld (checked corrupted_disk) [].

(** A host whose reporting engine fails. *)
Definition failing_host : Host := {|
  cwd := "/home/user/project";
  cwd_absolute := eq_refl;
  fixSourcePaths := fun coverage => coverage;
  checkAllPathsNotFound := fun _ _ => false;
  tryFindingLocalFiles := fun _ fs0 => fs0;
  resolveRelativePaths := fun _ fs0 => fs0;
  readNycOptions := fun _ _ => sample_options;
  nycReport := fun _ _ => Throw (Error "Invalid reporter")
|}.

(** A host whose reporter options name no report folder. *)
Definition bare_options_host : Host := {|
  cwd := "/home/user/project";
  cwd_absolute := eq_refl;
  fixSourcePaths := fun coverage => coverage;
  checkAllPathsNotFound := fun _ _ => false;
  tryFindingLocalFiles := fun _ fs0 => fs0;
  resolveRelativePaths := fun _ fs0 => fs0;
  readNycOptions := fun _ _ => [("reporter", JArr [JStr "text"])];
  nycReport := fun _ fs0 => Normal fs0
|}.

(** A host whose reporter options give a number for the report folder. *)
Definition numeric_report_dir_host : Host := {|
  cwd := "/home/user/project";
  cwd_absolute := eq_refl;
  fixSourcePaths := fun coverage => coverage;
  checkAllPathsNotFound := fun _ _ => false;
  tryFindingLocalFiles := fun _ fs0 => fs0;
  resolveRelativePaths := fun _ fs0 => fs0;
  readNycOptions := fun _ _ => [("report-dir", JNum 1)];
  nycReport := fun _ fs0 => Normal fs0
|}.

(** A world after a report: the final coverage of two files, one with a
    statement that was never hit. *)
Definition final_coverage : object :=
  [(file_a, with_hits (sample_props file_a) (mkHits [("0", 3); ("1", 0)] [] []));
   (file_b, with_hits (sample_props file_b) (sample_hits 2))].

Definition reported_disk : Disk :=
  mkDisk {[ "/home/user/project/coverage/coverage-final.json"
            := JSON.stringify (JObj final_coverage) ]}
    ({[ "/home/user/project/coverage" ]} ∪ project_dirs).
Definition reported_world : World := mkWorld (checked reported_disk) [].

(** * Properties *)

(** ** JSON: parsing what was printed *)

Lemma parse_digits_uint_chars (d : Decimal.uint) (rest : list ascii) :
  value_end rest = true ->
  parse_digits (uint_chars d ++ rest) = (d, rest).
Proof.
  intros Hend. induction d; cbn [uint_chars app parse_digits];
    try (change (digit_of _) with (Some Decimal.D0) || idtac);
    try (cbn [digit_of Ascii.eqb Bool.eqb]; rewrite IHd; reflexivity).
  destruct rest as [| c r]; [reflexivity |]. cbn [parse_digits].
  cbn [value_end] in Hend. destruct (digit_of c); [discriminate | reflexivity].
Qed.

Lemma uint_beq_refl (d : Decimal.uint) : Decimal.uint_beq d d = true.
Proof. induction d; cbn; auto. Qed.

Lemma to_int_canonical (z : Z) :
  match Z.to_int z with
  | Decimal.Pos d | Decimal.Neg d => Decimal.unorm d = d
  end.
Proof.
  pose proof (DecimalZ.to_of (Z.to_int z)) as Hnorm.
  rewrite DecimalZ.of_to in Hnorm.
  destruct (Z.to_int z) as [d | d]; cbn [Decimal.norm] in Hnorm.
  - congruence.
  - unfold Decimal.unorm. destruct (Decimal.nzhead d); congruence.
Qed.

Lemma parse_number_print_Z (z : Z) (rest : list ascii) :
  safe_integer z = true ->
  value_end rest = true ->
  parse_number (print_Z z ++ rest) = Normal (JNum z, rest).
Proof.
  intros Hsafe Hend. pose proof (to_int_canonical z) as Hcanon.
  pose proof (DecimalZ.of_to z) as Hval.
  unfold print_Z, parse_number. destruct (Z.to_int z) as [d | d].
  - assert (Hhead : match uint_chars d ++ rest with
                    | c :: r => if (c =? "-")%char then (true, r) else (false, uint_chars d ++ rest)
                    | [] => (false, uint_chars d ++ rest)
                    end = (false, uint_chars d ++ rest)).
    { destruct d; reflexivity || (cbn [uint_chars app]; destruct rest; reflexivity) || idtac.
      all: try reflexivity. cbn. destruct rest as [| c r]; [reflexivity |].
      destruct (c =? "-")%char eqn:E; [| reflexivity].
      apply Ascii.eqb_eq in E. subst c. discriminate. }
    rewrite Hhead. cbv iota beta. rewrite parse_digits_uint_chars by exact Hend.
    rewrite Hcanon, uint_beq_refl.
    assert (Hcont : continues_number rest = false).
    { destruct rest as [| c r]; [reflexivity |]. cbn [value_end] in Hend.
      apply andb_true_iff in Hend as [_ Hend]. now apply negb_true_iff in Hend. }
    rewrite Hcont. cbv zeta. now rewrite Hval, Hsafe.
  - cbn [app]. change ("-" =? "-")%char with true. cbv iota beta.
    rewrite parse_digits_uint_chars by exact Hend.
    rewrite Hcanon, uint_beq_refl.
    assert (Hcont : continues_number rest = false).
    { destruct rest as [| c r]; [reflexivity |]. cbn [value_end] in Hend.
      apply andb_true_iff in Hend as [_ Hend]. now apply negb_true_iff in Hend. }
    rewrite Hcont. cbv zeta. now rewrite Hval, Hsafe.
Qed.

Lemma value_ind (P : value -> Prop) :
  P JNull ->
  (forall b, P (JBool b)) ->
  (forall z, P (JNum z)) ->
  P JNaN ->
  (forall s, P (JStr s)) ->
  (forall l, Forall P l -> P (JArr l)) ->
  (forall o, Forall (fun kv => P (snd kv)) o -> P (JObj o)) ->
  forall v, P v.
Proof.
  intros Hnull Hbool Hnum Hnan Hstr Harr Hobj.
  fix IH 1. intros [| b | z | | s | l | o].
  - exact Hnull.
  - apply Hbool.
  - apply Hnum.
  - exact Hnan.
  - apply Hstr.
  - apply Harr. induction l as [| x l IHl]; constructor; [apply IH | exact IHl].
  - apply Hobj. induction o as [| [k x] o IHo]; constructor; [apply IH | exact IHo].
Qed.

Lemma print_array (ind : nat) (x : value) (xs : list value) :
  print ind (JArr (x :: xs)) =
    "["%char :: newline (2 + ind) ++ print (2 + ind) x
      ++ print_elements ind xs ++ newline ind ++ ["]"%char].
Proof.
  cbn [print]. do 3 f_equal. f_equal.
  induction xs as [| y ys IH]; [reflexivity |]. cbn [print_elements]. now rewrite IH.
Qed.

Lemma print_object (ind : nat) (k : string) (x : value) (xs : object) :
  print ind (JObj ((k, x) :: xs)) =
    "{"%char :: newline (2 + ind) ++ quote k ++ chars ": " ++ print (2 + ind) x
      ++ print_members ind xs ++ newline ind ++ ["}"%char].
Proof.
  cbn [print]. do 5 f_equal. f_equal.
  induction xs as [| [k' y] ys IH]; [reflexivity |]. cbn [print_members]. now rewrite IH.
Qed.

Lemma parse_string_escape (a : ascii) (t : list ascii) :
  parse_string (escape_char a ++ t) = prepend a (parse_string t).
Proof.
  destruct a as [[] [] [] [] [] [] [] []]; reflexivity.
Qed.

Lemma parse_string_quoted (s : string) (rest : list ascii) :
  parse_string (flat_map escape_char (chars s) ++ dquote :: rest) = Normal (s, rest).
Proof.
  induction s as [| a s IH]; [reflexivity |].
  change (chars (String a s)) with (a :: chars s). cbn [flat_map].
  rewrite <- app_assoc, parse_string_escape, IH. reflexivity.
Qed.

Lemma skip_ws_newline (n : nat) (s : list ascii) : skip_ws (newline n ++ s) = skip_ws s.
Proof.
  unfold newline. cbn [app skip_ws is_ws]. change (is_ws "010") with true. cbn iota.
  induction n as [| n IH]; [reflexivity |]. cbn [repeat app skip_ws]. exact IH.
Qed.

Lemma skip_ws_idempotent (s : list ascii) : skip_ws (skip_ws s) = skip_ws s.
Proof.
  induction s as [| c s IH]; [reflexivity |]. cbn [skip_ws].
  destruct (is_ws c) eqn:E; [exact IH |]. cbn [skip_ws]. now rewrite E.
Qed.

Lemma parse_value_skip (fuel : nat) (s : list ascii) :
  parse_value fuel (skip_ws s) = parse_value fuel s.
Proof.
  destruct fuel; [reflexivity |]. cbn [parse_value]. now rewrite skip_ws_idempotent.
Qed.

Lemma parse_value_after_newline (fuel n : nat) (s : list ascii) :
  parse_value fuel (newline n ++ s) = parse_value fuel s.
Proof.
  now rewrite <- parse_value_skip, skip_ws_newline, parse_value_skip.
Qed.

Lemma number_start_dispatch (f : nat) (c : ascii) (r : list ascii) :
  number_start c = true -> parse_value (S f) (c :: r) = parse_number (c :: r).
Proof.
  destruct c as [[] [] [] [] [] [] [] []]; try discriminate; reflexivity.
Qed.

Lemma print_Z_head (z : Z) :
  exists c l, print_Z z = c :: l /\ number_start c = true.
Proof.
  pose proof (to_int_canonical z) as Hcanon. unfold print_Z.
  destruct (Z.to_int z) as [d | d].
  - destruct d; try (eexists _, _; split; reflexivity). discriminate.
  - eexists _, _; split; reflexivity.
Qed.

Lemma number_start_plain (c : ascii) :
  number_start c = true ->
  is_ws c = false /\ (c =? "]")%char = false /\ (c =? "}")%char = false.
Proof.
  destruct c as [[] [] [] [] [] [] [] []]; try discriminate; auto.
Qed.

Lemma print_head (ind : nat) (v : value) :
  exists c l,
    print ind v = c :: l
    /\ is_ws c = false /\ (c =? "]")%char = false /\ (c =? "}")%char = false.
Proof.
  destruct v as [| [] | z | | s | [| x xs] | [| [k x] xs]];
    try (eexists _, _; repeat split; reflexivity).
  destruct (print_Z_head z) as (c & l & Hz & Hc).
  exists c, l. split; [exact Hz | now apply number_start_plain].
Qed.

Lemma skip_ws_print (ind : nat) (v : value) (rest : list ascii) :
  skip_ws (print ind v ++ rest) = print ind v ++ rest.
Proof.
  destruct (print_head ind v) as (c & l & -> & Hws & _).
  cbn [app skip_ws]. now rewrite Hws.
Qed.

Lemma obj_set_fresh (k : string) (v : value) (o : object) :
  has_key k o = false -> obj_set k v o = o ++ [(k, v)].
Proof.
  induction o as [| [k' v'] o IH]; [reflexivity |]. cbn [has_key obj_set app].
  intros [Hk Ho]%orb_false_iff. rewrite Hk, (IH Ho). reflexivity.
Qed.

Lemma has_key_app (k : string) (o o' : object) :
  has_key k (o ++ o') = has_key k o || has_key k o'.
Proof.
  induction o as [| [k' v'] o IH]; [reflexivity |]. cbn [has_key app].
  now rewrite IH, orb_assoc.
Qed.

Lemma object_of_members_from (o acc : object) :
  distinct_keys o = true ->
  (forall k, has_key k acc = true -> has_key k o = false) ->
  fold_left (fun a kv => obj_set (fst kv) (snd kv) a) o acc = acc ++ o.
Proof.
  revert acc. induction o as [| [k v] o IH]; intros acc Hdistinct Hacc.
  - now rewrite app_nil_r.
  - cbn [distinct_keys] in Hdistinct. apply andb_true_iff in Hdistinct as [Hk Ho].
    apply negb_true_iff in Hk. cbn [fold_left fst snd].
    assert (Hfresh : has_key k acc = false).
    { destruct (has_key k acc) eqn:E; [| reflexivity].
      apply Hacc in E. cbn [has_key] in E. now rewrite String.eqb_refl in E. }
    rewrite (obj_set_fresh k v acc Hfresh), IH; [now rewrite <- app_assoc | exact Ho |].
    intros k' Hk'. rewrite has_key_app in Hk'. cbn [has_key] in Hk'.
    rewrite orb_false_r in Hk'. apply orb_true_iff in Hk' as [Hk' | Hk'].
    + apply Hacc in Hk'. cbn [has_key] in Hk'. now apply orb_false_iff in Hk' as [_ ?].
    + apply String.eqb_eq in Hk'. now subst k'.
Qed.

Lemma object_of_members_distinct (o : object) :
  distinct_keys o = true -> object_of_members o = o.
Proof.
  intros Hdistinct. unfold object_of_members.
  now rewrite object_of_members_from by (exact Hdistinct || discriminate).
Qed.

Lemma has_key_strip (k : string) (o : object) :
  has_key k (map (fun kv => match kv with (k0, x) => (k0, strip_nan x) end) o) = has_key k o.
Proof.
  induction o as [| [k' v'] o IH]; [reflexivity |]. cbn [map has_key]. now rewrite IH.
Qed.

Lemma distinct_keys_strip (o : object) :
  distinct_keys (map (fun kv => match kv with (k0, x) => (k0, strip_nan x) end) o)
  = distinct_keys o.
Proof.
  induction o as [| [k' v'] o IH]; [reflexivity |].
  cbn [map distinct_keys]. now rewrite has_key_strip, IH.
Qed.

Lemma value_end_elements (ind : nat) (xs : list value) (close : ascii) (rest : list ascii) :
  value_end (print_elements ind xs ++ newline ind ++ close :: rest) = true.
Proof. destruct xs; reflexivity. Qed.

Lemma value_end_members (ind : nat) (xs : object) (close : ascii) (rest : list ascii) :
  value_end (print_members ind xs ++ newline ind ++ close :: rest) = true.
Proof. destruct xs as [| [k x] xs]; reflexivity. Qed.

Lemma parse_elements_more (f : nat) (s : list ascii) (v : value) (r : list ascii) :
  parse_value f s = Normal (v, ","%char :: r) ->
  parse_elements (S f) s =
    match parse_elements f r with
    | Normal (l, r') => Normal (v :: l, r')
    | Throw e => Throw e
    end.
Proof. intros Hv. cbn [parse_elements]. rewrite Hv. reflexivity. Qed.

Lemma parse_elements_last (f n : nat) (s : list ascii) (v : value) (rest : list ascii) :
  parse_value f s = Normal (v, newline n ++ "]"%char :: rest) ->
  parse_elements (S f) s = Normal ([v], rest).
Proof.
  intros Hv. cbn [parse_elements]. rewrite Hv, skip_ws_newline. reflexivity.
Qed.

Lemma parse_elements_printed (ind : nat) (xs : list value) :
  forall (x : value) (rest : list ascii) (fuel : nat),
    Forall roundtrips (x :: xs) ->
    forallb well_formed (x :: xs) = true ->
    (list_sum (map (fun y => S (nodes y)) (x :: xs)) <= fuel)%nat ->
    parse_elements fuel
      (newline (2 + ind) ++ print (2 + ind) x
         ++ print_elements ind xs ++ newline ind ++ "]"%char :: rest)
    = Normal (map strip_nan (x :: xs), rest).
Proof.
  induction xs as [| y ys IH]; intros x rest fuel Hall Hwf Hfuel;
    (destruct fuel as [| f]; [cbn in Hfuel; lia |]);
    inversion Hall as [| ? ? Hx Hxs]; subst;
    cbn [forallb] in Hwf; apply andb_true_iff in Hwf as [Hwfx Hwfxs];
    cbn [map list_sum fold_right] in Hfuel.
  - apply (parse_elements_last f ind). rewrite parse_value_after_newline.
    apply (Hx (2 + ind)%nat _ f Hwfx); [lia | reflexivity].
  - rewrite (parse_elements_more f _ (strip_nan x)
               (newline (2 + ind) ++ print (2 + ind) y
                  ++ print_elements ind ys ++ newline ind ++ "]"%char :: rest)).
    + rewrite (IH y rest f Hxs Hwfxs) by (cbn [map list_sum fold_right]; lia).
      reflexivity.
    + rewrite parse_value_after_newline.
      cbn [print_elements]. rewrite <- app_comm_cons. repeat rewrite <- app_assoc.
      apply (Hx (2 + ind)%nat _ f Hwfx); [lia | reflexivity].
Qed.

Lemma parse_value_after_space (fuel : nat) (s : list ascii) :
  parse_value fuel (" "%char :: s) = parse_value fuel s.
Proof.
  rewrite <- parse_value_skip. cbn [skip_ws]. change (is_ws " ") with true. cbn iota.
  apply parse_value_skip.
Qed.

Lemma parse_members_key (f n : nat) (k : string) (body : list ascii) :
  parse_members (S f) (newline n ++ quote k ++ chars ": " ++ body) =
    match parse_value f body with
    | Normal (v, r) =>
        match skip_ws r with
        | c :: r' =>
            if (c =? ",")%char then
              match parse_members f r' with
              | Normal (l, r'') => Normal ((k, v) :: l, r'')
              | Throw e => Throw e
              end
            else if (c =? "}")%char then Normal ([(k, v)], r')
            else Throw SyntaxError
        | [] => Throw SyntaxError
        end
    | Throw e => Throw e
    end.
Proof.
  cbn [parse_members]. rewrite skip_ws_newline. unfold quote.
  rewrite <- app_comm_cons, <- app_assoc. cbn [skip_ws].
  change (is_ws dquote) with false. cbn iota.
  change (dquote =? dquote)%char with true. cbn iota.
  cbn [app]. rewrite parse_string_quoted.
  change (chars ": ") with [":"%char; " "%char]. cbn [app skip_ws].
  change (is_ws ":") with false. cbn iota.
  change (":" =? ":")%char with true. cbn iota.
  now rewrite parse_value_after_space.
Qed.

Lemma parse_members_printed (ind : nat) (xs : object) :
  forall (k : string) (x : value) (rest : list ascii) (fuel : nat),
    Forall (fun kv => roundtrips (snd kv)) ((k, x) :: xs) ->
    forallb (fun kv => match kv with (_, y) => well_formed y end) ((k, x) :: xs) = true ->
    (list_sum (map (fun kv => match kv with (_, y) => S (nodes y) end) ((k, x) :: xs))
       <= fuel)%nat ->
    parse_members fuel
      (newline (2 + ind) ++ quote k ++ chars ": " ++ print (2 + ind) x
         ++ print_members ind xs ++ newline ind ++ "}"%char :: rest)
    = Normal (map (fun kv => match kv with (k0, y) => (k0, strip_nan y) end) ((k, x) :: xs),
              rest).
Proof.
  induction xs as [| [k' y] ys IH]; intros k x rest fuel Hall Hwf Hfuel;
    (destruct fuel as [| f]; [cbn in Hfuel; lia |]);
    inversion Hall as [| ? ? Hx Hxs]; subst; cbn [snd] in Hx;
    cbn [forallb] in Hwf; apply andb_true_iff in Hwf as [Hwfx Hwfxs];
    cbn [map list_sum fold_right] in Hfuel;
    rewrite parse_members_key.
  - rewrite (Hx (2 + ind)%nat _ f Hwfx) by (lia || reflexivity).
    cbn [print_members app]. rewrite skip_ws_newline. reflexivity.
  - rewrite (Hx (2 + ind)%nat _ f Hwfx)
      by (lia || apply (value_end_members ind ((k', y) :: ys))).
    cbn [print_members]. rewrite <- app_comm_cons. repeat rewrite <- app_assoc.
    cbn [skip_ws]. change (is_ws ",") with false. cbn iota.
    change ("," =? ",")%char with true. cbn iota.
    rewrite (IH k' y rest f Hxs Hwfxs) by (cbn [map list_sum fold_right]; lia).
    reflexivity.
Qed.

Lemma parse_value_string (f : nat) (r : list ascii) :
  parse_value (S f) (dquote :: r) =
    match parse_string r with
    | Normal (t, r') => Normal (JStr t, r')
    | Throw e => Throw e
    end.
Proof. reflexivity. Qed.

Lemma parse_value_array (f : nat) (r : list ascii) (c : ascii) (l : list ascii) :
  skip_ws r = c :: l -> (c =? "]")%char = false ->
  parse_value (S f) ("["%char :: r) =
    match parse_elements f r with
    | Normal (vs, r') => Normal (JArr vs, r')
    | Throw e => Throw e
    end.
Proof. intros Hr Hc. cbn [parse_value skip_ws]. cbn. now rewrite Hr, Hc. Qed.

Lemma parse_value_object (f : nat) (r : list ascii) (c : ascii) (l : list ascii) :
  skip_ws r = c :: l -> (c =? "}")%char = false ->
  parse_value (S f) ("{"%char :: r) =
    match parse_members f r with
    | Normal (vs, r') => Normal (JObj (object_of_members vs), r')
    | Throw e => Throw e
    end.
Proof. intros Hr Hc. cbn [parse_value skip_ws]. cbn. now rewrite Hr, Hc. Qed.

Lemma print_roundtrips (v : value) : roundtrips v.
Proof.
  induction v as [| b | z | | s | l IH | o IH] using value_ind;
    intros ind rest fuel Hwf Hfuel Hend;
    (destruct fuel as [| f]; [cbn in Hfuel; lia |]).
  - reflexivity.
  - destruct b; reflexivity.
  - destruct (print_Z_head z) as (c & t & Hz & Hc).
    cbn [print strip_nan]. pose proof (parse_number_print_Z z rest Hwf Hend) as Hnum.
    rewrite Hz in *. cbn [app] in *. now rewrite number_start_dispatch.
  - reflexivity.
  - cbn [print strip_nan]. unfold quote.
    rewrite <- app_comm_cons, <- app_assoc, parse_value_string. cbn [app].
    now rewrite parse_string_quoted.
  - destruct l as [| x xs]; [reflexivity |].
    rewrite print_array. rewrite <- app_comm_cons. repeat rewrite <- app_assoc.
    destruct (print_head (2 + ind) x) as (c & t & Hx & _ & Hc & _).
    rewrite (parse_value_array f _ c
               (t ++ print_elements ind xs ++ newline ind ++ ["]"%char] ++ rest)).
    + cbn [well_formed] in Hwf. cbn [nodes] in Hfuel. cbn [app].
      rewrite (parse_elements_printed ind xs x rest f IH Hwf) by lia. reflexivity.
    + rewrite skip_ws_newline, skip_ws_print, Hx. reflexivity.
    + exact Hc.
  - destruct o as [| [k x] xs]; [reflexivity |].
    rewrite print_object. rewrite <- app_comm_cons. repeat rewrite <- app_assoc.
    rewrite (parse_value_object f _ dquote
               (flat_map escape_char (chars k) ++ [dquote] ++ chars ": "
                  ++ print (2 + ind) x ++ print_members ind xs ++ newline ind
                  ++ ["}"%char] ++ rest)).
    + cbn [well_formed] in Hwf. apply andb_true_iff in Hwf as [Hkeys Hwf].
      cbn [nodes] in Hfuel. cbn [app].
      rewrite (parse_members_printed ind xs k x rest f IH Hwf) by lia.
      cbn [strip_nan]. rewrite object_of_members_distinct; [reflexivity |].
      now rewrite distinct_keys_strip.
    + rewrite skip_ws_newline. unfold quote.
      rewrite <- app_comm_cons. repeat rewrite <- app_assoc. reflexivity.
    + reflexivity.
Qed.

Lemma length_print_elements (ind : nat) (xs : list value) :
  Forall (fun x => forall ind', (nodes x <= List.length (print ind' x))%nat) xs ->
  (list_sum (map (fun x => S (nodes x)) xs) <= List.length (print_elements ind xs))%nat.
Proof.
  induction 1 as [| x xs Hx _ IH]; [reflexivity |].
  unfold list_sum in *. cbn [map fold_right print_elements List.length].
  repeat rewrite length_app. specialize (Hx (2 + ind)%nat). lia.
Qed.

Lemma length_print_members (ind : nat) (xs : object) :
  Forall (fun kv => forall ind', (nodes (snd kv) <= List.length (print ind' (snd kv)))%nat) xs ->
  (list_sum (map (fun kv => match kv with (_, x) => S (nodes x) end) xs)
     <= List.length (print_members ind xs))%nat.
Proof.
  induction 1 as [| [k x] xs Hx _ IH]; [reflexivity |].
  unfold list_sum in *. cbn [map fold_right print_members List.length snd] in *.
  repeat rewrite length_app. specialize (Hx (2 + ind)%nat). lia.
Qed.

Lemma nodes_le_print (v : value) (ind : nat) : (nodes v <= List.length (print ind v))%nat.
Proof.
  revert ind. induction v as [| b | z | | s | l IH | o IH] using value_ind; intros ind.
  - cbn. lia.
  - destruct b; cbn; lia.
  - destruct (print_Z_head z) as (c & t & Hz & _). cbn [print nodes]. rewrite Hz. cbn. lia.
  - cbn. lia.
  - cbn [print nodes]. unfold quote. cbn [List.length]. lia.
  - destruct l as [| x xs]; [cbn; lia |].
    rewrite print_array. inversion IH as [| ? ? Hx Hxs]; subst.
    pose proof (length_print_elements ind xs Hxs) as Hrest.
    cbn [nodes map List.length]. unfold list_sum in *. cbn [fold_right].
    repeat rewrite length_app. cbn [List.length].
    specialize (Hx (2 + ind)%nat). lia.
  - destruct o as [| [k x] xs]; [cbn; lia |].
    rewrite print_object. inversion IH as [| ? ? Hx Hxs]; subst.
    pose proof (length_print_members ind xs Hxs) as Hrest.
    cbn [nodes map List.length snd] in *. unfold list_sum in *. cbn [fold_right].
    repeat rewrite length_app. cbn [List.length].
    specialize (Hx (2 + ind)%nat). lia.
Qed.

Lemma print_strip_nan (v : value) (ind : nat) : print ind (strip_nan v) = print ind v.
Proof.
  revert ind. induction v as [| b | z | | s | l IH | o IH] using value_ind; intros ind;
    try reflexivity.
  - destruct l as [| x xs]; [reflexivity |].
    cbn [strip_nan map]. rewrite !print_array.
    inversion IH as [| ? ? Hx Hxs]; subst. rewrite Hx. do 3 f_equal. f_equal.
    clear -Hxs. induction Hxs as [| y ys Hy _ IHys]; [reflexivity |].
    cbn [map print_elements]. now rewrite Hy, IHys.
  - destruct o as [| [k x] xs]; [reflexivity |].
    cbn [strip_nan map]. rewrite !print_object.
    inversion IH as [| ? ? Hx Hxs]; subst. cbn [snd] in Hx. rewrite Hx. do 5 f_equal. f_equal.
    clear -Hxs. induction Hxs as [| [k' y] ys Hy _ IHys]; [reflexivity |].
    cbn [map print_members snd] in *. now rewrite Hy, IHys.
Qed.

(** A well-formed value that is written by [JSON.stringify] is read back by
    [JSON.parse], with [null] in the place of every [NaN]. *)
Lemma parse_stringify (v : value) :
  well_formed v = true -> JSON.parse (JSON.stringify v) = Normal (strip_nan v).
Proof.
  intros Hwf. unfold JSON.parse, JSON.stringify, chars.
  rewrite list_ascii_of_string_of_list_ascii.
  rewrite <- (app_nil_r (print 0 v)) at 2.
  rewrite (print_roundtrips v 0%nat [] _ Hwf); [reflexivity | | reflexivity].
  pose proof (nodes_le_print v 0). lia.
Qed.

Lemma stringify_strip_nan (v : value) :
  JSON.stringify (strip_nan v) = JSON.stringify v.
Proof. unfold JSON.stringify. now rewrite print_strip_nan. Qed.

(** ** JSON: what the parser returns *)

(** The keys after an assignment. *)
Lemma has_key_set_iff (k k' : string) (v : value) (o : object) :
  has_key k (obj_set k' v o) = String.eqb k k' || has_key k o.
Proof.
  induction o as [| [k0 v0] o IH]; cbn [obj_set has_key]; [reflexivity |].
  destruct (String.eqb k' k0) eqn:E; cbn [has_key].
  - apply String.eqb_eq in E. subst k0. now destruct (String.eqb k k').
  - rewrite IH. now destruct (String.eqb k k'), (String.eqb k k0).
Qed.

Lemma distinct_keys_set (k : string) (v : value) (o : object) :
  distinct_keys o = true -> distinct_keys (obj_set k v o) = true.
Proof.
  induction o as [| [k0 v0] o IH]; [reflexivity |]. cbn [obj_set distinct_keys].
  intros [Hk Ho]%andb_true_iff. destruct (String.eqb k k0) eqn:E; cbn [distinct_keys].
  - now rewrite Hk, Ho.
  - rewrite has_key_set_iff, (IH Ho). apply negb_true_iff in Hk. rewrite Hk.
    rewrite String.eqb_sym, E. reflexivity.
Qed.

Lemma well_formed_set (k : string) (v : value) (o : object) :
  well_formed (JObj o) = true -> well_formed v = true ->
  well_formed (JObj (obj_set k v o)) = true.
Proof.
  cbn [well_formed]. intros [Hd Hall]%andb_true_iff Hv.
  rewrite (distinct_keys_set k v o Hd). cbn [andb].
  clear Hd. induction o as [| [k0 v0] o IH]; cbn [obj_set forallb].
  - now rewrite Hv.
  - cbn [forallb] in Hall. apply andb_true_iff in Hall as [H0 Hall].
    destruct (String.eqb k k0); cbn [forallb]; rewrite ?Hv, ?H0, ?Hall, ?(IH Hall);
      reflexivity.
Qed.

Lemma well_formed_members (l acc : object) :
  forallb (fun kv => well_formed (snd kv)) l = true ->
  well_formed (JObj acc) = true ->
  well_formed (JObj (fold_left (fun o kv => obj_set (fst kv) (snd kv) o) l acc)) = true.
Proof.
  revert acc. induction l as [| [k v] l IH]; intros acc Hl Hacc; [exact Hacc |].
  cbn [forallb snd] in Hl. apply andb_true_iff in Hl as [Hv Hl].
  cbn [fold_left fst snd]. apply IH; [exact Hl |]. now apply well_formed_set.
Qed.

Lemma parse_literal_well_formed (name : string) (v x : value) (s r : list ascii) :
  well_formed v = true -> parse_literal name v s = Normal (x, r) -> well_formed x = true.
Proof.
  unfold parse_literal. intros Hv. destruct (strip_prefix (chars name) s); [| discriminate].
  now intros [= <- _].
Qed.

Lemma parse_number_well_formed (s r : list ascii) (x : value) :
  parse_number s = Normal (x, r) -> well_formed x = true.
Proof.
  unfold parse_number.
  destruct (match s with
            | c :: r0 => if (c =? "-")%char then (true, r0) else (false, s)
            | [] => (false, s)
            end) as [neg s1].
  destruct (parse_digits s1) as [u r'].
  destruct (Decimal.uint_beq (Decimal.unorm u) u); [| discriminate].
  destruct (continues_number r'); [discriminate |]. cbv zeta.
  destruct (safe_integer _) eqn:Hsafe; [| discriminate].
  intros [= <- _]. exact Hsafe.
Qed.

(** Whatever [parse_value] returns is a value of JavaScript: it lists each
    key of each object once, a repeated key of the text being one property
    of the object, and its numbers are safe integers. *)
Lemma parse_value_well_formed (fuel : nat) :
  (forall s v r, parse_value fuel s = Normal (v, r) -> well_formed v = true)
  /\ (forall s l r, parse_elements fuel s = Normal (l, r) -> forallb well_formed l = true)
  /\ (forall s l r, parse_members fuel s = Normal (l, r) ->
        forallb (fun kv => well_formed (snd kv)) l = true).
Proof.
  induction fuel as [| f (IHv & IHe & IHm)]; [repeat split; discriminate |].
  repeat split.
  - intros s v r. cbn [parse_value].
    destruct (skip_ws s) as [| c t]; [discriminate |].
    destruct (c =? "{")%char.
    { destruct (skip_ws t) as [| c' t']; [discriminate |].
      destruct (c' =? "}")%char; [now intros [= <- _] |].
      destruct (parse_members f t) as [[l r''] | e] eqn:Hm; [| discriminate].
      intros [= <- _]. unfold object_of_members.
      apply well_formed_members; [now apply (IHm _ _ _ Hm) | reflexivity]. }
    destruct (c =? "[")%char.
    { destruct (skip_ws t) as [| c' t']; [discriminate |].
      destruct (c' =? "]")%char; [now intros [= <- _] |].
      destruct (parse_elements f t) as [[l r''] | e] eqn:He; [| discriminate].
      intros [= <- _]. cbn [well_formed]. now apply (IHe _ _ _ He). }
    destruct (c =? dquote)%char.
    { destruct (parse_string t) as [[k r'] | e]; [| discriminate]. now intros [= <- _]. }
    destruct (c =? "n")%char; [now apply parse_literal_well_formed |].
    destruct (c =? "t")%char; [now apply parse_literal_well_formed |].
    destruct (c =? "f")%char; [now apply parse_literal_well_formed |].
    apply parse_number_well_formed.
  - intros s l r. cbn [parse_elements].
    destruct (parse_value f s) as [[v t] | e] eqn:Hv; [| discriminate].
    destruct (skip_ws t) as [| c t']; [discriminate |].
    destruct (c =? ",")%char.
    { destruct (parse_elements f t') as [[l' r''] | e] eqn:He; [| discriminate].
      intros [= <- _]. cbn [forallb]. now rewrite (IHv _ _ _ Hv), (IHe _ _ _ He). }
    destruct (c =? "]")%char; [| discriminate].
    intros [= <- _]. cbn [forallb]. now rewrite (IHv _ _ _ Hv).
  - intros s l r. cbn [parse_members].
    destruct (skip_ws s) as [| q r0]; [discriminate |].
    destruct (q =? dquote)%char; [| discriminate].
    destruct (parse_string r0) as [[k r1] | e]; [| discriminate].
    destruct (skip_ws r1) as [| c1 r2]; [discriminate |].
    destruct (c1 =? ":")%char; [| discriminate].
    destruct (parse_value f r2) as [[v t] | e] eqn:Hv; [| discriminate].
    destruct (skip_ws t) as [| c t']; [discriminate |].
    destruct (c =? ",")%char.
    { destruct (parse_members f t') as [[l' r''] | e] eqn:Hm; [| discriminate].
      intros [= <- _]. cbn [forallb snd]. now rewrite (IHv _ _ _ Hv), (IHm _ _ _ Hm). }
    destruct (c =? "}")%char; [| discriminate].
    intros [= <- _]. cbn [forallb snd]. now rewrite (IHv _ _ _ Hv).
Qed.

(** [JSON.parse] returns no object with a repeated key. *)
Lemma parse_well_formed (text : string) (v : value) :
  JSON.parse text = Normal v -> well_formed v = true.
Proof.
  unfold JSON.parse.
  destruct (parse_value _ _) as [[x r] | e] eqn:Hv; [| discriminate].
  destruct (skip_ws r); [| discriminate]. intros [= <-].
  now apply (proj1 (parse_value_well_formed _) _ _ _ Hv).
Qed.

(** ** Objects *)

Lemma obj_get_set_eq (k : string) (v : value) (o : object) :
  obj_get k (obj_set k v o) = Some v.
Proof.
  induction o as [| [k' v'] o IH]; cbn.
  - now rewrite String.eqb_refl.
  - destruct (String.eqb k k') eqn:E; cbn; rewrite E; auto.
Qed.

Lemma obj_get_set_ne (k k' : string) (v : value) (o : object) :
  k <> k' -> obj_get k' (obj_set k v o) = obj_get k' o.
Proof.
  intros Hne. induction o as [| [k0 v0] o IH]; cbn.
  - destruct (String.eqb k' k) eqn:E; [| reflexivity].
    apply String.eqb_eq in E. congruence.
  - destruct (String.eqb k k0) eqn:E; cbn.
    + apply String.eqb_eq in E. subst k0.
      destruct (String.eqb k' k) eqn:E'; [| reflexivity].
      apply String.eqb_eq in E'. congruence.
    + now rewrite IH.
Qed.

(** In an object without repeated keys every property is found under its
    key. *)
Lemma obj_get_In (k : string) (v : value) (o : object) :
  distinct_keys o = true -> In (k, v) o -> obj_get k o = Some v.
Proof.
  induction o as [| [k0 v0] o IH]; [contradiction |]. cbn [distinct_keys obj_get In].
  intros [Hk Ho]%andb_true_iff [[= -> ->] | Hin].
  - now rewrite String.eqb_refl.
  - destruct (String.eqb k k0) eqn:E; [| now apply IH].
    apply String.eqb_eq in E. subst k0. apply negb_true_iff in Hk.
    assert (Hin' : has_key k o = true).
    { clear -Hin. induction o as [| [k1 v1] o IH]; [contradiction |].
      cbn [has_key]. destruct Hin as [[= -> ->] | Hin].
      - now rewrite String.eqb_refl.
      - rewrite (IH Hin). apply orb_true_r. }
    congruence.
Qed.

Lemma obj_get_Some_In (k : string) (v : value) (o : object) :
  obj_get k o = Some v -> In v (map snd o).
Proof.
  induction o as [| [k0 v0] o IH]; [discriminate |]. cbn [obj_get map snd In].
  destruct (String.eqb k k0); [intros [= ->]; now left | intros Hget; right; auto].
Qed.

Lemma well_formed_In (o : object) (v : value) :
  well_formed (JObj o) = true -> In v (map snd o) -> well_formed v = true.
Proof.
  cbn [well_formed]. intros [_ Hall]%andb_true_iff.
  induction o as [| [k0 v0] o IH]; [contradiction |].
  cbn [forallb] in Hall. apply andb_true_iff in Hall as [H0 Hall].
  cbn [map snd In]. intros [<- | Hin]; auto.
Qed.

Lemma obj_get_combine (k : string) (x : value) (ks : list string) (vs : list value) :
  obj_get k (combine ks vs) = Some x -> In x vs.
Proof.
  revert vs. induction ks as [| k0 ks IH]; intros [| v vs]; try discriminate.
  cbn [combine obj_get In].
  destruct (String.eqb k k0); [intros [= ->]; now left | intros Hget; right; auto].
Qed.

(** A property of a value of JavaScript, its length apart, is one. *)
Lemma get_well_formed (v x : value) (k : string) :
  well_formed v = true -> String.eqb k "length" = false ->
  get v k = Normal (Some x) -> well_formed x = true.
Proof.
  intros Hwf Hk. destruct v; cbn [get Object_entries obj_get]; rewrite ?Hk;
    try discriminate.
  - intros [= Hget%obj_get_combine]. unfold string_chars in Hget.
    apply in_map_iff in Hget as (c & <- & _). reflexivity.
  - intros [= Hget%obj_get_combine]. cbn [well_formed] in Hwf.
    rewrite forallb_forall in Hwf. auto.
  - intros [= Hget%obj_get_Some_In]. now apply (well_formed_In props).
Qed.

Lemma has_key_perm (k : string) (o o' : object) :
  Permutation o o' -> has_key k o = has_key k o'.
Proof.
  induction 1 as [| [k0 v0] l l' _ IH | [k0 v0] [k1 v1] l | l l' l'' _ IH _ IH'];
    cbn [has_key]; [reflexivity | now rewrite IH | | congruence].
  now destruct (String.eqb k k0), (String.eqb k k1).
Qed.

Lemma distinct_keys_perm (o o' : object) :
  Permutation o o' -> distinct_keys o = distinct_keys o'.
Proof.
  induction 1 as [| [k0 v0] l l' Hperm IH | [k0 v0] [k1 v1] l | l l' l'' _ IH _ IH'];
    cbn [distinct_keys has_key]; [reflexivity | | | congruence].
  - now rewrite IH, (has_key_perm k0 l l' Hperm).
  - rewrite (String.eqb_sym k1 k0).
    now destruct (String.eqb k0 k1), (has_key k0 l), (has_key k1 l).
Qed.

(** In an object without repeated keys the order of the properties does
    not matter to a lookup. *)
Lemma obj_get_perm (k : string) (o o' : object) :
  Permutation o o' -> distinct_keys o = true -> obj_get k o = obj_get k o'.
Proof.
  induction 1 as [| [k0 v0] l l' _ IH | [k0 v0] [k1 v1] l | l l' l'' Hperm IH _ IH'];
    cbn [distinct_keys has_key obj_get].
  - reflexivity.
  - intros [_ Hl]%andb_true_iff. now rewrite (IH Hl).
  - intros [[Hne _]%negb_true_iff%orb_false_iff _]%andb_true_iff.
    destruct (String.eqb k k1) eqn:E1, (String.eqb k k0) eqn:E0; try reflexivity.
    apply String.eqb_eq in E1, E0. subst k0 k1. now rewrite String.eqb_refl in Hne.
  - intros Hd. rewrite (IH Hd). apply IH'. now rewrite <- (distinct_keys_perm _ _ Hperm).
Qed.

(** The statement counters of a parsed file coverage: each key once. *)
Lemma statement_counters_distinct (fileCoverage : value) (counters : object) :
  well_formed fileCoverage = true ->
  statement_counters fileCoverage = Some counters ->
  distinct_keys counters = true.
Proof.
  unfold statement_counters. intros Hwf.
  destruct (get fileCoverage "s") as [[s |] |] eqn:Hget; [| now intros [= <-] | discriminate].
  pose proof (get_well_formed fileCoverage s "s" Hwf eq_refl Hget) as Hs.
  destruct s; try (destruct (truthy _); [discriminate | now intros [= <-]]).
  intros [= <-]. cbn [well_formed] in Hs. now apply andb_true_iff in Hs as [-> _].
Qed.

(** As many pass the test as there are: all pass. *)
Lemma filter_length_forallb {A : Type} (f : A -> bool) (l : list A) :
  Nat.eqb (List.length (List.filter f l)) (List.length l) = forallb f l.
Proof.
  induction l as [| a l IH]; [reflexivity |]. cbn [List.filter forallb].
  destruct (f a); cbn [List.length andb]; [exact IH |].
  apply Nat.eqb_neq. pose proof (filter_length_le f l). lia.
Qed.

(** Counting over the keys of a table is counting over its entries. *)
Lemma filter_keys (f : option value -> bool) (t l : object) :
  (forall kv, In kv l -> obj_get (fst kv) t = Some (snd kv)) ->
  List.filter (fun k => f (obj_get k t)) (map fst l)
  = map fst (List.filter (fun kc => f (Some (snd kc))) l).
Proof.
  induction l as [| [k v] l IH]; intros Hl; [reflexivity |].
  pose proof (Hl (k, v) (or_introl eq_refl)) as Hk. cbn [fst snd] in Hk.
  cbn [map fst List.filter snd]. rewrite Hk.
  rewrite IH by (intros kv Hkv; apply Hl; now right).
  now destruct (f (Some v)).
Qed.

(** ** The coverage map: loading and merging *)

Lemma strip_nan_free (v : value) : nan_free v = true -> strip_nan v = v.
Proof.
  induction v as [| b | z | | s | l IH | o IH] using value_ind; cbn [nan_free strip_nan];
    try reflexivity; try discriminate; intros Hfree; f_equal.
  - induction IH as [| x xs Hx _ IHxs]; [reflexivity |].
    cbn [forallb map] in *. apply andb_true_iff in Hfree as [Hfx Hfxs].
    now rewrite (Hx Hfx), (IHxs Hfxs).
  - induction IH as [| [k x] xs Hx _ IHxs]; [reflexivity |].
    cbn [forallb map snd] in *. apply andb_true_iff in Hfree as [Hfx Hfxs].
    now rewrite (Hx Hfx), (IHxs Hfxs).
Qed.

Lemma obj_get_absent (k : string) (o : object) : has_key k o = false -> obj_get k o = None.
Proof.
  induction o as [| [k' v] o IH]; [reflexivity |]. cbn [has_key obj_get].
  intros [Hk Ho]%orb_false_iff. rewrite Hk. auto.
Qed.

Lemma distinct_keys_app (o o' : object) :
  distinct_keys (o ++ o') = true ->
  distinct_keys o = true /\ distinct_keys o' = true
  /\ (forall k, has_key k o = true -> has_key k o' = false).
Proof.
  induction o as [| [k v] o IH]; cbn [app distinct_keys has_key].
  - intros Hd. repeat split; [exact Hd | discriminate].
  - intros [Hk Hd]%andb_true_iff. apply negb_true_iff in Hk.
    rewrite has_key_app in Hk. apply orb_false_iff in Hk as [Hko Hko'].
    destruct (IH Hd) as (Ho & Ho' & Hdisj). rewrite Hko, Ho. repeat split; auto.
    intros k' [Hk' | Hk']%orb_true_iff; [| now apply Hdisj].
    apply String.eqb_eq in Hk'. now subst k'.
Qed.

Lemma distinct_keys_snoc (o : object) (k : string) (v : value) (o' : object) :
  distinct_keys (o ++ (k, v) :: o') = true ->
  has_key k o = false /\ distinct_keys ((o ++ [(k, v)]) ++ o') = true.
Proof.
  intros Hd. split.
  - destruct (distinct_keys_app _ _ Hd) as (_ & _ & Hdisj).
    destruct (has_key k o) eqn:E; [| reflexivity].
    apply Hdisj in E. cbn [has_key] in E. now rewrite String.eqb_refl in E.
  - now rewrite <- app_assoc.
Qed.

Lemma FileCoverage_entry (k : string) (fc : value) :
  file_entry (k, fc) = true ->
  istanbul.FileCoverage fc = Normal fc
  /\ obj_get "path" (Object_entries fc) = Some (JStr k).
Proof.
  unfold file_entry. destruct fc as [| | | | | | props]; try discriminate.
  intros [[[Hpath Hvalid]%andb_true_iff _]%andb_true_iff _]%andb_true_iff.
  split.
  - unfold istanbul.FileCoverage. cbn [truthy negb]. now rewrite Hvalid.
  - cbn [Object_entries]. destruct (obj_get "path" props) as [[| | | | p | |] |];
      try discriminate. apply String.eqb_eq in Hpath. now subst p.
Qed.

Lemma loadEntries_entries (o acc : object) :
  forallb file_entry o = true ->
  distinct_keys (acc ++ o) = true ->
  istanbul.loadEntries o acc = Normal (acc ++ o).
Proof.
  revert acc. induction o as [| [k fc] o IH]; intros acc Hok Hd.
  - now rewrite app_nil_r.
  - cbn [forallb] in Hok. apply andb_true_iff in Hok as [Hfc Hok].
    destruct (FileCoverage_entry k fc Hfc) as [Hnew _].
    destruct (distinct_keys_snoc acc k fc o Hd) as [Hfresh Hd'].
    cbn [istanbul.loadEntries]. rewrite Hnew. cbn [cbind].
    rewrite (obj_set_fresh k fc acc Hfresh), (IH _ Hok Hd'). now rewrite <- app_assoc.
Qed.

Lemma addFileCoverages_entries (o acc : object) :
  forallb file_entry o = true ->
  distinct_keys (acc ++ o) = true ->
  istanbul.addFileCoverages acc (map snd o) = Normal (acc ++ o).
Proof.
  revert acc. induction o as [| [k fc] o IH]; intros acc Hok Hd.
  - now rewrite app_nil_r.
  - cbn [forallb] in Hok. apply andb_true_iff in Hok as [Hfc Hok].
    destruct (FileCoverage_entry k fc Hfc) as [_ Hpath].
    destruct (distinct_keys_snoc acc k fc o Hd) as [Hfresh Hd'].
    cbn [map snd istanbul.addFileCoverages]. unfold istanbul.addFileCoverage.
    rewrite Hpath, (obj_get_absent k acc Hfresh). cbn [cbind].
    rewrite (obj_set_fresh k fc acc Hfresh), (IH _ Hok Hd'). now rewrite <- app_assoc.
Qed.

Lemma merge_entries (o acc : object) :
  forallb file_entry o = true ->
  distinct_keys (acc ++ o) = true ->
  istanbul.merge acc (JObj o) = Normal (acc ++ o).
Proof.
  intros Hok Hd. unfold istanbul.merge, istanbul.loadMap. cbn [truthy negb Object_entries].
  destruct (distinct_keys_app _ _ Hd) as (_ & Ho & _).
  rewrite (loadEntries_entries o [] Hok Ho). cbn [cbind app].
  now apply addFileCoverages_entries.
Qed.

Lemma entries_well_formed (o : object) :
  forallb file_entry o = true ->
  forallb (fun kv => match kv with (_, x) => well_formed x end) o = true
  /\ forallb (fun kv => match kv with (_, x) => nan_free x end) o = true.
Proof.
  induction o as [| [k fc] o IH]; [auto |]. cbn [forallb].
  intros [Hfc Hok]%andb_true_iff. destruct (IH Hok) as [Hwf Hfree].
  unfold file_entry in Hfc. destruct fc as [| | | | | | props]; try discriminate.
  apply andb_true_iff in Hfc as [[_ Hw]%andb_true_iff Hn].
  rewrite Hw, Hn, Hwf, Hfree. auto.
Qed.

Lemma parse_stringify_entries (o : object) :
  forallb file_entry o = true ->
  distinct_keys o = true ->
  JSON.parse (JSON.stringify (JObj o)) = Normal (JObj o).
Proof.
  intros Hok Hd. destruct (entries_well_formed o Hok) as [Hwf Hfree].
  rewrite parse_stringify by (cbn [well_formed]; now rewrite Hd, Hwf).
  f_equal. apply strip_nan_free. exact Hfree.
Qed.

Lemma obj_get_app_absent (k : string) (o o' : object) :
  has_key k o = false -> obj_get k (o ++ o') = obj_get k o'.
Proof.
  induction o as [| [k' v] o IH]; [reflexivity |]. cbn [has_key app obj_get].
  intros [Hk Ho]%orb_false_iff. rewrite Hk. auto.
Qed.

Lemma obj_set_app_absent (k : string) (v : value) (o o' : object) :
  has_key k o = false -> obj_set k v (o ++ o') = o ++ obj_set k v o'.
Proof.
  induction o as [| [k' v'] o IH]; [reflexivity |]. cbn [has_key app obj_set].
  intros [Hk Ho]%orb_false_iff. rewrite Hk, (IH Ho). reflexivity.
Qed.

Lemma has_key_update (k0 k : string) (v v' : value) (o o' : object) :
  has_key k0 (o ++ (k, v) :: o') = has_key k0 (o ++ (k, v') :: o').
Proof. now rewrite !has_key_app. Qed.

Lemma distinct_keys_update (k : string) (v v' : value) (o o' : object) :
  distinct_keys (o ++ (k, v) :: o') = distinct_keys (o ++ (k, v') :: o').
Proof.
  induction o as [| [k0 v0] o IH]; [reflexivity |]. cbn [app distinct_keys].
  now rewrite IH, (has_key_update k0 k v v').
Qed.

Lemma add_table_counts (u t done : list (string * Z)) :
  map fst t = map fst u ->
  distinct_keys (hit_entries (done ++ t)) = true ->
  forallb (fun kc => safe_integer (snd kc)) t = true ->
  forallb (fun kc => safe_integer (snd kc)) u = true ->
  forallb (fun kc => safe_integer (snd kc)) (add_counts t u) = true ->
  istanbul.add_table (hit_entries (done ++ t)) (hit_entries u)
  = Normal (hit_entries (done ++ add_counts t u)).
Proof.
  revert t done.
  induction u as [| [k y] u IH]; intros [| [k' x] t] done Hkeys Hd Ht Hu Hsum;
    try discriminate; [reflexivity |].
  cbn [map fst] in Hkeys. injection Hkeys as -> Hkeys.
  cbn [add_counts forallb snd] in Ht, Hu, Hsum.
  apply andb_true_iff in Ht as [Hx Ht]. apply andb_true_iff in Hu as [Hy Hu].
  apply andb_true_iff in Hsum as [Hxy Hsum].
  unfold hit_entries in *. rewrite map_app in *. cbn [map fst snd] in *.
  destruct (distinct_keys_snoc _ _ _ _ Hd) as [Hfresh Hd'].
  cbn [istanbul.add_table].
  rewrite (obj_get_app_absent k _ _ Hfresh). cbn [obj_get]. rewrite String.eqb_refl.
  cbn [istanbul.add_counter cbind]. rewrite Hx, Hy, Hxy. cbn [andb cbind].
  rewrite (obj_set_app_absent k _ _ _ Hfresh). cbn [obj_set]. rewrite String.eqb_refl.
  specialize (IH t (done ++ [(k, x + y)]) Hkeys).
  rewrite !map_app in IH. cbn [map fst snd] in IH. rewrite <- !app_assoc in IH.
  cbn [app] in IH. cbn [add_counts]. rewrite ?map_app. cbn [map fst snd].
  apply IH; [| exact Ht | exact Hu | exact Hsum].
  now rewrite (distinct_keys_update k (JNum (x + y)) (JNum x)).
Qed.

Lemma add_arrays_counts (xs ys : list Z) :
  List.length xs = List.length ys ->
  forallb safe_integer xs = true ->
  forallb safe_integer ys = true ->
  forallb safe_integer (add_lists xs ys) = true ->
  istanbul.add_arrays (map JNum xs) (map JNum ys) = Normal (map JNum (add_lists xs ys)).
Proof.
  revert ys. induction xs as [| x xs IH]; intros [| y ys] Hlen Hxs Hys Hsum;
    try discriminate; [reflexivity |].
  cbn [add_lists forallb] in Hxs, Hys, Hsum.
  apply andb_true_iff in Hxs as [Hx Hxs]. apply andb_true_iff in Hys as [Hy Hys].
  apply andb_true_iff in Hsum as [Hxy Hsum].
  cbn [map istanbul.add_arrays head tail istanbul.add_counter cbind add_lists].
  rewrite Hx, Hy, Hxy. cbn [andb cbind].
  injection Hlen as Hlen. now rewrite (IH ys Hlen Hxs Hys Hsum).
Qed.

Lemma add_branches_counts (u t done : list (string * list Z)) :
  map fst t = map fst u ->
  map (fun kc => List.length (snd kc)) t = map (fun kc => List.length (snd kc)) u ->
  distinct_keys (branch_entries (done ++ t)) = true ->
  forallb (fun kc => forallb safe_integer (snd kc)) t = true ->
  forallb (fun kc => forallb safe_integer (snd kc)) u = true ->
  forallb (fun kc => forallb safe_integer (snd kc)) (add_branch_counts t u) = true ->
  istanbul.add_branches (branch_entries (done ++ t)) (branch_entries u)
  = Normal (branch_entries (done ++ add_branch_counts t u)).
Proof.
  revert t done.
  induction u as [| [k ys] u IH]; intros [| [k' xs] t] done Hkeys Hlens Hd Ht Hu Hsum;
    try discriminate; [reflexivity |].
  cbn [map fst snd] in Hkeys, Hlens. injection Hkeys as -> Hkeys.
  injection Hlens as Hlen Hlens.
  cbn [add_branch_counts forallb snd] in Ht, Hu, Hsum.
  apply andb_true_iff in Ht as [Hxs Ht]. apply andb_true_iff in Hu as [Hys Hu].
  apply andb_true_iff in Hsum as [Hxys Hsum].
  unfold branch_entries in *. rewrite map_app in *. cbn [map fst snd] in *.
  destruct (distinct_keys_snoc _ _ _ _ Hd) as [Hfresh Hd'].
  cbn [istanbul.add_branches].
  rewrite (obj_get_app_absent k _ _ Hfresh). cbn [obj_get]. rewrite String.eqb_refl.
  rewrite (add_arrays_counts xs ys Hlen Hxs Hys Hxys). cbn [cbind].
  rewrite (obj_set_app_absent k _ _ _ Hfresh). cbn [obj_set]. rewrite String.eqb_refl.
  specialize (IH t (done ++ [(k, add_lists xs ys)]) Hkeys Hlens).
  rewrite !map_app in IH. cbn [map fst snd] in IH. rewrite <- !app_assoc in IH.
  cbn [app] in IH. cbn [add_branch_counts]. rewrite ?map_app. cbn [map fst snd].
  apply IH; [| exact Ht | exact Hu | exact Hsum].
  now rewrite (distinct_keys_update k (JArr (map JNum (add_lists xs ys))) (JArr (map JNum xs))).
Qed.

Lemma obj_set_twice (k : string) (v v0 : value) (o : object) :
  obj_set k v (obj_set k v0 o) = obj_set k v o.
Proof.
  induction o as [| [k' v'] o IH]; cbn [obj_set].
  - now rewrite String.eqb_refl.
  - destruct (String.eqb k k') eqn:E; cbn [obj_set]; rewrite E; [reflexivity |].
    now rewrite IH.
Qed.

Lemma has_key_set (k : string) (v : value) (o : object) : has_key k (obj_set k v o) = true.
Proof.
  induction o as [| [k' v'] o IH]; cbn [obj_set has_key].
  - now rewrite String.eqb_refl.
  - destruct (String.eqb k k') eqn:E; cbn [has_key]; rewrite E; [reflexivity | exact IH].
Qed.

Lemma has_key_set_other (k k' : string) (v : value) (o : object) :
  has_key k o = true -> has_key k (obj_set k' v o) = true.
Proof.
  induction o as [| [k0 v0] o IH]; [discriminate |]. cbn [obj_set has_key].
  destruct (String.eqb k' k0); cbn [has_key]; intros [Hk | Hk]%orb_true_iff;
    rewrite ?Hk, ?orb_true_r; auto.
  rewrite (IH Hk). apply orb_true_r.
Qed.

Lemma obj_set_swap (k1 k2 : string) (v w : value) (o : object) :
  has_key k1 o = true -> k1 <> k2 ->
  obj_set k1 v (obj_set k2 w o) = obj_set k2 w (obj_set k1 v o).
Proof.
  intros Hk Hne. induction o as [| [k0 v0] o IH]; [discriminate |].
  cbn [has_key] in Hk. cbn [obj_set].
  destruct (String.eqb k2 k0) eqn:E2; destruct (String.eqb k1 k0) eqn:E1;
    cbn [obj_set]; rewrite ?E1, ?E2; try reflexivity.
  - apply String.eqb_eq in E1, E2. congruence.
  - cbn [orb] in Hk. now rewrite (IH Hk).
Qed.

Lemma with_hits_table (props : object) (h : Hits) :
  obj_get "s" (Object_entries (with_hits props h)) = Some (JObj (hit_entries (hits_s h)))
  /\ obj_get "f" (Object_entries (with_hits props h)) = Some (JObj (hit_entries (hits_f h)))
  /\ obj_get "b" (Object_entries (with_hits props h)) = Some (JObj (branch_entries (hits_b h)))
  /\ obj_get "all" (Object_entries (with_hits props h)) = obj_get "all" props.
Proof.
  unfold with_hits. cbn [Object_entries]. repeat split.
  - rewrite !obj_get_set_ne by discriminate. apply obj_get_set_eq.
  - rewrite obj_get_set_ne by discriminate. apply obj_get_set_eq.
  - apply obj_get_set_eq.
  - now rewrite !obj_get_set_ne by discriminate.
Qed.

Lemma with_hits_update (props : object) (h : Hits) (s' f' b' : value) :
  obj_set "b" b' (obj_set "f" f' (obj_set "s" s'
    (obj_set "b" (JObj (branch_entries (hits_b h)))
       (obj_set "f" (JObj (hit_entries (hits_f h)))
          (obj_set "s" (JObj (hit_entries (hits_s h))) props)))))
  = obj_set "b" b' (obj_set "f" f' (obj_set "s" s' props)).
Proof.
  rewrite (obj_set_swap "s" "b" s') by
    (discriminate || (apply has_key_set_other, has_key_set)).
  rewrite (obj_set_swap "s" "f" s') by (discriminate || apply has_key_set).
  rewrite (obj_set_twice "s").
  rewrite (obj_set_swap "f" "b" f') by (discriminate || apply has_key_set).
  rewrite (obj_set_twice "f"). apply obj_set_twice.
Qed.

(** [FileCoverage.merge] on two coverage objects of the same shape adds the
    hit counts of [other] to those of [this], counter by counter, and keeps
    the other properties of [this]; the counts and their sums are safe
    integers. *)
Lemma mergeFile_adds_hits (props props' : object) (h h' : Hits) :
  istanbul.is_true (obj_get "all" props) = false ->
  istanbul.is_true (obj_get "all" props') = false ->
  same_shape h h' ->
  hits_ok h = true ->
  hits_safe h = true -> hits_safe h' = true -> hits_safe (add_hits h h') = true ->
  istanbul.mergeFile (with_hits props h) (with_hits props' h')
  = Normal (with_hits props (add_hits h h')).
Proof.
  intros Hall Hall' (Hs & Hf & Hb & Hlen) Hok Hsafe Hsafe' Hsum.
  apply andb_true_iff in Hok as [[Hds Hdf]%andb_true_iff Hdb].
  apply andb_true_iff in Hsafe as [[Hss Hsf]%andb_true_iff Hsb].
  apply andb_true_iff in Hsafe' as [[Hss' Hsf']%andb_true_iff Hsb'].
  apply andb_true_iff in Hsum as [[Hsums Hsumf]%andb_true_iff Hsumb].
  destruct (with_hits_table props h) as (Hts & Htf & Htb & Hta).
  destruct (with_hits_table props' h') as (Hts' & Htf' & Htb' & Hta').
  unfold istanbul.mergeFile, istanbul.entries_of, istanbul.table_of.
  rewrite Hta, Hta', Hall, Hall', Hts, Htf, Htb, Hts', Htf', Htb'.
  unfold with_hits at 1. cbn [cbind Object_entries].
  pose proof (add_table_counts (hits_s h') (hits_s h) [] Hs Hds Hss Hss' Hsums) as Hadds.
  pose proof (add_table_counts (hits_f h') (hits_f h) [] Hf Hdf Hsf Hsf' Hsumf) as Haddf.
  pose proof (add_branches_counts (hits_b h') (hits_b h) [] Hb Hlen Hdb Hsb Hsb' Hsumb)
    as Haddb.
  cbn [app] in Hadds, Haddf, Haddb. rewrite Hadds. cbn [cbind].
  rewrite Haddf. cbn [cbind]. rewrite Haddb. cbn [cbind].
  rewrite with_hits_update. reflexivity.
Qed.









Lemma add_counts_keys (t u : list (string * Z)) :
  map fst t = map fst u -> map fst (add_counts t u) = map fst t.
Proof.
  revert u. induction t as [| [k x] t IH]; intros [| [k' y] u] Hkeys; try discriminate;
    [reflexivity |].
  cbn [map fst] in Hkeys. injection Hkeys as -> Hkeys.
  cbn [add_counts map fst]. now rewrite (IH u Hkeys).
Qed.

Lemma add_lists_length (xs ys : list Z) :
  List.length xs = List.length ys -> List.length (add_lists xs ys) = List.length xs.
Proof.
  revert ys. induction xs as [| x xs IH]; intros [| y ys] Hlen; try discriminate;
    [reflexivity |].
  cbn [add_lists List.length]. injection Hlen as Hlen. now rewrite (IH ys Hlen).
Qed.

Lemma add_branch_counts_keys (t u : list (string * list Z)) :
  map fst t = map fst u ->
  map (fun kc => List.length (snd kc)) t = map (fun kc => List.length (snd kc)) u ->
  map fst (add_branch_counts t u) = map fst t
  /\ map (fun kc => List.length (snd kc)) (add_branch_counts t u)
     = map (fun kc => List.length (snd kc)) t.
Proof.
  revert u. induction t as [| [k x] t IH]; intros [| [k' y] u] Hkeys Hlens;
    try discriminate; [auto |].
  cbn [map fst snd] in Hkeys, Hlens. injection Hkeys as -> Hkeys.
  injection Hlens as Hlen Hlens. destruct (IH u Hkeys Hlens) as [IHk IHl].
  cbn [add_branch_counts map fst snd]. now rewrite IHk, IHl, (add_lists_length x y Hlen).
Qed.

Lemma add_hits_shape (h h' : Hits) : same_shape h h' -> same_shape (add_hits h h') h.
Proof.
  intros (Hs & Hf & Hb & Hlen). unfold same_shape, add_hits. cbn [hits_s hits_f hits_b].
  destruct (add_branch_counts_keys _ _ Hb Hlen) as [Hk Hl].
  now rewrite (add_counts_keys _ _ Hs), (add_counts_keys _ _ Hf), Hk, Hl.
Qed.

Lemma distinct_keys_by_fst (o o' : object) :
  map fst o = map fst o' -> distinct_keys o = distinct_keys o'.
Proof.
  assert (Hhas : forall k (a b : object), map fst a = map fst b -> has_key k a = has_key k b).
  { intros k a. induction a as [| [ka va] a IH]; intros [| [kb vb] b] Hab; try discriminate;
      [reflexivity |].
    cbn [map fst] in Hab. injection Hab as -> Hab. cbn [has_key]. now rewrite (IH b Hab). }
  revert o'. induction o as [| [k v] o IH]; intros [| [k' v'] o'] Hkeys; try discriminate;
    [reflexivity |].
  cbn [map fst] in Hkeys. injection Hkeys as -> Hkeys.
  cbn [distinct_keys]. now rewrite (IH o' Hkeys), (Hhas k' o o' Hkeys).
Qed.

Lemma add_hits_ok (h h' : Hits) :
  same_shape h h' -> hits_ok h = true -> hits_ok (add_hits h h') = true.
Proof.
  intros Hshape Hok. destruct (add_hits_shape h h' Hshape) as (Hs & Hf & Hb & _).
  unfold hits_ok in *.
  rewrite (distinct_keys_by_fst (hit_entries (hits_s (add_hits h h'))) (hit_entries (hits_s h))),
    (distinct_keys_by_fst (hit_entries (hits_f (add_hits h h'))) (hit_entries (hits_f h))),
    (distinct_keys_by_fst (branch_entries (hits_b (add_hits h h')))
       (branch_entries (hits_b h)));
    [exact Hok | | |]; unfold hit_entries, branch_entries; rewrite !map_map; cbn [fst];
    assumption.
Qed.

Lemma add_counts_self (t : list (string * Z)) :
  add_counts t t = map (fun kc => (fst kc, 2 * snd kc)) t.
Proof.
  induction t as [| [k x] t IH]; [reflexivity |].
  cbn [add_counts map fst snd]. rewrite IH. f_equal. f_equal. lia.
Qed.

Lemma add_lists_self (xs : list Z) : add_lists xs xs = map (Z.mul 2) xs.
Proof.
  induction xs as [| x xs IH]; [reflexivity |].
  cbn [add_lists map]. rewrite IH. f_equal. lia.
Qed.

Lemma add_branch_counts_self (t : list (string * list Z)) :
  add_branch_counts t t = map (fun kc => (fst kc, map (Z.mul 2) (snd kc))) t.
Proof.
  induction t as [| [k xs] t IH]; [reflexivity |].
  cbn [add_branch_counts map fst snd]. now rewrite IH, add_lists_self.
Qed.

(** Adding hit counts to themselves doubles them. *)
Lemma add_hits_self (h : Hits) : add_hits h h = double_hits h.
Proof.
  unfold add_hits, double_hits.
  now rewrite !add_counts_self, add_branch_counts_self.
Qed.

Lemma same_shape_refl (h : Hits) : same_shape h h.
Proof. repeat split. Qed.

(** ** Coverage objects and their hit tables *)


Lemma same_shape_trans (h1 h2 h3 : Hits) :
  same_shape h1 h2 -> same_shape h2 h3 -> same_shape h1 h3.
Proof. intros (Hs & Hf & Hb & Hl) (Hs' & Hf' & Hb' & Hl'). repeat split; congruence. Qed.

Lemma well_formed_hit_entries (t : list (string * Z)) :
  well_formed (JObj (hit_entries t))
  = distinct_keys (hit_entries t) && forallb (fun kc => safe_integer (snd kc)) t.
Proof.
  cbn [well_formed]. f_equal.
  induction t as [| [k x] t IH]; [reflexivity |].
  cbn [hit_entries map forallb fst snd well_formed]. now rewrite <- IH.
Qed.

Lemma well_formed_counters (xs : list Z) :
  forallb well_formed (map JNum xs) = forallb safe_integer xs.
Proof. induction xs as [| x xs IH]; [reflexivity |]. cbn. now rewrite IH. Qed.

Lemma well_formed_branch_entries (t : list (string * list Z)) :
  well_formed (JObj (branch_entries t))
  = distinct_keys (branch_entries t)
    && forallb (fun kc => forallb safe_integer (snd kc)) t.
Proof.
  cbn [well_formed]. f_equal.
  induction t as [| [k xs] t IH]; [reflexivity |].
  cbn [branch_entries map forallb fst snd well_formed].
  now rewrite well_formed_counters, <- IH.
Qed.

Lemma nan_free_hit_entries (t : list (string * Z)) : nan_free (JObj (hit_entries t)) = true.
Proof.
  cbn [nan_free]. induction t as [| [k x] t IH]; [reflexivity |]. cbn. exact IH.
Qed.

Lemma nan_free_branch_entries (t : list (string * list Z)) :
  nan_free (JObj (branch_entries t)) = true.
Proof.
  cbn [nan_free]. induction t as [| [k xs] t IH]; [reflexivity |].
  cbn [branch_entries map forallb fst snd nan_free].
  replace (forallb nan_free (map JNum xs)) with true; [exact IH |].
  clear. induction xs as [| x xs IH]; [reflexivity |]. exact IH.
Qed.

Lemma nan_free_set (k : string) (v : value) (o : object) :
  nan_free (JObj o) = true -> nan_free v = true -> nan_free (JObj (obj_set k v o)) = true.
Proof.
  cbn [nan_free]. intros Ho Hv. induction o as [| [k0 v0] o IH]; cbn [obj_set forallb].
  - now rewrite Hv.
  - cbn [forallb] in Ho. apply andb_true_iff in Ho as [H0 Ho].
    destruct (String.eqb k k0); cbn [forallb]; rewrite ?Hv, ?H0, ?Ho, ?(IH Ho); reflexivity.
Qed.

Lemma hits_ok_tables (h : Hits) :
  hits_ok h = true ->
  hits_safe h = true ->
  well_formed (JObj (hit_entries (hits_s h))) = true
  /\ well_formed (JObj (hit_entries (hits_f h))) = true
  /\ well_formed (JObj (branch_entries (hits_b h))) = true.
Proof.
  unfold hits_ok, hits_safe.
  intros [[Hs Hf]%andb_true_iff Hb]%andb_true_iff
         [[Hs' Hf']%andb_true_iff Hb']%andb_true_iff.
  rewrite !well_formed_hit_entries, well_formed_branch_entries.
  now rewrite Hs, Hf, Hb, Hs', Hf', Hb'.
Qed.

(** The hit tables of a coverage object that is a value of JavaScript:
    each key once, every counter a safe integer. *)
Lemma well_formed_hits_ok (props : object) (h : Hits) :
  well_formed (with_hits props h) = true -> hits_ok h = true /\ hits_safe h = true.
Proof.
  intros Hwf. destruct (with_hits_table props h) as (Hs & Hf & Hb & _).
  unfold with_hits in *. cbn [Object_entries] in *.
  pose proof (well_formed_In _ _ Hwf (obj_get_Some_In _ _ _ Hs)) as Ws.
  pose proof (well_formed_In _ _ Hwf (obj_get_Some_In _ _ _ Hf)) as Wf.
  pose proof (well_formed_In _ _ Hwf (obj_get_Some_In _ _ _ Hb)) as Wb.
  rewrite well_formed_hit_entries in Ws, Wf. rewrite well_formed_branch_entries in Wb.
  apply andb_true_iff in Ws as [Ds Ss]. apply andb_true_iff in Wf as [Df Sf].
  apply andb_true_iff in Wb as [Db Sb].
  unfold hits_ok, hits_safe. now rewrite Ds, Df, Db, Ss, Sf, Sb.
Qed.

Lemma with_hits_again (props : object) (h h' : Hits) :
  with_hits props h'
  = JObj (obj_set "b" (JObj (branch_entries (hits_b h')))
            (obj_set "f" (JObj (hit_entries (hits_f h')))
               (obj_set "s" (JObj (hit_entries (hits_s h')))
                  (Object_entries (with_hits props h))))).
Proof. unfold with_hits. cbn [Object_entries]. now rewrite with_hits_update. Qed.

Lemma validObject_with_hits (props : object) (h h' : Hits) :
  istanbul.validObject (with_hits props h) = istanbul.validObject (with_hits props h').
Proof.
  unfold istanbul.validObject, with_hits. cbn [truthy forallb Object_entries andb].
  rewrite !obj_get_set_eq.
  rewrite !(obj_get_set_ne "b" "f"), !(obj_get_set_ne "b" "s") by discriminate.
  rewrite !obj_get_set_eq.
  rewrite !(obj_get_set_ne "f" "s") by discriminate. rewrite !obj_get_set_eq.
  rewrite !(obj_get_set_ne "b" "path"), !(obj_get_set_ne "f" "path"),
    !(obj_get_set_ne "s" "path") by discriminate.
  rewrite !(obj_get_set_ne "b" "statementMap"), !(obj_get_set_ne "f" "statementMap"),
    !(obj_get_set_ne "s" "statementMap") by discriminate.
  rewrite !(obj_get_set_ne "b" "fnMap"), !(obj_get_set_ne "f" "fnMap"),
    !(obj_get_set_ne "s" "fnMap") by discriminate.
  rewrite !(obj_get_set_ne "b" "branchMap"), !(obj_get_set_ne "f" "branchMap"),
    !(obj_get_set_ne "s" "branchMap") by discriminate.
  reflexivity.
Qed.

(** A coverage object stays an entry of a coverage map when its hit tables
    are replaced by others without repeated keys, of safe integers. *)
Lemma file_entry_with_hits (p : string) (props : object) (h h' : Hits) :
  file_entry (p, with_hits props h) = true ->
  hits_ok h' = true ->
  hits_safe h' = true ->
  file_entry (p, with_hits props h') = true.
Proof.
  intros Hentry Hok Hsafe. destruct (hits_ok_tables h' Hok Hsafe) as (Hs & Hf & Hb).
  assert (Hpath : forall g, obj_get "path" (Object_entries (with_hits props g))
                            = obj_get "path" props).
  { intros g. unfold with_hits. cbn [Object_entries].
    now rewrite !obj_get_set_ne by discriminate. }
  pose proof (Hpath h) as Hp. pose proof (Hpath h') as Hp'.
  pose proof (validObject_with_hits props h h') as Hvalid.
  pose proof (with_hits_again props h h') as Hagain.
  unfold file_entry in *.
  destruct (with_hits props h) as [| | | | | | o] eqn:Eh; try discriminate.
  destruct (with_hits props h') as [| | | | | | o'] eqn:Eh'; try discriminate.
  cbn [Object_entries] in *.
  apply andb_true_iff in Hentry as [[[Hkey Hv]%andb_true_iff Hwf]%andb_true_iff Hfree].
  rewrite Hp', <- Hp, Hkey, <- Hvalid, Hv. cbn [andb].
  injection Hagain as ->. apply andb_true_iff. split.
  - repeat apply well_formed_set; assumption.
  - repeat apply nan_free_set; try assumption;
      apply nan_free_hit_entries || apply nan_free_branch_entries.
Qed.

(** ** Paths *)

Lemma split_slash_cons (s : string) : exists seg segs, path.split_slash s = seg :: segs.
Proof.
  induction s as [| c r IH]; cbn; [eauto |].
  destruct (c =? "/")%char; [eauto |].
  destruct IH as (seg & segs & ->). eauto.
Qed.

(** Splitting at the slashes goes through a slash. *)
Lemma split_slash_app (a b : string) :
  path.split_slash (a +:+ String "/" b) = path.split_slash a ++ path.split_slash b.
Proof.
  induction a as [| c r IH]; [reflexivity |].
  change (String c r +:+ String "/" b) with (String c (r +:+ String "/" b)).
  cbn [path.split_slash]. rewrite IH.
  destruct (c =? "/")%char; [reflexivity |].
  destruct (split_slash_cons r) as (seg & segs & ->). reflexivity.
Qed.

Lemma split_slash_plain (s : string) : no_slash s = true -> path.split_slash s = [s].
Proof.
  induction s as [| c r IH]; cbn; [reflexivity |].
  intros [Hc Hr]%andb_prop. destruct (c =? "/")%char; [discriminate |].
  now rewrite (IH Hr).
Qed.

(** Splitting undoes joining, for segments without slash. *)
Lemma split_slash_join (seg : string) (segs : list string) :
  forallb no_slash (seg :: segs) = true ->
  path.split_slash (path.join_slash (seg :: segs)) = seg :: segs.
Proof.
  revert seg. induction segs as [| s segs IH]; intros seg H.
  - cbn in *. apply split_slash_plain. now destruct (no_slash seg).
  - cbn [forallb] in H. apply andb_prop in H as [Hseg H].
    change (path.join_slash (seg :: s :: segs))
      with (seg +:+ String "/" (path.join_slash (s :: segs))).
    rewrite split_slash_app, (split_slash_plain _ Hseg), (IH s H). reflexivity.
Qed.

Lemma plain_no_slash (segs : list string) :
  forallb plain_segment segs = true -> forallb no_slash segs = true.
Proof.
  induction segs as [| s segs IH]; cbn; [reflexivity |].
  intros [Hs H]%andb_prop. rewrite (IH H), andb_true_r.
  unfold plain_segment in Hs. now apply andb_prop in Hs as [_ ->].
Qed.

Lemma normalize_step_plain (above : bool) (kept : list string) (seg : string) :
  plain_segment seg = true -> path.normalize_step above kept seg = seg :: kept.
Proof.
  unfold plain_segment, path.normalize_step. intros H.
  apply andb_prop in H as [H _]. apply andb_prop in H as [H H2].
  apply andb_prop in H as [H0 H1].
  apply negb_true_iff in H0, H1, H2. now rewrite H0, H1, H2.
Qed.

Lemma fold_normalize_plain (above : bool) (segs kept : list string) :
  forallb plain_segment segs = true ->
  fold_left (path.normalize_step above) segs kept = rev segs ++ kept.
Proof.
  revert kept. induction segs as [| s segs IH]; intros kept H; [reflexivity |].
  cbn [forallb] in H. apply andb_prop in H as [Hs H].
  cbn [fold_left rev]. rewrite (normalize_step_plain _ _ _ Hs), (IH _ H).
  now rewrite <- app_assoc.
Qed.

Lemma split_slash_root (segs : list string) :
  path.split_slash (path_of segs) = EmptyString :: path.split_slash (path.join_slash segs).
Proof. reflexivity. Qed.

Lemma split_slash_path_of (segs : list string) :
  forallb plain_segment segs = true ->
  exists blanks,
    path.split_slash (path_of segs) = blanks ++ segs
    /\ forallb (fun s => String.eqb s EmptyString) blanks = true.
Proof.
  intros H. rewrite split_slash_root.
  destruct segs as [| seg segs].
  - exists [EmptyString; EmptyString]. split; reflexivity.
  - exists [EmptyString]. split; [| reflexivity].
    rewrite split_slash_join by now apply plain_no_slash. reflexivity.
Qed.

Lemma fold_normalize_blanks (above : bool) (blanks kept : list string) :
  forallb (fun s => String.eqb s EmptyString) blanks = true ->
  fold_left (path.normalize_step above) blanks kept = kept.
Proof.
  revert kept. induction blanks as [| s blanks IH]; intros kept H; [reflexivity |].
  cbn [forallb] in H. apply andb_prop in H as [Hs H].
  cbn [fold_left]. unfold path.normalize_step at 2. rewrite Hs. cbn. now apply IH.
Qed.

Lemma ends_with_slash_app (a b : string) :
  b <> EmptyString -> path.ends_with_slash (a +:+ b) = path.ends_with_slash b.
Proof.
  intros Hb. induction a as [| c r IH]; [reflexivity |].
  change (String c r +:+ b) with (String c (r +:+ b)).
  destruct (r +:+ b) eqn:E.
  - destruct r; cbn in E; [contradiction | discriminate].
  - rewrite <- IH. reflexivity.
Qed.

Lemma ends_with_slash_plain (s : string) : no_slash s = true -> path.ends_with_slash s = false.
Proof.
  induction s as [| c r IH]; [reflexivity |].
  cbn [no_slash]. intros [Hc Hr]%andb_prop. cbn [path.ends_with_slash].
  destruct r; [now apply negb_true_iff in Hc | now apply IH].
Qed.

Lemma join_slash_snoc_nonempty (segs : list string) (b : string) :
  b <> EmptyString -> path.join_slash (segs ++ [b]) <> EmptyString.
Proof.
  intros Hb. destruct segs as [| s segs]; [exact Hb |].
  cbn [app]. destruct (segs ++ [b]) eqn:E.
  - now destruct segs.
  - cbn [path.join_slash]. destruct s; cbn; discriminate.
Qed.

Lemma string_eqb_false (a b : string) : a <> b -> String.eqb a b = false.
Proof. intros Hab. now apply String.eqb_neq. Qed.

(** [path.join] of a normalized absolute path and a name appends the
    name. *)
Lemma join_path_of (segs : list string) (b : string) :
  forallb plain_segment segs = true ->
  plain_segment b = true ->
  path.join (path_of segs) b = path_of (segs ++ [b]).
Proof.
  intros Hsegs Hb.
  assert (Hne : b <> EmptyString) by (intros ->; discriminate).
  assert (Hns : no_slash b = true)
    by (unfold plain_segment in Hb; now apply andb_prop in Hb as [_ ->]).
  unfold path.join.
  rewrite (string_eqb_false (path_of segs) EmptyString) by discriminate.
  rewrite (string_eqb_false b EmptyString Hne).
  unfold path.normalize.
  rewrite (string_eqb_false (path_of segs +:+ "/" +:+ b) EmptyString) by discriminate.
  change (path.isAbsolute (path_of segs +:+ "/" +:+ b)) with true. cbn [negb].
  assert (Hq : path.normalizeString (path_of segs +:+ "/" +:+ b) false
               = path.join_slash (segs ++ [b])).
  { unfold path.normalizeString.
    change (path_of segs +:+ "/" +:+ b) with (path_of segs +:+ String "/" b).
    rewrite split_slash_app.
    destruct (split_slash_path_of segs Hsegs) as (blanks & -> & Hblanks).
    rewrite (split_slash_plain b Hns), !fold_left_app.
    rewrite (fold_normalize_blanks _ _ _ Hblanks), (fold_normalize_plain _ _ _ Hsegs).
    cbn [fold_left]. rewrite (normalize_step_plain _ _ _ Hb), app_nil_r.
    cbn [rev]. now rewrite rev_involutive. }
  rewrite Hq.
  rewrite (string_eqb_false _ EmptyString (join_slash_snoc_nonempty segs b Hne)).
  assert (Hend : path.ends_with_slash (path_of segs +:+ "/" +:+ b) = false).
  { replace (path_of segs +:+ "/" +:+ b) with ((path_of segs +:+ "/") +:+ b).
    - rewrite ends_with_slash_app by exact Hne. now apply ends_with_slash_plain.
    - generalize (path_of segs). intros s.
      induction s as [| c s IH]; [reflexivity |].
      change (String c s +:+ "/" +:+ b) with (String c (s +:+ "/" +:+ b)).
      rewrite <- IH. reflexivity. }
  rewrite Hend. reflexivity.
Qed.

(** Different segments make different paths. *)
Lemma path_of_inj (segs segs' : list string) :
  forallb plain_segment segs = true ->
  forallb plain_segment segs' = true ->
  segs <> [] -> segs' <> [] ->
  path_of segs = path_of segs' -> segs = segs'.
Proof.
  intros H H' Hn Hn' E. apply (f_equal path.split_slash) in E.
  rewrite !split_slash_root in E.
  destruct segs as [| s segs]; [contradiction |].
  destruct segs' as [| s' segs']; [contradiction |].
  rewrite !split_slash_join in E by now apply plain_no_slash.
  congruence.
Qed.


(** ** The file system *)

Lemma split_slash_plain_path (seg : string) (segs : list string) :
  forallb plain_segment (seg :: segs) = true ->
  path.split_slash (path_of (seg :: segs)) = EmptyString :: seg :: segs.
Proof.
  intros Hsegs. rewrite split_slash_root.
  now rewrite split_slash_join by now apply plain_no_slash.
Qed.

(** The entry of a normalized absolute path lies in the directory of the
    segments before the last. *)
Lemma parent_path_of (segs : list string) (b : string) :
  forallb plain_segment segs = true ->
  plain_segment b = true ->
  parent (path_of (segs ++ [b])) = path_of segs.
Proof.
  intros Hsegs Hb. unfold parent.
  assert (Hall : forallb plain_segment (segs ++ [b]) = true)
    by (rewrite forallb_app, Hsegs; cbn; now rewrite Hb).
  destruct (segs ++ [b]) as [| seg rest] eqn:E; [now destruct segs |].
  rewrite (split_slash_plain_path seg rest Hall), <- E.
  change (EmptyString :: segs ++ [b]) with ((EmptyString :: segs) ++ [b]).
  rewrite rev_unit. destruct (rev (EmptyString :: segs)) as [| x above] eqn:Er.
  - apply (f_equal (@List.length string)) in Er. rewrite length_rev in Er. discriminate.
  - rewrite <- Er, rev_involutive. destruct segs as [| s segs']; [reflexivity |].
    change (path.join_slash (EmptyString :: s :: segs'))
      with (path_of (s :: segs')).
    reflexivity.
Qed.

Lemma normalized_absolute_path (p : string) :
  normalized_absolute p = true ->
  exists segs, forallb plain_segment segs = true /\ p = path_of segs.
Proof.
  unfold normalized_absolute. intros [Hp Hsegs]%andb_true_iff.
  exists (absolute_segments p). split; [exact Hsegs | now apply String.eqb_eq].
Qed.

Lemma make_fs_disk (d : Disk) (otherwise : FS) :
  consistent d = true -> disk (make_fs d otherwise) = d.
Proof. intros Hd. unfold make_fs. destruct (decide _); [reflexivity | contradiction]. Qed.

(** In a file system no directory is a regular file. *)
Lemma directory_no_file (fs0 : FS) (p : string) :
  p ∈ dirs fs0 -> files fs0 !! p = None.
Proof.
  intros Hp. pose proof (disk_consistent fs0) as Hc. unfold consistent in Hc.
  apply bool_decide_eq_true in Hc as [Hdirs _]. exact (Hdirs p Hp).
Qed.

(** In a file system every entry lies in a directory. *)
Lemma entry_in_directory (fs0 : FS) (p : string) :
  is_Some (files fs0 !! p) \/ p ∈ dirs fs0 ->
  parent p ∈ dirs fs0 \/ parent p = p.
Proof.
  intros Hp. pose proof (disk_consistent fs0) as Hc. unfold consistent in Hc.
  apply bool_decide_eq_true in Hc as [_ Hall]. apply (Hall p).
  apply elem_of_union. destruct Hp as [Hp | Hp]; [left | now right].
  now apply elem_of_dom.
Qed.

Lemma consistent_write (fs0 : FS) (p text : string) :
  p ∉ dirs fs0 -> parent p ∈ dirs fs0 ->
  consistent (mkDisk (<[p := text]> (files fs0)) (dirs fs0)) = true.
Proof.
  intros Hp Hparent. apply bool_decide_eq_true. cbn [disk_files disk_dirs]. split.
  - intros q Hq. rewrite lookup_insert_ne by (intros ->; contradiction).
    now apply directory_no_file.
  - intros q Hq. apply elem_of_union in Hq as [Hq | Hq].
    + apply elem_of_dom in Hq. destruct (decide (p = q)) as [<- | Hne]; [now left |].
      rewrite lookup_insert_ne in Hq by exact Hne.
      apply (entry_in_directory fs0). now left.
    + apply (entry_in_directory fs0). now right.
Qed.

Lemma consistent_mkdir (fs0 : FS) (p : string) :
  files fs0 !! p = None -> parent p ∈ dirs fs0 ->
  consistent (mkDisk (files fs0) ({[p]} ∪ dirs fs0)) = true.
Proof.
  intros Hp Hparent. apply bool_decide_eq_true. cbn [disk_files disk_dirs]. split.
  - intros q Hq. apply elem_of_union in Hq as [Hq | Hq].
    + apply elem_of_singleton in Hq. now subst q.
    + now apply directory_no_file.
  - intros q Hq.
    assert (Hin : parent q ∈ dirs fs0 \/ parent q = q).
    { apply elem_of_union in Hq as [Hq | Hq].
      - apply (entry_in_directory fs0). left. now apply elem_of_dom.
      - apply elem_of_union in Hq as [Hq | Hq].
        + apply elem_of_singleton in Hq. subst q. now left.
        + apply (entry_in_directory fs0). now right. }
    destruct Hin as [Hin | Hin]; [left | now right]. apply elem_of_union. now right.
Qed.

(** [writeFileSync] where it completes. *)
Lemma writeFileSync_written (p text : string) (fs0 : FS) :
  isDirectory p fs0 = false ->
  isDirectory (parent p) fs0 = true ->
  exists fs1,
    writeFileSync p text fs0 = Normal fs1
    /\ files fs1 = <[p := text]> (files fs0)
    /\ dirs fs1 = dirs fs0.
Proof.
  intros Hp Hparent. unfold writeFileSync. rewrite Hp, Hparent.
  eexists. split; [reflexivity |]. unfold files, dirs.
  rewrite make_fs_disk; [split; reflexivity |].
  apply consistent_write.
  - now apply bool_decide_eq_false in Hp.
  - now apply bool_decide_eq_true in Hparent.
Qed.

(** [mkdirSync] where it completes. *)
Lemma mkdirSync_made (p : string) (fs0 : FS) :
  existsSync p fs0 = false ->
  isDirectory (parent p) fs0 = true ->
  exists fs1,
    mkdirSync p fs0 = Normal fs1
    /\ files fs1 = files fs0
    /\ dirs fs1 = {[p]} ∪ dirs fs0.
Proof.
  intros Hp Hparent. unfold mkdirSync. rewrite Hp, Hparent.
  eexists. split; [reflexivity |]. unfold files, dirs.
  rewrite make_fs_disk; [split; reflexivity |].
  apply consistent_mkdir.
  - unfold existsSync in Hp. apply orb_false_iff in Hp as [Hp _].
    apply bool_decide_eq_false in Hp. destruct (files fs0 !! p) eqn:E; [| reflexivity].
    exfalso. apply Hp. rewrite <- E. unfold files. eauto.
  - now apply bool_decide_eq_true in Hparent.
Qed.

(** Two file systems with the same files and the same directories are one
    file system. *)
Lemma FS_eq (fs1 fs2 : FS) :
  files fs1 = files fs2 -> dirs fs1 = dirs fs2 -> fs1 = fs2.
Proof.
  destruct fs1 as [[f1 d1] c1], fs2 as [[f2 d2] c2]. unfold files, dirs. cbn.
  intros -> ->. f_equal. apply proof_irrel.
Qed.

(** ** The tasks *)

Section TaskFacts.

Context `{Host}.

Ltac run :=
  cbv [bind ret lift throw emit debug console_warn get_fs modify_fs update_fs settle];
  cbn [fs events fst snd].

(** The coverage file lies in the coverage folder, and the coverage folder
    in the working directory. *)
Lemma module_paths :
  parent nycFilename = coverageFolder
  /\ parent coverageFolder = processWorkingDirectory
  /\ nycFilename <> coverageFolder.
Proof.
  destruct (normalized_absolute_path cwd cwd_absolute) as (segs & Hsegs & Hcwd).
  assert (Hfolder : coverageFolder = path_of (segs ++ [".nyc_output"])).
  { unfold coverageFolder, processWorkingDirectory, outputFolder.
    rewrite Hcwd. now apply join_path_of. }
  assert (Hfolder_plain : forallb plain_segment (segs ++ [".nyc_output"]) = true).
  { rewrite forallb_app, Hsegs. reflexivity. }
  assert (Hfile : nycFilename = path_of ((segs ++ [".nyc_output"]) ++ ["out.json"])).
  { unfold nycFilename. rewrite Hfolder. now apply join_path_of. }
  split; [| split].
  - rewrite Hfile, Hfolder. now apply parent_path_of.
  - rewrite Hfolder. unfold processWorkingDirectory. rewrite Hcwd. now apply parent_path_of.
  - rewrite Hfile, Hfolder. intros E.
    apply path_of_inj in E; try (rewrite ?forallb_app, Hsegs; reflexivity);
      try (now destruct segs).
    apply (f_equal (@List.length string)) in E. rewrite !length_app in E. cbn in E. lia.
Qed.

(** Where the coverage file is a directory, the coverage folder is one. *)
Lemma coverage_file_directory (fs0 : FS) :
  isDirectory nycFilename fs0 = true -> isDirectory coverageFolder fs0 = true.
Proof.
  destruct module_paths as (Hfile & _ & Hne). unfold isDirectory.
  intros Hdir%bool_decide_eq_true. apply bool_decide_eq_true.
  destruct (entry_in_directory fs0 nycFilename (or_intror Hdir)) as [Hin | Heq].
  - now rewrite <- Hfile.
  - rewrite Hfile in Heq. now destruct Hne.
Qed.

Lemma isDirectory_existsSync (p : string) (fs0 : FS) :
  isDirectory p fs0 = true -> existsSync p fs0 = true.
Proof. unfold isDirectory, existsSync. intros ->. apply orb_true_r. Qed.

(** A store that holds a coverage file can be written. *)
Lemma stored_writable (fs0 : FS) (text : string) :
  files fs0 !! nycFilename = Some text -> store_writable fs0 = true.
Proof.
  intros Hfile. destruct module_paths as (Hparent & _ & Hne).
  unfold store_writable, isDirectory. apply andb_true_iff. split.
  - apply negb_true_iff, bool_decide_eq_false. intros Hdir.
    apply directory_no_file in Hdir. congruence.
  - apply orb_true_iff. left. apply bool_decide_eq_true.
    destruct (entry_in_directory fs0 nycFilename) as [Hin | Heq].
    + left. rewrite Hfile. eauto.
    + now rewrite <- Hparent.
    + rewrite Hparent in Heq. now destruct Hne.
Qed.

(** [saveCoverage] into a store that can be written: it completes, writes
    the serialized map to the coverage file, and creates the folder, and
    logs the creation, exactly when the folder is missing. *)
Lemma saveCoverage_writable (coverage : value) (w : World) :
  store_writable (fs w) = true ->
  exists fs1,
    saveCoverage coverage w =
      (Normal tt,
       mkWorld fs1
         (events w ++
            (if existsSync coverageFolder (fs w) then []
             else [EDebug "created folder %s for output coverage" [str coverageFolder]])))
    /\ files fs1 = <[nycFilename := JSON.stringify coverage]> (files (fs w))
    /\ dirs fs1 = (if existsSync coverageFolder (fs w) then dirs (fs w)
                   else {[coverageFolder]} ∪ dirs (fs w))
    /\ store_writable fs1 = true.
Proof.
  intros Hw. destruct module_paths as (Hfile & Hfolder & Hne).
  unfold store_writable in Hw. apply andb_true_iff in Hw as [Hnd Hw].
  apply negb_true_iff in Hnd.
  unfold saveCoverage. run.
  destruct (existsSync coverageFolder (fs w)) eqn:Hex; cbn [negb].
  - rewrite andb_false_l, orb_false_r in Hw.
    destruct (writeFileSync_written nycFilename (JSON.stringify coverage) (fs w) Hnd)
      as (fs1 & -> & Hfiles & Hdirs); [now rewrite Hfile |].
    exists fs1. rewrite app_nil_r. repeat split; try assumption.
    apply (stored_writable fs1 (JSON.stringify coverage)).
    rewrite Hfiles. apply lookup_insert_eq.
  - assert (Hnf : isDirectory coverageFolder (fs w) = false).
    { destruct (isDirectory coverageFolder (fs w)) eqn:E; [| reflexivity].
      apply isDirectory_existsSync in E. congruence. }
    rewrite Hnf in Hw. cbn [negb andb orb] in Hw.
    destruct (mkdirSync_made coverageFolder (fs w) Hex) as (fs1 & -> & Hfiles1 & Hdirs1);
      [now rewrite Hfolder |].
    cbn [fs events].
    destruct (writeFileSync_written nycFilename (JSON.stringify coverage) fs1)
      as (fs2 & -> & Hfiles2 & Hdirs2).
    + apply bool_decide_eq_false. rewrite Hdirs1. intros Hin.
      apply elem_of_union in Hin as [Hin | Hin].
      * apply elem_of_singleton in Hin. now destruct Hne.
      * apply bool_decide_eq_false in Hnd. now destruct Hnd.
    + apply bool_decide_eq_true. rewrite Hfile, Hdirs1.
      apply elem_of_union. left. now apply elem_of_singleton.
    + exists fs2. repeat split.
      * now rewrite Hfiles2, Hfiles1.
      * now rewrite Hdirs2.
      * apply (stored_writable fs2 (JSON.stringify coverage)).
        rewrite Hfiles2. apply lookup_insert_eq.
Qed.

(** [saveCoverage] into a store that cannot be written throws the failure
    of the file system, and the world is what it was. *)
Lemma saveCoverage_blocked (coverage : value) (w : World) :
  store_writable (fs w) = false ->
  exists e, saveCoverage coverage w = (Throw e, w).
Proof.
  intros Hw. destruct module_paths as (Hfile & Hfolder & Hne).
  unfold store_writable in Hw.
  unfold saveCoverage. run.
  destruct (existsSync coverageFolder (fs w)) eqn:Hex; cbn [negb].
  - unfold writeFileSync. rewrite Hfile.
    destruct (isDirectory nycFilename (fs w)); [eauto |].
    destruct (isDirectory coverageFolder (fs w)); [discriminate | eauto].
  - unfold mkdirSync. rewrite Hex, Hfolder.
    destruct (isDirectory processWorkingDirectory (fs w)); [| eauto].
    destruct (isDirectory nycFilename (fs w)) eqn:Hdir.
    + apply coverage_file_directory, isDirectory_existsSync in Hdir. congruence.
    + cbn in Hw. now rewrite orb_true_r in Hw.
Qed.

(** C2. With a truthy interactive flag [resetCoverage] overwrites the
    coverage file with the serialized empty map, whatever the file held
    before, and that text parses back to the empty map; this is so in
    every store that can be written, and in a store that cannot (the
    coverage folder a regular file, say) the write throws and the file
    system stays as it is.  With a falsy flag [resetCoverage] leaves the
    whole world as it finds it.  It returns null in both cases. *)
Theorem resetCoverage_by_flag (flag : value) (rest : object) (w : World) :
  let arg := JObj (("isInteractive", flag) :: rest) in
  if truthy flag then
    (store_writable (fs w) = true ->
     exists w',
       resetCoverage arg w = (Normal RNull, w')
       /\ files (fs w') = <[nycFilename := JSON.stringify (JObj [])]> (files (fs w))
       /\ JSON.parse (JSON.stringify (JObj [])) = Normal (JObj []))
    /\ (store_writable (fs w) = false ->
        exists e w',
          resetCoverage arg w = (Throw e, w') /\ fs w' = fs w)
  else resetCoverage arg w = (Normal RNull, w).
Proof.
  cbn zeta. unfold resetCoverage. run.
  cbn -[saveCoverage truthy JSON.stringify JSON.parse].
  destruct (truthy flag).
  - cbn -[saveCoverage JSON.stringify JSON.parse]. split; intros Hw.
    + match goal with
      | |- context [saveCoverage ?c ?w0] =>
          destruct (saveCoverage_writable c w0 Hw) as (fs1 & -> & Hfiles & _)
      end.
      eexists. split; [reflexivity |]. split; [exact Hfiles | reflexivity].
    + match goal with
      | |- context [saveCoverage ?c ?w0] =>
          destruct (saveCoverage_blocked c w0 Hw) as (e & ->)
      end.
      eexists _, _. split; reflexivity.
  - destruct w. reflexivity.
Qed.

(** C3. A payload that is not valid JSON makes [combineCoverage] throw the
    parse failure, and the world (the persisted coverage file included) is
    exactly what it was before the call. *)
Theorem combineCoverage_malformed_payload (sentCoverage : string) (w : World) :
  JSON.parse sentCoverage = Throw SyntaxError ->
  combineCoverage sentCoverage w = (Throw SyntaxError, w).
Proof.
  intros Hparse. unfold combineCoverage. run.
  now rewrite Hparse.
Qed.

(** C4. Without a persisted coverage file [coverageReport] warns and
    returns null: the file system is untouched, the only events are the two
    warnings, so neither a subprocess nor the reporting engine is invoked. *)
Theorem coverageReport_without_coverage_file (script : option value) (w : World) :
  existsSync nycFilename (fs w) = false ->
  coverageReport script w =
    (Normal RNull,
     mkWorld (fs w)
       (events w ++ [EWarn "Cannot find coverage file %s" [str nycFilename];
                     EWarn "Skipping coverage report" []])).
Proof.
  intros Habsent. unfold coverageReport. run.
  rewrite Habsent. cbn. now rewrite <- app_assoc.
Qed.

Lemma printFinalCoverageFile_effect (finalCoverage : value) (key : string) (w : World) :
  exists c l,
    printFinalCoverageFile finalCoverage key w = (c, mkWorld (fs w) (events w ++ l))
    /\ forallb quiet l = true.
Proof.
  unfold printFinalCoverageFile. run.
  destruct (get finalCoverage key) as [fileCoverage | e].
  2:{ exists (Throw e), []. rewrite app_nil_r. destruct w; auto. }
  destruct (get_opt fileCoverage "s") as [s0 | e].
  2:{ exists (Throw e), []. rewrite app_nil_r. destruct w; auto. }
  destruct (Object_keys (js_or s0 (JObj []))) as [statements | e].
  2:{ exists (Throw e), []. rewrite app_nil_r. destruct w; auto. }
  eexists (Normal tt), [_]. split; [reflexivity |]. reflexivity.
Qed.

Lemma forEach_print_effect (finalCoverage : value) (keys : list string) (w : World) :
  exists c l,
    forEach (printFinalCoverageFile finalCoverage) keys w = (c, mkWorld (fs w) (events w ++ l))
    /\ forallb quiet l = true.
Proof.
  revert w. induction keys as [| key keys IH]; intros w.
  - exists (Normal tt), []. rewrite app_nil_r. destruct w; auto.
  - cbn [forEach]. unfold bind.
    destruct (printFinalCoverageFile_effect finalCoverage key w) as (c & l & -> & Hl).
    destruct c as [[] | e].
    + destruct (IH (mkWorld (fs w) (events w ++ l))) as (c' & l' & -> & Hl').
      exists c', (l ++ l')%list. cbn [fs events]. rewrite app_assoc. split; [reflexivity |].
      rewrite forallb_app, Hl, Hl'. reflexivity.
    + exists (Throw e), l. auto.
Qed.

Lemma maybePrintFinalCoverageFiles_effect (folder : option value) (w : World) :
  exists c l,
    maybePrintFinalCoverageFiles folder w = (c, mkWorld (fs w) (events w ++ l))
    /\ forallb quiet l = true.
Proof.
  unfold maybePrintFinalCoverageFiles. run.
  destruct (join_checked folder "coverage-final.json") as [f | e].
  2:{ exists (Throw e), []. rewrite app_nil_r. destruct w; auto. }
  cbn [function_truthy negb].
  destruct (readFileSync f (fs w)) as [text | e].
  2:{ eexists (Throw e), [_]. split; reflexivity. }
  destruct (JSON.parse text) as [finalCoverage | e].
  2:{ eexists (Throw e), [_]. split; reflexivity. }
  destruct (Object_keys finalCoverage) as [keys | e].
  2:{ eexists (Throw e), [_]. split; reflexivity. }
  match goal with
  | |- context [forEach _ keys ?w0] =>
      destruct (forEach_print_effect finalCoverage keys w0) as (c & l & -> & Hl)
  end.
  cbn [fs events]. eexists c, (_ :: l). rewrite <- app_assoc. split; [reflexivity |].
  cbn [forallb]. rewrite Hl. reflexivity.
Qed.

(** C10. In [maybePrintFinalCoverageFiles] the guard [!existsSync] is
    false whatever the folder holds, so the early return with its "Did not
    find" line is never taken, for any argument.  Given a folder name, the
    function always announces the final coverage file and reads it, and it
    throws when the file does not exist. *)
Theorem maybePrintFinalCoverageFiles_always_reads (folder : option value) (w : World) :
  negb (function_truthy existsSync) = false
  /\ exists c l,
       maybePrintFinalCoverageFiles folder w = (c, mkWorld (fs w) (events w ++ l))
       /\ forallb (fun e => negb (did_not_find e)) l = true
       /\ forall d, folder = Some (JStr d) ->
            let f := path.join d "coverage-final.json" in
            (exists l', l = EDebug "Final coverage in %s" [str f] :: l')
            /\ (files (fs w) !! f = None -> c = Throw (ENOENT f)).
Proof.
  split; [reflexivity |].
  destruct (maybePrintFinalCoverageFiles_effect folder w) as (c & l & Hrun & Hl).
  exists c, l. split; [exact Hrun |]. split.
  - clear -Hl. induction l as [| e l IH]; [reflexivity |].
    cbn [forallb] in *. apply andb_true_iff in Hl as [He Hl].
    unfold quiet in He. apply andb_true_iff in He as [_ He].
    rewrite He, (IH Hl). reflexivity.
  - intros d -> f. subst f. revert Hrun.
    unfold maybePrintFinalCoverageFiles. run. cbn [join_checked function_truthy negb].
    unfold readFileSync.
    destruct (files (fs w) !! path.join d "coverage-final.json") as [text |] eqn:Hfile.
    + destruct (JSON.parse text) as [finalCoverage | e].
      2:{ intros [= <- Hev]. apply app_inv_head in Hev. split; [eauto | discriminate]. }
      destruct (Object_keys finalCoverage) as [keys | e].
      2:{ intros [= <- Hev]. apply app_inv_head in Hev. split; [eauto | discriminate]. }
      match goal with
      | |- context [forEach _ keys ?w0] =>
          destruct (forEach_print_effect finalCoverage keys w0) as (c' & l' & -> & _)
      end.
      cbn [fs events]. rewrite <- app_assoc. intros [= <- Hev].
      apply app_inv_head in Hev. split; [eauto | discriminate].
    + intros [= <- Hev]. apply app_inv_head in Hev. split; [eauto | reflexivity].
Qed.

Lemma checkAndNormalizePaths_effect (w : World) :
  checkAndNormalizePaths w =
    (Normal tt, mkWorld (normalized_fs (fs w)) (events w ++ path_events (fs w))).
Proof.
  unfold checkAndNormalizePaths, normalized_fs, path_events. run.
  destruct (checkAllPathsNotFound nycFilename (fs w)); cbn [fs events];
    repeat rewrite <- app_assoc; reflexivity.
Qed.

Lemma coverageReport_present (script : option value) (w : World) :
  existsSync nycFilename (fs w) = true ->
  coverageReport script w =
    (if truthy_opt script then runCustomScript script else runNyc)
      (mkWorld (normalized_fs (fs w)) (events w ++ path_events (fs w))).
Proof.
  intros Hexists. unfold coverageReport.
  unfold bind at 1. unfold get_fs at 1. rewrite Hexists. cbn [negb].
  unfold bind at 1. rewrite checkAndNormalizePaths_effect. reflexivity.
Qed.

Lemma runCustomScript_effect (script : option value) (w : World) :
  runCustomScript script w =
    (Normal (RChildProcess "npm" ["run"; DEFAULT_CUSTOM_COVERAGE_SCRIPT_NAME] "inherit"),
     mkWorld (fs w) (events w ++ script_events script)).
Proof.
  unfold runCustomScript, script_events. run. repeat rewrite <- app_assoc. reflexivity.
Qed.

Lemma returnReportFolder_effect (options : object) (w : World) :
  exists c l,
    returnReportFolder options w = (c, mkWorld (fs w) (events w ++ l))
    /\ forallb is_debug l = true
    /\ (c = Normal (obj_get "report-dir" options)
        \/ exists e,
             c = Throw e
             /\ fst (maybePrintFinalCoverageFiles (obj_get "report-dir" options)
                       (mkWorld (fs w)
                          (events w ++
                             [EDebug "after reporting, returning the report folder name %s"
                                [obj_get "report-dir" options]])))
                = Throw e).
Proof.
  unfold returnReportFolder. run.
  match goal with
  | |- context [maybePrintFinalCoverageFiles ?d ?w0] =>
      destruct (maybePrintFinalCoverageFiles_effect d w0) as (c & l & Hrun & Hl);
      rewrite Hrun
  end.
  cbn [fs events fst]. rewrite <- app_assoc.
  assert (Hd : forallb is_debug l = true).
  { clear -Hl. induction l as [| e l IH]; [reflexivity |].
    cbn [forallb] in *. apply andb_true_iff in Hl as [He Hl].
    unfold quiet in He. apply andb_true_iff in He as [He _].
    rewrite He, (IH Hl). reflexivity. }
  destruct c as [[] | e].
  - eexists _, (_ :: l). split; [reflexivity |]. cbn [forallb is_debug]. auto.
  - eexists _, (_ :: l). split; [reflexivity |]. cbn [forallb is_debug]. eauto.
Qed.

Lemma runNyc_unfold (w : World) :
  runNyc w =
    match overrideOptions (readNycOptions processWorkingDirectory (fs w)) with
    | Throw e =>
        (Throw e, mkWorld (fs w) (events w ++ [EReadNycOptions processWorkingDirectory]))
    | Normal options =>
        match nycReport options (fs w) with
        | Throw e =>
            (Normal (RPromise (Throw e)),
             mkWorld (fs w) (events w ++ engine_events options))
        | Normal fs5 =>
            let (c, w2) :=
              returnReportFolder options (mkWorld fs5 (events w ++ engine_events options)) in
            (Normal (RPromise c), w2)
        end
    end.
Proof.
  unfold runNyc, engine_events. run.
  destruct (overrideOptions (readNycOptions processWorkingDirectory (fs w))) as [options | e];
    [| reflexivity].
  cbn [fs events]. repeat rewrite <- app_assoc. cbn [app].
  destruct (nycReport options (fs w)) as [fs5 | e]; [| reflexivity].
  cbn [fs events]. reflexivity.
Qed.




(** C5, as amended. When the coverage file exists and [package.json]
    defines a non-empty script under ["coverage:report"], the module
    constant holds that script and [coverageReport] runs
    [npm run coverage:report] with inherited standard streams, returns the
    child process, and does not touch the reporting engine: after the path
    steps the only events are two debug lines and the one subprocess. *)
Theorem coverageReport_custom_script
    (fs0 : FS) (text : string) (props scr : object) (command : string) (w : World) :
  files fs0 !! pkgFilename = Some text ->
  JSON.parse text = Normal (JObj props) ->
  obj_get "scripts" props = Some (JObj scr) ->
  obj_get DEFAULT_CUSTOM_COVERAGE_SCRIPT_NAME scr = Some (JStr command) ->
  command <> EmptyString ->
  existsSync nycFilename (fs w) = true ->
  let script := Some (JStr command) in
  customNycReportScript fs0 = Normal script
  /\ coverageReport script w =
       (Normal (RChildProcess "npm" ["run"; "coverage:report"] "inherit"),
        mkWorld (normalized_fs (fs w))
          (events w ++ path_events (fs w)
             ++ [EDebug script_message [str "coverage:report"; script];
                 EDebug "current working directory is %s" [str cwd];
                 EExeca "npm" ["run"; "coverage:report"] "inherit"]))
  /\ filter (fun e => is_reporter_event e) (path_events (fs w) ++ script_events script)
     = [EExeca "npm" ["run"; "coverage:report"] "inherit"].
Proof.
  intros Hfile Hparse Hscripts Hscript Hcommand Hexists script. split; [| split].
  - unfold customNycReportScript, scripts, pkg, existsSync, readFileSync.
    rewrite Hfile. cbn [bool_decide orb cbind].
    assert (Hsome : bool_decide (is_Some (Some text)) = true)
      by (apply bool_decide_eq_true; eauto).
    rewrite Hsome. cbn [orb]. rewrite Hparse. cbn [cbind get Object_entries].
    rewrite Hscripts. cbn [js_or truthy cbind get Object_entries]. now rewrite Hscript.
  - rewrite (coverageReport_present script w Hexists).
    assert (Htruthy : truthy_opt script = true).
    { cbn. destruct command; [contradiction | reflexivity]. }
    rewrite Htruthy, runCustomScript_effect. cbn [fs events].
    rewrite <- app_assoc. reflexivity.
  - unfold path_events. destruct (checkAllPathsNotFound nycFilename (fs w)); reflexivity.
Qed.

Lemma resolve_isAbsolute (dir p : string) :
  path.isAbsolute dir = true -> path.isAbsolute (path.resolve dir p) = true.
Proof.
  intros Hdir. unfold path.resolve.
  destruct (path.isAbsolute p); [reflexivity |]. rewrite Hdir. reflexivity.
Qed.

Lemma maybePrintFinalCoverageFiles_missing (d : string) (w : World) :
  files (fs w) !! path.join d "coverage-final.json" = None ->
  maybePrintFinalCoverageFiles (Some (JStr d)) w =
    (Throw (ENOENT (path.join d "coverage-final.json")),
     mkWorld (fs w)
       (events w ++ [EDebug "Final coverage in %s" [str (path.join d "coverage-final.json")]])).
Proof.
  intros Hfile. unfold maybePrintFinalCoverageFiles. run.
  cbn [join_checked function_truthy negb]. unfold readFileSync. now rewrite Hfile.
Qed.

(** C6, as amended. When the coverage file exists and no truthy custom
    script is configured, [coverageReport] loads the reporter options and
    hands them to the reporting engine with exactly two changes: [tempDir]
    is the coverage folder, and a [report-dir] that is a non-empty string
    is replaced by its resolution, an absolute path; an absent or empty
    [report-dir] stays as loaded, and so does every other option. *)
Theorem coverageReport_engine_options (script : option value) (w : World) :
  path.isAbsolute cwd = true ->
  existsSync nycFilename (fs w) = true ->
  truthy_opt script = false ->
  let loaded := readNycOptions processWorkingDirectory (normalized_fs (fs w)) in
  match obj_get "report-dir" loaded with
  | Some (JStr _) | None => True
  | Some v => truthy v = false
  end ->
  exists options rest,
    events (snd (coverageReport script w)) =
      events w ++ path_events (fs w) ++ engine_events options ++ rest
    /\ forallb is_debug rest = true
    /\ obj_get "tempDir" options = Some (JStr coverageFolder)
    /\ obj_get "report-dir" options =
         match obj_get "report-dir" loaded with
         | Some (JStr p) =>
             if String.eqb p EmptyString then Some (JStr p)
             else Some (JStr (path.resolve cwd p))
         | other => other
         end
    /\ (forall p, obj_get "report-dir" loaded = Some (JStr p) ->
                  path.isAbsolute (path.resolve cwd p) = true)
    /\ (forall k, k <> "tempDir" -> k <> "report-dir" ->
                  obj_get k options = obj_get k loaded).
Proof.
  intros Hcwd Hexists Hscript loaded Hdir.
  rewrite (coverageReport_present script w Hexists), Hscript, runNyc_unfold.
  cbn [fs events]. fold loaded.
  assert (Hover : exists options,
    overrideOptions loaded = Normal options
    /\ obj_get "tempDir" options = Some (JStr coverageFolder)
    /\ obj_get "report-dir" options =
         match obj_get "report-dir" loaded with
         | Some (JStr p) =>
             if String.eqb p EmptyString then Some (JStr p)
             else Some (JStr (path.resolve cwd p))
         | other => other
         end
    /\ (forall k, k <> "tempDir" -> k <> "report-dir" ->
                  obj_get k options = obj_get k loaded)).
  { unfold overrideOptions.
    rewrite (obj_get_set_ne "tempDir" "report-dir") by discriminate.
    destruct (obj_get "report-dir" loaded) as [[| b | z | | p | l | o] |] eqn:Hget;
      cbn [truthy_opt] in *; try rewrite Hdir;
      try (eexists; split; [reflexivity |]; split; [apply obj_get_set_eq |];
           split; [now rewrite obj_get_set_ne by discriminate |];
           intros k Hk _; now apply obj_get_set_ne).
    cbn [truthy]. destruct (String.eqb p EmptyString) eqn:Hp; cbn [negb].
    - eexists; split; [reflexivity |]; split; [apply obj_get_set_eq |].
      split; [now rewrite obj_get_set_ne by discriminate |].
      intros k Hk _; now apply obj_get_set_ne.
    - eexists; split; [reflexivity |]. split.
      { rewrite obj_get_set_ne by discriminate. apply obj_get_set_eq. }
      split; [apply obj_get_set_eq |].
      intros k Hk Hk'. rewrite obj_get_set_ne by congruence. now apply obj_get_set_ne. }
  destruct Hover as (options & -> & Htemp & Hreport & Hframe).
  assert (Habs : forall p, obj_get "report-dir" loaded = Some (JStr p) ->
                           path.isAbsolute (path.resolve cwd p) = true)
    by (intros; now apply resolve_isAbsolute).
  destruct (nycReport options (normalized_fs (fs w))) as [fs5 | e].
  - match goal with
    | |- context [returnReportFolder options ?w0] =>
        destruct (returnReportFolder_effect options w0) as (c & l & -> & Hl & _)
    end.
    cbn [snd fs events]. exists options, l. repeat rewrite <- app_assoc. auto 10.
  - cbn [snd events]. exists options, []. rewrite app_nil_r, <- app_assoc. auto 10.
Qed.

(** C8 on the code. On the engine branch, when the report folder holds no
    [coverage-final.json] once the engine has completed, the promise that
    [coverageReport] returns is rejected with the read failure of the
    diagnostic print, and the report folder is not returned. *)
Theorem coverageReport_rejects_without_final_coverage
    (script : option value) (w : World) (options : object) (p : string) (fs5 : FS) :
  existsSync nycFilename (fs w) = true ->
  truthy_opt script = false ->
  overrideOptions (readNycOptions processWorkingDirectory (normalized_fs (fs w)))
    = Normal options ->
  obj_get "report-dir" options = Some (JStr p) ->
  nycReport options (normalized_fs (fs w)) = Normal fs5 ->
  files fs5 !! path.join p "coverage-final.json" = None ->
  fst (coverageReport script w) =
    Normal (RPromise (Throw (ENOENT (path.join p "coverage-final.json")))).
Proof.
  intros Hexists Hscript Hover Hdir Hreport Hfile.
  rewrite (coverageReport_present script w Hexists), Hscript, runNyc_unfold.
  cbn [fs events]. rewrite Hover, Hreport.
  unfold returnReportFolder. run. rewrite Hdir.
  rewrite maybePrintFinalCoverageFiles_missing by exact Hfile. reflexivity.
Qed.

(** When the diagnostic print completes, the promise is fulfilled with the
    report folder. *)
Lemma coverageReport_returns_report_folder
    (script : option value) (w : World) (options : object) (fs5 : FS) :
  existsSync nycFilename (fs w) = true ->
  truthy_opt script = false ->
  overrideOptions (readNycOptions processWorkingDirectory (normalized_fs (fs w)))
    = Normal options ->
  nycReport options (normalized_fs (fs w)) = Normal fs5 ->
  (forall w5, fs w5 = fs5 ->
     fst (maybePrintFinalCoverageFiles (obj_get "report-dir" options) w5) = Normal tt) ->
  fst (coverageReport script w) = Normal (RPromise (Normal (obj_get "report-dir" options))).
Proof.
  intros Hexists Hscript Hover Hreport Hprint.
  rewrite (coverageReport_present script w Hexists), Hscript, runNyc_unfold.
  cbn [fs events]. rewrite Hover, Hreport.
  unfold returnReportFolder. run.
  match goal with
  | |- context [maybePrintFinalCoverageFiles ?d ?w0] =>
      specialize (Hprint w0 eq_refl);
      destruct (maybePrintFinalCoverageFiles d w0) as [c w2]
  end.
  cbn [fst] in Hprint. subst c. reflexivity.
Qed.

Lemma existsSync_file (p text : string) (fs0 : FS) :
  files fs0 !! p = Some text -> existsSync p fs0 = true.
Proof.
  intros Hfile. unfold existsSync. rewrite Hfile.
  apply orb_true_iff. left. apply bool_decide_eq_true. eauto.
Qed.

(** C9. In a store that can be written, [saveCoverage] of a coverage map
    completes, and loading the coverage file the way [combineCoverage]
    does then yields the map that was saved, with [null] where a counter
    was [NaN]: a value whose JSON serialization is that of the map that
    was saved. *)
Theorem saveCoverage_then_load (coverage : value) (w : World) :
  well_formed coverage = true ->
  store_writable (fs w) = true ->
  exists w1,
    saveCoverage coverage w = (Normal tt, w1)
    /\ loadPrevious w1 = (Normal (istanbul.PlainData (strip_nan coverage)), w1)
    /\ JSON.stringify (strip_nan coverage) = JSON.stringify coverage.
Proof.
  intros Hwf Hw.
  destruct (saveCoverage_writable coverage w Hw) as (fs1 & Hsave & Hfiles & _).
  assert (Hfile : files fs1 !! nycFilename = Some (JSON.stringify coverage))
    by (rewrite Hfiles; apply lookup_insert_eq).
  eexists. split; [exact Hsave |]. split; [| apply stringify_strip_nan].
  unfold loadPrevious. run. rewrite (existsSync_file _ _ _ Hfile).
  unfold readFileSync. rewrite Hfile.
  now rewrite (parse_stringify coverage Hwf).
Qed.

Lemma loadPrevious_persisted (w : World) (acc : object) :
  persisted_map (fs w) = Some acc ->
  forallb file_entry acc = true ->
  distinct_keys acc = true ->
  exists previous,
    loadPrevious w = (Normal previous, w)
    /\ istanbul.createCoverageMap previous = Normal acc.
Proof.
  unfold persisted_map, loadPrevious, existsSync, readFileSync. run.
  intros Hmap Hok Hd.
  destruct (files (fs w) !! nycFilename) as [text |] eqn:Hfile.
  - assert (Hsome : bool_decide (is_Some (Some text)) = true)
      by (apply bool_decide_eq_true; eauto).
    rewrite Hsome. cbn [orb].
    destruct (JSON.parse text) as [[| | | | | | o] | e]; try discriminate.
    injection Hmap as ->. eexists. split; [reflexivity |].
    cbn [istanbul.createCoverageMap]. unfold istanbul.loadMap.
    cbn [truthy negb Object_entries]. now apply (loadEntries_entries acc []).
  - assert (Hnone : bool_decide (is_Some (@None string)) = false).
    { apply bool_decide_eq_false. intros [? ?]. discriminate. }
    rewrite Hnone in *. cbn [orb] in *.
    destruct (bool_decide (nycFilename ∈ dirs (fs w))); [discriminate |].
    injection Hmap as <-. eexists. split; reflexivity.
Qed.

Lemma persisted_map_saved (o : object) (fs0 : FS) :
  forallb file_entry o = true ->
  distinct_keys o = true ->
  files fs0 !! nycFilename = Some (JSON.stringify (JObj o)) ->
  persisted_map fs0 = Some o.
Proof.
  intros Hok Hd Hfile. unfold persisted_map. rewrite Hfile.
  now rewrite parse_stringify_entries.
Qed.

(** One call: the files of the payload are added to the persisted map. *)
Lemma combineCoverage_adds_files (sentCoverage : string) (w : World) (acc : object) :
  store_writable (fs w) = true ->
  persisted_map (fs w) = Some acc ->
  forallb file_entry acc = true ->
  payload_ok sentCoverage = true ->
  distinct_keys (acc ++ payload_files sentCoverage) = true ->
  exists w',
    combineCoverage sentCoverage w = (Normal RNull, w')
    /\ persisted_map (fs w') = Some (acc ++ payload_files sentCoverage)
    /\ store_writable (fs w') = true
    /\ existsSync nycFilename (fs w') = true.
Proof.
  intros Hw Hmap Hacc Hpayload Hd.
  unfold payload_ok, payload_files, fixed_payload in *.
  destruct (JSON.parse sentCoverage) as [coverage | e] eqn:Hparse; [| discriminate].
  cbn [option_map] in *.
  destruct (fixSourcePaths coverage) as [| | | | | | o] eqn:Hfixed; try discriminate.
  destruct (distinct_keys_app _ _ Hd) as (Hdacc & _ & _).
  unfold combineCoverage. rewrite Hparse.
  unfold bind at 1. unfold lift at 1. unfold bind at 1. unfold debug at 1, emit at 1.
  rewrite Hfixed. unfold bind at 1.
  match goal with
  | |- context [loadPrevious ?w0] =>
      destruct (loadPrevious_persisted w0 acc Hmap Hacc Hdacc) as (previous & -> & Hcreate)
  end.
  unfold bind at 1. unfold lift at 1. rewrite Hcreate.
  unfold bind at 1. unfold lift at 1. rewrite (merge_entries o acc Hpayload Hd).
  unfold bind at 1.
  match goal with
  | |- context [saveCoverage ?c ?w0] =>
      destruct (saveCoverage_writable c w0 Hw) as (fs1 & -> & Hfiles & _ & Hw1)
  end.
  assert (Hfile : files fs1 !! nycFilename = Some (JSON.stringify (JObj (acc ++ o))))
    by (rewrite Hfiles; apply lookup_insert_eq).
  run. eexists. split; [reflexivity |]. cbn [fs].
  split; [| split; [exact Hw1 | exact (existsSync_file _ _ _ Hfile)]].
  apply persisted_map_saved; [| exact Hd | exact Hfile].
  rewrite forallb_app, Hacc, Hpayload. reflexivity.
Qed.

Lemma combineAll_adds_files (payloads : list string) :
  forall (w : World) (acc : object),
    store_writable (fs w) = true ->
    persisted_map (fs w) = Some acc ->
    forallb file_entry acc = true ->
    forallb payload_ok payloads = true ->
    distinct_keys (acc ++ flat_map payload_files payloads) = true ->
    exists w',
      combineAll payloads w = (Normal tt, w')
      /\ persisted_map (fs w') = Some (acc ++ flat_map payload_files payloads).
Proof.
  induction payloads as [| sentCoverage payloads IH]; intros w acc Hw Hmap Hacc Hok Hd.
  - exists w. cbn [flat_map]. rewrite app_nil_r. auto.
  - cbn [forallb] in Hok. apply andb_true_iff in Hok as [Hfirst Hrest].
    cbn [flat_map] in *. rewrite app_assoc in Hd.
    destruct (distinct_keys_app _ _ Hd) as (Hd1 & _ & _).
    destruct (combineCoverage_adds_files sentCoverage w acc Hw Hmap Hacc Hfirst Hd1)
      as (w1 & Hcall & Hmap1 & Hw1 & _).
    assert (Hacc1 : forallb file_entry (acc ++ payload_files sentCoverage) = true).
    { rewrite forallb_app, Hacc. cbn [andb].
      unfold payload_ok, payload_files in *.
      destruct (fixed_payload sentCoverage) as [[| | | | | | o] |]; auto. }
    destruct (IH w1 _ Hw1 Hmap1 Hacc1 Hrest Hd) as (w' & Hall & Hmap').
    exists w'. split; [| now rewrite app_assoc].
    unfold combineAll in *. cbn [forEach]. unfold bind at 1. unfold bind at 1.
    rewrite Hcall. unfold ret at 1. exact Hall.
Qed.

(** One call that brings a file which the persisted map holds already: the
    record of the file becomes the merge of the two records. *)
Lemma combineCoverage_merges_file
    (sentCoverage : string) (w : World) (acc : object) (p : string) (mine fc merged : value) :
  persisted_map (fs w) = Some acc ->
  forallb file_entry acc = true ->
  distinct_keys acc = true ->
  obj_get p acc = Some mine ->
  fixed_payload sentCoverage = Some (JObj [(p, fc)]) ->
  file_entry (p, fc) = true ->
  istanbul.mergeFile mine fc = Normal merged ->
  exists w',
    combineCoverage sentCoverage w = (Normal RNull, w')
    /\ files (fs w') !! nycFilename
       = Some (JSON.stringify (JObj (obj_set p merged acc))).
Proof.
  intros Hmap Hacc Hd Hmine Hpayload Hfc Hmerge.
  assert (Hw : store_writable (fs w) = true).
  { unfold persisted_map in Hmap.
    destruct (files (fs w) !! nycFilename) as [text |] eqn:Hfile;
      [exact (stored_writable _ _ Hfile) |].
    destruct (existsSync nycFilename (fs w)); [discriminate |].
    injection Hmap as <-. discriminate. }
  unfold fixed_payload in Hpayload.
  destruct (JSON.parse sentCoverage) as [coverage | e] eqn:Hparse; [| discriminate].
  cbn [option_map] in Hpayload. injection Hpayload as Hfixed.
  destruct (FileCoverage_entry p fc Hfc) as [Hnew Hpath].
  unfold combineCoverage. rewrite Hparse.
  unfold bind at 1. unfold lift at 1. unfold bind at 1. unfold debug at 1, emit at 1.
  rewrite Hfixed. unfold bind at 1.
  match goal with
  | |- context [loadPrevious ?w0] =>
      destruct (loadPrevious_persisted w0 acc Hmap Hacc Hd) as (previous & -> & Hcreate)
  end.
  unfold bind at 1. unfold lift at 1. rewrite Hcreate.
  unfold bind at 1. unfold lift at 1.
  unfold istanbul.merge, istanbul.loadMap.
  cbn [truthy negb Object_entries istanbul.loadEntries]. rewrite Hnew.
  cbn [cbind obj_set map snd istanbul.addFileCoverages].
  unfold istanbul.addFileCoverage. rewrite Hpath, Hmine, Hmerge. cbn [cbind].
  unfold bind at 1.
  match goal with
  | |- context [saveCoverage ?c ?w0] =>
      destruct (saveCoverage_writable c w0 Hw) as (fs1 & -> & Hfiles & _)
  end.
  run. eexists. split; [reflexivity |]. cbn [fs]. rewrite Hfiles. apply lookup_insert_eq.
Qed.

(** The hit counts of an entry of a coverage map are safe integers, each
    table listing each key once. *)
Lemma file_entry_hits (p : string) (props : object) (h : Hits) :
  file_entry (p, with_hits props h) = true -> hits_ok h = true /\ hits_safe h = true.
Proof.
  intros Hentry. apply (well_formed_hits_ok props). unfold file_entry in Hentry.
  destruct (with_hits props h); try discriminate.
  now apply andb_true_iff in Hentry as [[_ ->]%andb_true_iff _].
Qed.



(** Registration: the three tasks are registered under ['task'], and the
    configuration comes back with [env.codeCoverageTasksRegistered] set to
    true, its other properties and the other variables of [env] being
    what they were. *)
Theorem registerCodeCoverageTasks_sets_flag (props e : object) (w : World) :
  obj_get "env" props = Some (JObj e) ->
  exists config',
    registerCodeCoverageTasks (JObj props) w =
      (Normal (JObj config'),
       mkWorld (fs w)
         (events w ++ [EOn "task" ["resetCoverage"; "combineCoverage"; "coverageReport"]]))
    /\ (exists e',
          obj_get "env" config' = Some (JObj e')
          /\ obj_get "codeCoverageTasksRegistered" e' = Some (JBool true)
          /\ forall k, k <> "codeCoverageTasksRegistered" -> obj_get k e' = obj_get k e)
    /\ forall k, k <> "env" -> obj_get k config' = obj_get k props.
Proof.
  intros Henv. unfold registerCodeCoverageTasks. run.
  cbn [get Object_entries]. rewrite Henv.
  eexists. split; [reflexivity |]. split.
  - eexists. split; [apply obj_get_set_eq |]. split; [apply obj_get_set_eq |].
    intros k Hk. apply obj_get_set_ne. congruence.
  - intros k Hk. apply obj_get_set_ne. congruence.
Qed.

(** ** The tasks: further properties *)

(** The files of the module, for a working directory that is a normalized
    absolute path, as [process.cwd()] is: the coverage folder is
    [<cwd>/.nyc_output], the coverage file [<cwd>/.nyc_output/out.json]
    and the package file [<cwd>/package.json]; the package file is neither
    the coverage file nor the coverage folder. *)
Theorem coverage_file_location (segs : list string) :
  forallb plain_segment segs = true ->
  cwd = path_of segs ->
  coverageFolder = path_of (segs ++ [".nyc_output"])
  /\ nycFilename = path_of (segs ++ [".nyc_output"; "out.json"])
  /\ pkgFilename = path_of (segs ++ ["package.json"])
  /\ nycFilename <> pkgFilename
  /\ coverageFolder <> pkgFilename
  /\ nycFilename <> coverageFolder.
Proof.
  intros Hsegs Hcwd.
  assert (Hfolder : coverageFolder = path_of (segs ++ [".nyc_output"])).
  { unfold coverageFolder, processWorkingDirectory, outputFolder.
    rewrite Hcwd. now apply join_path_of. }
  assert (Hfolder_plain : forallb plain_segment (segs ++ [".nyc_output"]) = true).
  { rewrite forallb_app, Hsegs. reflexivity. }
  assert (Hfile : nycFilename = path_of (segs ++ [".nyc_output"; "out.json"])).
  { unfold nycFilename. rewrite Hfolder, join_path_of by easy.
    now rewrite <- app_assoc. }
  assert (Hpkg : pkgFilename = path_of (segs ++ ["package.json"])).
  { unfold pkgFilename, processWorkingDirectory. rewrite Hcwd. now apply join_path_of. }
  repeat split; try assumption.
  - rewrite Hfile, Hpkg. intros E.
    apply path_of_inj in E; try (rewrite forallb_app, Hsegs; reflexivity);
      try (now destruct segs).
    apply app_inv_head in E. discriminate.
  - rewrite Hfolder, Hpkg. intros E.
    apply path_of_inj in E; try (rewrite forallb_app, Hsegs; reflexivity);
      try (now destruct segs).
    apply app_inv_head in E. discriminate.
  - rewrite Hfile, Hfolder. intros E.
    apply path_of_inj in E; try (rewrite forallb_app, Hsegs; reflexivity);
      try (now destruct segs).
    apply app_inv_head in E. discriminate.
Qed.

(** Two saves in a row.  In a store that can be written both complete:
    the first leaves the coverage folder in place, so that the second
    creates nothing and logs nothing; the file system after both is the
    one that the second save alone would have left, and the coverage file
    reads back as the text of the second map: each save rewrites the file
    in full.  In a store that cannot be written the first save throws and
    leaves the world as it was. *)
Theorem saveCoverage_overwrites (first second : value) (w : World) :
  if store_writable (fs w) then
    exists w1 w2 w2',
      saveCoverage first w = (Normal tt, w1)
      /\ saveCoverage second w1 = (Normal tt, w2)
      /\ saveCoverage second w = (Normal tt, w2')
      /\ existsSync coverageFolder (fs w1) = true
      /\ fs w2 = fs w2'
      /\ events w2 = events w1
      /\ readFileSync nycFilename (fs w2) = Normal (JSON.stringify second)
  else
    exists e, saveCoverage first w = (Throw e, w).
Proof.
  destruct (store_writable (fs w)) eqn:Hw; [| now apply saveCoverage_blocked].
  destruct (saveCoverage_writable first w Hw) as (fs1 & Hfirst & Hfiles1 & Hdirs1 & Hw1).
  destruct (saveCoverage_writable second w Hw) as (fs2' & Hsecond' & Hfiles2' & Hdirs2' & _).
  destruct (saveCoverage_writable second (mkWorld fs1 (events w ++
              (if existsSync coverageFolder (fs w) then []
               else [EDebug "created folder %s for output coverage" [str coverageFolder]])))
              Hw1) as (fs2 & Hsecond & Hfiles2 & Hdirs2 & _).
  cbn [fs events] in Hsecond, Hfiles2, Hdirs2.
  assert (Hfolder : existsSync coverageFolder fs1 = true).
  { apply isDirectory_existsSync. unfold store_writable in Hw1.
    apply andb_true_iff in Hw1 as [_ Hw1].
    destruct (isDirectory coverageFolder fs1) eqn:Hdir; [reflexivity |].
    cbn [orb] in Hw1. apply andb_true_iff in Hw1 as [Hex Hcwd].
    apply negb_true_iff in Hex. unfold existsSync in Hex.
    apply orb_false_iff in Hex as [_ Hex]. unfold isDirectory in Hdir.
    destruct (existsSync coverageFolder (fs w)) eqn:E.
    - unfold store_writable in Hw. apply andb_true_iff in Hw as [_ Hw].
      rewrite E in Hw. cbn in Hw. rewrite orb_false_r in Hw.
      unfold isDirectory in Hw. rewrite Hdirs1 in Hdir. congruence.
    - apply bool_decide_eq_false in Hdir. destruct Hdir. rewrite Hdirs1.
      apply elem_of_union. left. now apply elem_of_singleton. }
  rewrite Hfolder in Hsecond, Hdirs2. rewrite app_nil_r in Hsecond.
  eexists _, _, _. split; [exact Hfirst |]. split; [exact Hsecond |].
  split; [exact Hsecond' |]. cbn [fs events]. split; [exact Hfolder |].
  split; [| split; [reflexivity |]].
  - apply FS_eq.
    + rewrite Hfiles2, Hfiles1, Hfiles2'. apply insert_insert_eq.
    + rewrite Hdirs2, Hdirs1, Hdirs2'. reflexivity.
  - unfold readFileSync. rewrite Hfiles2, lookup_insert_eq. reflexivity.
Qed.

(** [loadPrevious] reads and changes nothing. *)
Lemma loadPrevious_effect (w : World) : exists c, loadPrevious w = (c, w).
Proof.
  unfold loadPrevious. run.
  destruct (existsSync nycFilename (fs w)); [| eauto].
  destruct (readFileSync nycFilename (fs w)); [| eauto].
  destruct (JSON.parse a); eauto.
Qed.

(** The two outcomes of [combineCoverage]. *)
Lemma combineCoverage_outcome (sentCoverage : string) (w : World) :
  exists c w',
    combineCoverage sentCoverage w = (c, w')
    /\ match c with
       | Throw _ => fs w' = fs w
       | Normal r =>
           r = RNull
           /\ (exists coverageMap,
                 files (fs w')
                 = <[nycFilename := JSON.stringify (JObj coverageMap)]> (files (fs w)))
           /\ (dirs (fs w') = dirs (fs w)
               \/ dirs (fs w') = {[coverageFolder]} ∪ dirs (fs w))
       end.
Proof.
  unfold combineCoverage.
  destruct (JSON.parse sentCoverage) as [coverage | e];
    [| eexists _, _; split; reflexivity].
  unfold bind at 1. unfold lift at 1. unfold bind at 1. unfold debug at 1, emit at 1.
  unfold bind at 1.
  match goal with
  | |- context [loadPrevious ?w0] => destruct (loadPrevious_effect w0) as (c & ->)
  end.
  destruct c as [previous | e]; [| eexists _, _; split; reflexivity].
  unfold bind at 1. unfold lift at 1.
  destruct (istanbul.createCoverageMap previous) as [coverageMap | e];
    [| eexists _, _; split; reflexivity].
  unfold bind at 1. unfold lift at 1.
  destruct (istanbul.merge coverageMap (fixSourcePaths coverage)) as [merged | e];
    [| eexists _, _; split; reflexivity].
  unfold bind at 1.
  match goal with
  | |- context [saveCoverage ?c ?w0] => destruct (store_writable (fs w0)) eqn:Hw
  end.
  - match goal with
    | |- context [saveCoverage ?c ?w0] =>
        destruct (saveCoverage_writable c w0 Hw) as (fs1 & -> & Hfiles & Hdirs & _)
    end.
    run. eexists _, _. split; [reflexivity |]. cbn [fs] in *.
    split; [reflexivity |]. split; [eexists; exact Hfiles |].
    rewrite Hdirs. destruct (existsSync coverageFolder (fs w)); auto.
  - match goal with
    | |- context [saveCoverage ?c ?w0] =>
        destruct (saveCoverage_blocked c w0 Hw) as (e & ->)
    end.
    eexists _, _. split; reflexivity.
Qed.

(** [combineCoverage] writes all or nothing.  Whatever the payload and the
    world, a call that throws leaves the file system as it found it; a call
    that completes returns null, has rewritten the coverage file with the
    serialization of a coverage map, every other file being as before, and
    has at most created the coverage folder. *)
Theorem combineCoverage_all_or_nothing (sentCoverage : string) (w : World) :
  let result := combineCoverage sentCoverage w in
  match fst result with
  | Throw _ => fs (snd result) = fs w
  | Normal r =>
      r = RNull
      /\ (exists coverageMap,
            files (fs (snd result))
            = <[nycFilename := JSON.stringify (JObj coverageMap)]> (files (fs w)))
      /\ (dirs (fs (snd result)) = dirs (fs w)
          \/ dirs (fs (snd result)) = {[coverageFolder]} ∪ dirs (fs w))
  end.
Proof.
  cbn zeta. destruct (combineCoverage_outcome sentCoverage w) as (c & w' & -> & Hc).
  exact Hc.
Qed.

(** A coverage file whose text [JSON.parse] rejects makes every
    [combineCoverage] with a payload that parses throw that SyntaxError,
    after the line about the parsed payload; the file system is untouched,
    so that the file stays as it is until a reset. *)
Theorem combineCoverage_corrupted_store
    (sentCoverage text : string) (coverage : value) (w : World) :
  JSON.parse sentCoverage = Normal coverage ->
  files (fs w) !! nycFilename = Some text ->
  JSON.parse text = Throw SyntaxError ->
  combineCoverage sentCoverage w =
    (Throw SyntaxError, mkWorld (fs w) (events w ++ [EDebug "parsed sent coverage" []])).
Proof.
  intros Hsent Hfile Htext. unfold combineCoverage, loadPrevious, existsSync, readFileSync.
  rewrite Hsent. run. rewrite Hfile.
  assert (Hsome : bool_decide (is_Some (Some text)) = true)
    by (apply bool_decide_eq_true; eauto).
  rewrite Hsome. cbn [orb]. now rewrite Htext.
Qed.

(** [resetCoverage] changes nothing unless its argument has a truthy
    [isInteractive].  For every other argument (the flag absent or falsy,
    the argument a primitive or an array) it returns null in the world as
    it was; the argument [null] makes the destructuring of the parameter
    throw a TypeError, the world being as it was. *)
Theorem resetCoverage_without_flag (arg : value) (w : World) :
  (forall flag, get arg "isInteractive" = Normal (Some flag) -> truthy flag = false) ->
  resetCoverage arg w =
    (match arg with JNull => Throw TypeError | _ => Normal RNull end, w).
Proof.
  intros Hflag. unfold resetCoverage. run.
  destruct (get arg "isInteractive") as [[flag |] |] eqn:Hget.
  - cbn [truthy_opt]. rewrite (Hflag flag eq_refl).
    destruct arg; try discriminate; now destruct w.
  - destruct arg; try discriminate; now destruct w.
  - destruct arg; cbn in Hget;
      try discriminate; try (destruct (String.eqb _ _); discriminate).
    now injection Hget as <-.
Qed.

(** Nothing keeps [combineCoverage] from counting a payload twice: sent
    twice into an empty store that can be written, a payload of one file
    leaves that file with every hit counter doubled, the doubles being
    safe integers. *)
Theorem combineCoverage_twice_doubles
    (sentCoverage p : string) (props : object) (h : Hits) (w : World) :
  store_writable (fs w) = true ->
  persisted_map (fs w) = Some [] ->
  fixed_payload sentCoverage = Some (JObj [(p, with_hits props h)]) ->
  file_entry (p, with_hits props h) = true ->
  istanbul.is_true (obj_get "all" props) = false ->
  hits_ok h = true ->
  hits_safe (double_hits h) = true ->
  exists w',
    combineAll [sentCoverage; sentCoverage] w = (Normal tt, w')
    /\ files (fs w') !! nycFilename
       = Some (JSON.stringify (JObj [(p, with_hits props (double_hits h))])).
Proof.
  intros Hw Hmap Hpayload Hentry Hall Hok Hdouble.
  destruct (file_entry_hits p props h Hentry) as [_ Hsafe].
  assert (Hfiles : payload_files sentCoverage = [(p, with_hits props h)])
    by (unfold payload_files; now rewrite Hpayload).
  assert (Hpok : payload_ok sentCoverage = true).
  { unfold payload_ok. rewrite Hpayload. cbn [forallb]. now rewrite Hentry. }
  destruct (combineCoverage_adds_files sentCoverage w [] Hw Hmap eq_refl Hpok)
    as (w1 & Hfirst & Hmap1 & _).
  { rewrite Hfiles. reflexivity. }
  rewrite Hfiles in Hmap1. cbn [app] in Hmap1.
  destruct (combineCoverage_merges_file sentCoverage w1 [(p, with_hits props h)] p
              (with_hits props h) (with_hits props h)
              (with_hits props (add_hits h h)) Hmap1)
    as (w2 & Hsecond & Hfile).
  { cbn [forallb]. now rewrite Hentry. }
  { reflexivity. }
  { cbn [obj_get]. now rewrite String.eqb_refl. }
  { exact Hpayload. }
  { exact Hentry. }
  { apply mergeFile_adds_hits; auto using same_shape_refl.
    now rewrite add_hits_self. }
  exists w2. unfold combineAll. cbn [forEach]. unfold bind at 1. unfold bind at 1.
  rewrite Hfirst. unfold ret at 1. unfold bind at 1. unfold bind at 1.
  rewrite Hsecond. unfold ret at 1. split; [reflexivity |].
  rewrite Hfile. cbn [obj_set]. rewrite String.eqb_refl. now rewrite add_hits_self.
Qed.

(** A reset in interactive mode, for any shape of the argument. *)
Lemma resetCoverage_interactive (arg flag : value) (w : World) :
  get arg "isInteractive" = Normal (Some flag) ->
  truthy flag = true ->
  store_writable (fs w) = true ->
  exists w',
    resetCoverage arg w = (Normal RNull, w')
    /\ persisted_map (fs w') = Some []
    /\ files (fs w') = <[nycFilename := JSON.stringify (JObj [])]> (files (fs w))
    /\ store_writable (fs w') = true.
Proof.
  intros Hget Hflag Hw. unfold resetCoverage. rewrite Hget. run.
  cbn [truthy_opt]. rewrite Hflag.
  cbn -[saveCoverage JSON.stringify JSON.parse].
  match goal with
  | |- context [saveCoverage ?c ?w0] =>
      destruct (saveCoverage_writable c w0 Hw) as (fs1 & -> & Hfiles & _ & Hw1)
  end.
  eexists. split; [reflexivity |]. cbn [fs]. split; [| split; [exact Hfiles | exact Hw1]].
  unfold persisted_map. rewrite Hfiles, lookup_insert_eq. reflexivity.
Qed.

(** After a reset in interactive mode of a store that can be written,
    whatever the coverage file held and whether or not there was one, one
    [combineCoverage] leaves in the store exactly the files of its
    payload. *)
Theorem resetCoverage_then_combineCoverage
    (arg flag : value) (sentCoverage : string) (w : World) :
  get arg "isInteractive" = Normal (Some flag) ->
  truthy flag = true ->
  store_writable (fs w) = true ->
  payload_ok sentCoverage = true ->
  distinct_keys (payload_files sentCoverage) = true ->
  exists w1 w2,
    resetCoverage arg w = (Normal RNull, w1)
    /\ combineCoverage sentCoverage w1 = (Normal RNull, w2)
    /\ persisted_map (fs w2) = Some (payload_files sentCoverage).
Proof.
  intros Hget Hflag Hw Hpok Hd.
  destruct (resetCoverage_interactive arg flag w Hget Hflag Hw)
    as (w1 & Hreset & Hmap & _ & Hw1).
  destruct (combineCoverage_adds_files sentCoverage w1 [] Hw1 Hmap eq_refl Hpok Hd)
    as (w2 & Hcombine & Hmap2 & _).
  exists w1, w2. auto.
Qed.

Lemma debug_is_no_warning (l : list Event) :
  forallb is_debug l = true ->
  forallb (fun e => negb (is_warn e) && negb (is_subprocess e)) l = true.
Proof.
  induction l as [| e l IH]; [reflexivity |]. cbn [forallb].
  intros [He Hl]%andb_true_iff. rewrite (IH Hl). now destruct e.
Qed.

Lemma path_events_no_warning (fs0 : FS) :
  forallb (fun e => negb (is_warn e) && negb (is_subprocess e)) (path_events fs0) = true.
Proof. unfold path_events. now destruct (checkAllPathsNotFound nycFilename fs0). Qed.

(** The branch of the reporting engine warns about nothing, starts no
    subprocess and does not return null. *)
Lemma runNyc_trace (w : World) :
  exists r fs' l,
    runNyc w = (r, mkWorld fs' (events w ++ l))
    /\ forallb (fun e => negb (is_warn e) && negb (is_subprocess e)) l = true
    /\ r <> Normal RNull.
Proof.
  rewrite runNyc_unfold.
  destruct (overrideOptions _) as [options | e].
  - destruct (nycReport options (fs w)) as [fs5 | e].
    + destruct (returnReportFolder_effect options
                  (mkWorld fs5 (events w ++ engine_events options)))
        as (c & l & -> & Hl & _).
      cbn [fs events]. eexists _, _, (engine_events options ++ l).
      rewrite <- app_assoc. split; [reflexivity |]. split; [| discriminate].
      rewrite forallb_app, (debug_is_no_warning l Hl). reflexivity.
    + eexists _, _, _. split; [reflexivity |]. split; [reflexivity | discriminate].
  - eexists _, _, _. split; [reflexivity |]. split; [reflexivity | discriminate].
Qed.

(** Whenever [combineCoverage] completes, the coverage file exists
    afterwards, and the [coverageReport] that follows passes its guard: it
    prints no warning and does not return null. *)
Theorem coverageReport_after_combineCoverage
    (sentCoverage : string) (script : option value) (w : World) (r : TaskResult) :
  fst (combineCoverage sentCoverage w) = Normal r ->
  let w1 := snd (combineCoverage sentCoverage w) in
  existsSync nycFilename (fs w1) = true
  /\ fst (coverageReport script w1) <> Normal RNull
  /\ exists l,
       events (snd (coverageReport script w1)) = events w1 ++ l
       /\ forallb (fun e => negb (is_warn e)) l = true.
Proof.
  cbn zeta. destruct (combineCoverage_outcome sentCoverage w) as (c & w1 & -> & Hc).
  cbn [fst snd]. intros ->. destruct Hc as (_ & (coverageMap & Hfiles) & _).
  assert (Hexists : existsSync nycFilename (fs w1) = true).
  { unfold existsSync. rewrite Hfiles, lookup_insert_eq.
    apply orb_true_iff. left. apply bool_decide_eq_true. eauto. }
  split; [exact Hexists |].
  rewrite (coverageReport_present script w1 Hexists).
  destruct (truthy_opt script).
  - rewrite runCustomScript_effect. cbn [fst snd events]. split; [discriminate |].
    eexists. rewrite <- app_assoc. split; [reflexivity |].
    rewrite forallb_app. unfold path_events.
    now destruct (checkAllPathsNotFound nycFilename (fs w1)).
  - match goal with
    | |- context [runNyc ?w0] =>
        destruct (runNyc_trace w0) as (r' & fs' & l & -> & Hl & Hr)
    end.
    cbn [fst snd events]. split; [exact Hr |].
    eexists. rewrite <- app_assoc. split; [reflexivity |].
    rewrite forallb_app. apply andb_true_iff. split.
    + unfold path_events. now destruct (checkAllPathsNotFound nycFilename (fs w1)).
    + clear -Hl. induction l as [| e l IH]; [reflexivity |].
      cbn [forallb] in *. apply andb_true_iff in Hl as [He Hl].
      rewrite (IH Hl). now destruct (is_warn e).
Qed.

(** When the reporting engine fails, the promise that [coverageReport]
    returns is rejected with the failure of the engine.
    [returnReportFolder] is not run: nothing is logged after the call of
    the engine, and the file system is the one that the path steps left. *)
Theorem coverageReport_engine_failure
    (script : option value) (w : World) (options : object) (e : exn) :
  existsSync nycFilename (fs w) = true ->
  truthy_opt script = false ->
  overrideOptions (readNycOptions processWorkingDirectory (normalized_fs (fs w)))
    = Normal options ->
  nycReport options (normalized_fs (fs w)) = Throw e ->
  coverageReport script w =
    (Normal (RPromise (Throw e)),
     mkWorld (normalized_fs (fs w))
       (events w ++ path_events (fs w) ++ engine_events options)).
Proof.
  intros Hexists Hscript Hoptions Hreport.
  rewrite (coverageReport_present script w Hexists), Hscript, runNyc_unfold.
  cbn [fs events]. rewrite Hoptions, Hreport. now rewrite <- app_assoc.
Qed.

(** Reporter options without [report-dir].  The engine is run; then
    [returnReportFolder] hands [undefined] to [maybePrintFinalCoverageFiles],
    whose [path.join] throws: the promise is rejected with a TypeError
    instead of being fulfilled with [undefined]. *)
Theorem coverageReport_without_report_dir
    (script : option value) (w : World) (fs5 : FS) :
  existsSync nycFilename (fs w) = true ->
  truthy_opt script = false ->
  let loaded := readNycOptions processWorkingDirectory (normalized_fs (fs w)) in
  let options := obj_set "tempDir" (JStr coverageFolder) loaded in
  obj_get "report-dir" loaded = None ->
  nycReport options (normalized_fs (fs w)) = Normal fs5 ->
  coverageReport script w =
    (Normal (RPromise (Throw TypeError)),
     mkWorld fs5
       (events w ++ path_events (fs w) ++ engine_events options
          ++ [EDebug "after reporting, returning the report folder name %s" [None]])).
Proof.
  cbn zeta. intros Hexists Hscript Hdir Hreport.
  assert (Hdir' :
    obj_get "report-dir"
      (obj_set "tempDir" (JStr coverageFolder)
         (readNycOptions processWorkingDirectory (normalized_fs (fs w)))) = None).
  { rewrite obj_get_set_ne by discriminate. exact Hdir. }
  rewrite (coverageReport_present script w Hexists), Hscript, runNyc_unfold.
  cbn [fs events]. unfold overrideOptions. rewrite Hdir'. cbn [truthy_opt].
  rewrite Hreport. unfold returnReportFolder, maybePrintFinalCoverageFiles. run.
  rewrite Hdir'. cbn [join_checked]. now rewrite <- !app_assoc.
Qed.

(** A [report-dir] that is truthy but no string makes [path.resolve]
    throw: [coverageReport] itself throws a TypeError, after the options
    were read and before the engine is built. *)
Theorem coverageReport_report_dir_not_a_string
    (script : option value) (w : World) (dir : value) :
  existsSync nycFilename (fs w) = true ->
  truthy_opt script = false ->
  obj_get "report-dir" (readNycOptions processWorkingDirectory (normalized_fs (fs w)))
    = Some dir ->
  truthy dir = true ->
  (forall p, dir <> JStr p) ->
  coverageReport script w =
    (Throw TypeError,
     mkWorld (normalized_fs (fs w))
       (events w ++ path_events (fs w) ++ [EReadNycOptions processWorkingDirectory])).
Proof.
  intros Hexists Hscript Hdir Htruthy Hshape.
  rewrite (coverageReport_present script w Hexists), Hscript, runNyc_unfold.
  cbn [fs events]. unfold overrideOptions.
  rewrite obj_get_set_ne by discriminate. rewrite Hdir. cbn [truthy_opt].
  rewrite Htruthy. rewrite <- app_assoc.
  destruct dir; try reflexivity. now destruct (Hshape s).
Qed.

(** Without a [package.json], or with one that has no truthy [scripts] or
    whose [scripts] have no [coverage:report], the module constant
    [customNycReportScript] is undefined, and [coverageReport] starts no
    subprocess, whatever the world it runs in. *)
Theorem coverageReport_without_custom_script (fs0 : FS) (w : World) :
  (existsSync pkgFilename fs0 = false
   \/ exists text props,
        files fs0 !! pkgFilename = Some text
        /\ JSON.parse text = Normal (JObj props)
        /\ (truthy_opt (obj_get "scripts" props) = false
            \/ exists scr,
                 obj_get "scripts" props = Some (JObj scr)
                 /\ obj_get DEFAULT_CUSTOM_COVERAGE_SCRIPT_NAME scr = None)) ->
  customNycReportScript fs0 = Normal None
  /\ exists l,
       events (snd (coverageReport None w)) = events w ++ l
       /\ forallb (fun e => negb (is_subprocess e)) l = true.
Proof.
  intros Hpkg. split.
  - unfold customNycReportScript, scripts, pkg.
    destruct Hpkg as [-> | (text & props & Hfile & Hparse & Hscripts)]; [reflexivity |].
    unfold existsSync, readFileSync. rewrite Hfile.
    assert (Hsome : bool_decide (is_Some (Some text)) = true)
      by (apply bool_decide_eq_true; eauto).
    rewrite Hsome. cbn [orb cbind]. rewrite Hparse. cbn [cbind get Object_entries].
    destruct Hscripts as [Hnone | (scr & -> & Hkey)].
    + unfold js_or. destruct (obj_get "scripts" props) as [v |]; [| reflexivity].
      cbn [truthy_opt] in Hnone. rewrite Hnone. reflexivity.
    + cbn [js_or truthy cbind get Object_entries]. now rewrite Hkey.
  - unfold coverageReport. run.
    destruct (existsSync nycFilename (fs w)) eqn:Hexists; cbn [negb].
    + rewrite checkAndNormalizePaths_effect. cbn [truthy_opt].
      match goal with
      | |- context [runNyc ?w0] =>
          destruct (runNyc_trace w0) as (r & fs' & l & -> & Hl & _)
      end.
      cbn [snd events]. eexists. rewrite <- app_assoc. split; [reflexivity |].
      rewrite forallb_app. apply andb_true_iff. split.
      * unfold path_events. now destruct (checkAllPathsNotFound nycFilename (fs w)).
      * clear -Hl. induction l as [| e l IH]; [reflexivity |].
        cbn [forallb] in *. apply andb_true_iff in Hl as [He Hl].
        rewrite (IH Hl). apply andb_true_iff in He as [_ ->]. reflexivity.
    + cbn [snd events]. eexists. rewrite <- app_assoc. split; reflexivity.
Qed.

(** Loading the module with a [package.json] in place.  The module
    constants throw exactly when the text of [package.json] does not parse
    (the failure of [JSON.parse]) or parses to [null] (a TypeError, on
    [pkg.scripts]); for every other content [customNycReportScript] has a
    value, which may be [undefined]. *)
Theorem customNycReportScript_of_package (fs0 : FS) (text : string) :
  files fs0 !! pkgFilename = Some text ->
  match JSON.parse text with
  | Throw e => customNycReportScript fs0 = Throw e
  | Normal JNull => customNycReportScript fs0 = Throw TypeError
  | Normal _ => exists script, customNycReportScript fs0 = Normal script
  end.
Proof.
  intros Hfile. unfold customNycReportScript, scripts, pkg, existsSync, readFileSync.
  rewrite Hfile.
  assert (Hsome : bool_decide (is_Some (Some text)) = true)
    by (apply bool_decide_eq_true; eauto).
  rewrite Hsome. cbn [orb cbind].
  destruct (JSON.parse text) as [p | e]; [| reflexivity]. cbn [cbind].
  assert (Hscript : forall s : option value,
            exists script,
              get (js_or s (JObj [])) DEFAULT_CUSTOM_COVERAGE_SCRIPT_NAME = Normal script).
  { intros [v |]; [| cbn; eauto]. unfold js_or.
    destruct (truthy v) eqn:Hv; [| cbn; eauto].
    destruct v; try discriminate; cbn [get]; eauto;
      destruct (String.eqb _ _); eauto. }
  destruct p; cbn [get cbind]; try apply Hscript. reflexivity.
Qed.

(** One round of the print: the line of one file. *)
Lemma printFinalCoverageFile_line
    (finalCoverage : object) (key : string) (fileCoverage : value) (counters : object)
    (w : World) :
  obj_get key finalCoverage = Some fileCoverage ->
  statement_counters fileCoverage = Some counters ->
  distinct_keys counters = true ->
  printFinalCoverageFile (JObj finalCoverage) key w =
    (Normal tt, mkWorld (fs w) (events w ++ [coverage_line key counters])).
Proof.
  intros Hkey Hcounters Hd. unfold printFinalCoverageFile. run.
  cbn [get Object_entries]. rewrite Hkey. cbn [get_opt].
  unfold statement_counters in Hcounters.
  destruct (get fileCoverage "s") as [s0 |]; [| discriminate].
  assert (Hs : js_or s0 (JObj []) = JObj counters).
  { destruct s0 as [s |]; [| now injection Hcounters as <-].
    destruct s; cbn [js_or truthy] in *;
      try (destruct (negb _); [discriminate | now injection Hcounters as <-]);
      try discriminate; try (now injection Hcounters as <-).
    all: destruct b; [discriminate | now injection Hcounters as <-]. }
  rewrite Hs. cbn [Object_keys Object_entries get].
  unfold coverage_line. cbn zeta.
  rewrite (filter_keys truthy_opt counters counters)
    by (intros [k v] Hin; now apply obj_get_In).
  rewrite !length_map. cbn [truthy_opt]. rewrite filter_length_forallb. reflexivity.
Qed.

(** All the rounds: the lines of the files, in order. *)
Lemma forEach_lines (finalCoverage l : object) (w : World) :
  (forall kv, In kv l ->
     obj_get (fst kv) finalCoverage = Some (snd kv)
     /\ has_counters (snd kv) = true
     /\ well_formed (snd kv) = true) ->
  forEach (printFinalCoverageFile (JObj finalCoverage)) (map fst l) w =
    (Normal tt, mkWorld (fs w) (events w ++ final_coverage_lines l)).
Proof.
  revert w. induction l as [| [k v] l IH]; intros w Hl.
  - cbn. rewrite app_nil_r. now destruct w.
  - destruct (Hl (k, v) (or_introl eq_refl)) as (Hget & Hc & Hwf). cbn [fst snd] in *.
    unfold has_counters in Hc.
    destruct (statement_counters v) as [counters |] eqn:Hcounters; [| discriminate].
    cbn [map fst forEach]. unfold bind at 1.
    rewrite (printFinalCoverageFile_line finalCoverage k v counters w Hget Hcounters)
      by now apply (statement_counters_distinct v).
    rewrite IH by (intros kv Hkv; apply Hl; now right).
    cbn [fs events final_coverage_lines map fst snd]. rewrite Hcounters.
    cbn [default]. now rewrite <- app_assoc.
Qed.

(** What the diagnostic print logs.  For a final coverage file that holds
    an object whose entries have statement counters,
    [maybePrintFinalCoverageFiles] completes, leaves the file system alone
    and logs, after the line that names the file, one line for each entry
    in the order of the file: the number of truthy statement counters out
    of the number of counters, with the check mark exactly when every
    counter is truthy. *)
Theorem maybePrintFinalCoverageFiles_counts
    (d text : string) (finalCoverage : object) (w : World) :
  files (fs w) !! path.join d "coverage-final.json" = Some text ->
  JSON.parse text = Normal (JObj finalCoverage) ->
  forallb (fun kv => has_counters (snd kv)) finalCoverage = true ->
  maybePrintFinalCoverageFiles (Some (JStr d)) w =
    (Normal tt,
     mkWorld (fs w)
       (events w
          ++ EDebug "Final coverage in %s" [str (path.join d "coverage-final.json")]
          :: final_coverage_lines finalCoverage)).
Proof.
  intros Hfile Hparse Hall.
  pose proof (parse_well_formed _ _ Hparse) as Hwf.
  unfold maybePrintFinalCoverageFiles. run.
  cbn [join_checked function_truthy negb]. unfold readFileSync. rewrite Hfile, Hparse.
  cbn [Object_keys Object_entries].
  rewrite forEach_lines.
  - cbn [fs events]. now rewrite <- app_assoc.
  - intros [k v] Hin. cbn [fst snd]. repeat split.
    + apply obj_get_In; [| exact Hin]. cbn [well_formed] in Hwf.
      now apply andb_true_iff in Hwf as [-> _].
    + rewrite forallb_forall in Hall. exact (Hall _ Hin).
    + apply (well_formed_In finalCoverage); [exact Hwf |].
      apply in_map_iff. now exists (k, v).
Qed.

(** The registration, for a configuration with an [env] object. *)
Lemma registerCodeCoverageTasks_effect (props e : object) (w : World) :
  obj_get "env" props = Some (JObj e) ->
  registerCodeCoverageTasks (JObj props) w =
    (Normal (JObj (obj_set "env"
                     (JObj (obj_set "codeCoverageTasksRegistered" (JBool true) e)) props)),
     mkWorld (fs w)
       (events w ++ [EOn "task" ["resetCoverage"; "combineCoverage"; "coverageReport"]])).
Proof.
  intros Henv. unfold registerCodeCoverageTasks. run.
  cbn [get Object_entries]. now rewrite Henv.
Qed.

(** A configuration without [env], or with a null one: the assignment of
    the flag throws a TypeError, the tasks having been registered by
    then. *)
Theorem registerCodeCoverageTasks_without_env (config : value) (w : World) :
  (forall env, get config "env" = Normal (Some env) -> env = JNull) ->
  registerCodeCoverageTasks config w =
    (Throw TypeError,
     mkWorld (fs w)
       (events w ++ [EOn "task" ["resetCoverage"; "combineCoverage"; "coverageReport"]])).
Proof.
  intros Henv. unfold registerCodeCoverageTasks. run.
  destruct (get config "env") as [[env |] |] eqn:Hget.
  - now rewrite (Henv env eq_refl).
  - reflexivity.
  - destruct config; cbn in Hget;
      try discriminate; try (destruct (String.eqb _ _); discriminate).
    now injection Hget as <-.
Qed.

(** Registering twice: the second registration returns the configuration
    that the first returned. *)
Theorem registerCodeCoverageTasks_idempotent (props e : object) (w : World) :
  obj_get "env" props = Some (JObj e) ->
  exists config' w1 w2,
    registerCodeCoverageTasks (JObj props) w = (Normal config', w1)
    /\ registerCodeCoverageTasks config' w1 = (Normal config', w2).
Proof.
  intros Henv. rewrite (registerCodeCoverageTasks_effect props e w Henv).
  eexists _, _, _. split; [reflexivity |].
  rewrite (registerCodeCoverageTasks_effect _ _ _ (obj_get_set_eq _ _ _)).
  now rewrite !obj_set_twice.
Qed.

(** The plugins file of the example project.  A configuration with an
    [env] object comes back with [env.codeCoverageTasksRegistered] set to
    true, the tasks having been registered before the preprocessor; with no
    [env], or a null one, the plugins file throws the TypeError of the
    registration and the preprocessor is never registered. *)
Theorem pluginsFile_registers (config : value) (w : World) :
  (forall props e,
     config = JObj props -> obj_get "env" props = Some (JObj e) ->
     exists config' e',
       pluginsFile config w =
         (Normal (JObj config'),
          mkWorld (fs w)
            (events w ++ [EOn "task" ["resetCoverage"; "combineCoverage"; "coverageReport"];
                          EOn "file:preprocessor" []]))
       /\ obj_get "env" config' = Some (JObj e')
       /\ obj_get "codeCoverageTasksRegistered" e' = Some (JBool true))
  /\ ((forall env, get config "env" = Normal (Some env) -> env = JNull) ->
      pluginsFile config w =
        (Throw TypeError,
         mkWorld (fs w)
           (events w ++ [EOn "task" ["resetCoverage"; "combineCoverage"; "coverageReport"]]))).
Proof.
  split.
  - intros props e -> Henv. unfold pluginsFile. unfold bind at 1.
    rewrite (registerCodeCoverageTasks_effect props e w Henv). run.
    eexists _, _. split; [now rewrite <- app_assoc |].
    split; apply obj_get_set_eq.
  - intros Henv. unfold pluginsFile. unfold bind at 1.
    unfold registerCodeCoverageTasks. run.
    destruct (get config "env") as [[env |] |] eqn:Hget.
    + now rewrite (Henv env eq_refl).
    + reflexivity.
    + destruct config; cbn in Hget;
        try discriminate; try (destruct (String.eqb _ _); discriminate).
      now injection Hget as <-.
Qed.

(** The persisted map, read from the coverage file, lists each file once. *)
Lemma persisted_map_distinct (fs0 : FS) (acc : object) :
  persisted_map fs0 = Some acc -> distinct_keys acc = true.
Proof.
  unfold persisted_map. destruct (files fs0 !! nycFilename) as [text |].
  - destruct (JSON.parse text) as [[| | | | | | o] | e] eqn:Hparse; try discriminate.
    intros [= <-]. apply parse_well_formed in Hparse. cbn [well_formed] in Hparse.
    now apply andb_true_iff in Hparse as [-> _].
  - destruct (existsSync nycFilename fs0); [discriminate | now intros [= <-]].
Qed.

(** An empty payload is neutral in a store that can be written: the call
    completes, the persisted coverage map is after the call what it was
    before, and the coverage file exists afterwards even if there was
    none. *)
Theorem combineCoverage_empty_payload (sentCoverage : string) (acc : object) (w : World) :
  store_writable (fs w) = true ->
  fixed_payload sentCoverage = Some (JObj []) ->
  persisted_map (fs w) = Some acc ->
  forallb file_entry acc = true ->
  exists w',
    combineCoverage sentCoverage w = (Normal RNull, w')
    /\ persisted_map (fs w') = Some acc
    /\ existsSync nycFilename (fs w') = true.
Proof.
  intros Hw Hpayload Hmap Hacc.
  assert (Hfiles : payload_files sentCoverage = [])
    by (unfold payload_files; now rewrite Hpayload).
  destruct (combineCoverage_adds_files sentCoverage w acc Hw Hmap Hacc)
    as (w' & Hrun & Hmap' & _ & Hexists).
  - unfold payload_ok. now rewrite Hpayload.
  - rewrite Hfiles, app_nil_r. now apply (persisted_map_distinct (fs w)).
  - rewrite Hfiles, app_nil_r in Hmap'. exists w'. auto.
Qed.

(** The order of the specs does not matter to payloads over disjoint
    files: started from an empty store that can be written, the same calls
    in another order complete as well and leave a coverage map with the
    same entries in another order, and every file has the same coverage
    in both. *)
Theorem combineAll_any_order (payloads payloads' : list string) (w : World) :
  Permutation payloads payloads' ->
  store_writable (fs w) = true ->
  persisted_map (fs w) = Some [] ->
  forallb payload_ok payloads = true ->
  distinct_keys (flat_map payload_files payloads) = true ->
  exists w1 w2 map1 map2,
    combineAll payloads w = (Normal tt, w1)
    /\ combineAll payloads' w = (Normal tt, w2)
    /\ persisted_map (fs w1) = Some map1
    /\ persisted_map (fs w2) = Some map2
    /\ Permutation map1 map2
    /\ forall file, obj_get file map1 = obj_get file map2.
Proof.
  intros Hperm Hw Hmap Hok Hd.
  pose proof (Permutation_flat_map payload_files Hperm) as Hfiles.
  assert (Hok' : forallb payload_ok payloads' = true).
  { rewrite forallb_forall in *. intros s Hs. apply Hok.
    now apply (Permutation_in _ (Permutation_sym Hperm)). }
  assert (Hd' : distinct_keys (flat_map payload_files payloads') = true)
    by now rewrite <- (distinct_keys_perm _ _ Hfiles).
  destruct (combineAll_adds_files payloads w [] Hw Hmap eq_refl Hok Hd)
    as (w1 & Hrun1 & Hmap1).
  destruct (combineAll_adds_files payloads' w [] Hw Hmap eq_refl Hok' Hd')
    as (w2 & Hrun2 & Hmap2).
  exists w1, w2, (flat_map payload_files payloads), (flat_map payload_files payloads').
  repeat split; try assumption.
  intros file. now apply obj_get_perm.
Qed.

(** The same from a store whose counts [g] have the shape of [h]. *)
Lemma combineAll_sums_from (p : string) (props : object) (h : Hits)
    (payloads : list string) (hs : list Hits) :
  Forall2 (payload_of_file p h) payloads hs ->
  forall (g : Hits) (w : World),
    same_shape g h ->
    persisted_map (fs w) = Some [(p, with_hits props g)] ->
    file_entry (p, with_hits props g) = true ->
    istanbul.is_true (obj_get "all" props) = false ->
    sums_safe g hs = true ->
    exists w',
      combineAll payloads w = (Normal tt, w')
      /\ persisted_map (fs w') = Some [(p, with_hits props (fold_left add_hits hs g))]
      /\ same_shape (fold_left add_hits hs g) h.
Proof.
  induction 1 as [| sentCoverage h1 payloads hs Hpayload _ IH];
    intros g w Hshape Hmap Hentry Hall Hsums.
  - exists w. cbn. auto.
  - destruct Hpayload as (props' & Hfixed & Hentry' & Hall' & Hshape').
    cbn [sums_safe] in Hsums.
    apply andb_true_iff in Hsums as [[Hsafe1 Hsum]%andb_true_iff Hsums].
    assert (Hg1 : same_shape g h1) by now apply (same_shape_trans g h h1).
    destruct (file_entry_hits p props g Hentry) as [Hok Hsafe].
    destruct (combineCoverage_merges_file sentCoverage w [(p, with_hits props g)] p
                (with_hits props g) (with_hits props' h1)
                (with_hits props (add_hits g h1)) Hmap)
      as (w1 & Hrun & Hfile).
    { cbn [forallb]. now rewrite Hentry. }
    { reflexivity. }
    { cbn [obj_get]. now rewrite String.eqb_refl. }
    { exact Hfixed. }
    { exact Hentry'. }
    { now apply mergeFile_adds_hits. }
    cbn [obj_set] in Hfile. rewrite String.eqb_refl in Hfile.
    assert (Hentry1 : file_entry (p, with_hits props (add_hits g h1)) = true).
    { apply (file_entry_with_hits p props g); [exact Hentry | | exact Hsum].
      now apply add_hits_ok. }
    assert (Hmap1 : persisted_map (fs w1) = Some [(p, with_hits props (add_hits g h1))]).
    { unfold persisted_map. rewrite Hfile.
      rewrite parse_stringify_entries; [reflexivity | | reflexivity].
      cbn [forallb]. now rewrite Hentry1. }
    destruct (IH (add_hits g h1) w1) as (w' & Hrest & Hmap' & Hshape1);
      [| exact Hmap1 | exact Hentry1 | exact Hall | exact Hsums |].
    { apply (same_shape_trans _ g h); [now apply add_hits_shape | exact Hshape]. }
    exists w'. unfold combineAll in *. cbn [forEach fold_left].
    unfold bind at 1. unfold bind at 1. rewrite Hrun. unfold ret at 1.
    rewrite Hrest. auto.
Qed.

(** Summation over the specs.  When the store holds the coverage of one
    file and every payload of a sequence brings coverage of that file in
    the same shape, the counts and their running sums being safe integers,
    the calls complete and leave the store with that file alone, each of
    its counters being the stored count plus the counts of all the
    payloads; the other properties of the stored coverage object are kept,
    and so is the shape of the hit tables. *)
Theorem combineAll_sums_hits (p : string) (props : object) (h : Hits)
    (payloads : list string) (hs : list Hits) (w : World) :
  persisted_map (fs w) = Some [(p, with_hits props h)] ->
  file_entry (p, with_hits props h) = true ->
  istanbul.is_true (obj_get "all" props) = false ->
  Forall2 (payload_of_file p h) payloads hs ->
  sums_safe h hs = true ->
  exists w',
    combineAll payloads w = (Normal tt, w')
    /\ persisted_map (fs w') = Some [(p, with_hits props (fold_left add_hits hs h))]
    /\ same_shape (fold_left add_hits hs h) h.
Proof.
  intros Hmap Hentry Hall Hpayloads Hsums.
  apply (combineAll_sums_from p props h payloads hs Hpayloads h w);
    [repeat split | exact Hmap | exact Hentry | exact Hall | exact Hsums].
Qed.

End TaskFacts.

Lemma combineCoverage_malformed_payload_witness :
  JSON.parse "{" = Throw SyntaxError /\
  @combineCoverage sample_host "{" reset_world = (Throw SyntaxError, reset_world).
Proof.
  split; [reflexivity |].
  apply (@combineCoverage_malformed_payload sample_host). reflexivity.
Defined.

Lemma coverageReport_without_coverage_file_witness :
  @existsSync (@nycFilename sample_host) (fs empty_world) = false /\
  fst (@coverageReport sample_host (Some (JStr "nyc report")) empty_world) = Normal RNull.
Proof.
  split; [reflexivity |].
  rewrite (@coverageReport_without_coverage_file sample_host); reflexivity.
Defined.


Lemma coverageReport_custom_script_witness :
  @customNycReportScript sample_host sample_load_fs
    = Normal (Some (JStr "nyc report --reporter=html"))
  /\ fst (@coverageReport sample_host (Some (JStr "nyc report --reporter=html")) reset_world)
     = Normal (RChildProcess "npm" ["run"; "coverage:report"] "inherit").
Proof.
  destruct (@coverageReport_custom_script sample_host sample_load_fs
              (JSON.stringify sample_package)
              [("name", JStr "project");
               ("scripts", JObj [("test", JStr "cypress run");
                                 ("coverage:report", JStr "nyc report --reporter=html")])]
              [("test", JStr "cypress run");
               ("coverage:report", JStr "nyc report --reporter=html")]
              "nyc report --reporter=html" reset_world)
    as (Hconstant & Hrun & _);
    [reflexivity | reflexivity | reflexivity | reflexivity | discriminate | reflexivity |].
  split; [exact Hconstant |]. rewrite Hrun. reflexivity.
Defined.

(** C5 as stated fails: with the script defined but no coverage file,
    [coverageReport] returns null and starts no subprocess; and a script
    defined as the empty string sends the report to the reporting engine. *)
Lemma coverageReport_custom_script_counterexample :
  (@customNycReportScript sample_host sample_load_fs
     = Normal (Some (JStr "nyc report --reporter=html"))
   /\ @coverageReport sample_host (Some (JStr "nyc report --reporter=html")) empty_world
      = (Normal RNull,
         mkWorld (fs empty_world)
           [EWarn "Cannot find coverage file %s"
              [str "/home/user/project/.nyc_output/out.json"];
            EWarn "Skipping coverage report" []]))
  /\ (@customNycReportScript sample_host blank_script_load_fs = Normal (Some (JStr EmptyString))
      /\ filter (fun e => is_reporter_event e)
           (events (snd (@coverageReport sample_host (Some (JStr EmptyString)) reset_world)))
         = [ENewNYC [("report-dir", JStr "/home/user/project/coverage");
                     ("reporter", JArr [JStr "lcov"; JStr "text"]);
                     ("tempDir", JStr "/home/user/project/.nyc_output")];
            ENycReport]).
Proof.
  repeat split; vm_compute; reflexivity.
Qed.

Lemma coverageReport_engine_options_witness :
  exists options,
    In (ENewNYC options) (events (snd (@coverageReport sample_host None reset_world)))
    /\ obj_get "tempDir" options = Some (JStr "/home/user/project/.nyc_output")
    /\ obj_get "report-dir" options = Some (JStr "/home/user/project/coverage")
    /\ obj_get "reporter" options = Some (JArr [JStr "lcov"; JStr "text"]).
Proof.
  destruct (@coverageReport_engine_options sample_host None reset_world
              eq_refl eq_refl eq_refl I)
    as (options & rest & Hevents & _ & Htemp & Hdir & _ & Hframe).
  exists options. split; [| split; [exact Htemp | split; [exact Hdir |]]].
  - rewrite Hevents. cbn. auto 10.
  - rewrite Hframe by discriminate. reflexivity.
Defined.

(** C6 as stated fails: a [report-dir] that is present but empty reaches
    the engine as it was loaded, not as its absolute resolution; and
    without a coverage file no option is loaded and no engine is invoked,
    whether or not a custom script is configured. *)
Lemma coverageReport_engine_options_counterexample :
  (obj_get "report-dir" (@readNycOptions blank_report_dir_host "/home/user/project"
                           (fs reset_world)) = Some (JStr EmptyString)
   /\ filter (fun e => is_reporter_event e)
        (events (snd (@coverageReport blank_report_dir_host None reset_world)))
      = [ENewNYC [("report-dir", JStr EmptyString);
                  ("tempDir", JStr "/home/user/project/.nyc_output")];
         ENycReport]
   /\ path.resolve "/home/user/project" EmptyString = "/home/user/project"
   /\ path.isAbsolute EmptyString = false)
  /\ @coverageReport sample_host None empty_world
     = (Normal RNull,
        mkWorld (fs empty_world)
          [EWarn "Cannot find coverage file %s"
             [str "/home/user/project/.nyc_output/out.json"];
           EWarn "Skipping coverage report" []]).
Proof.
  repeat split; vm_compute; reflexivity.
Qed.

Lemma coverageReport_rejects_without_final_coverage_witness :
  fst (@coverageReport sample_host None reset_world) =
    Normal (RPromise (Throw (ENOENT "/home/user/project/coverage/coverage-final.json"))).
Proof.
  apply (@coverageReport_rejects_without_final_coverage sample_host None reset_world
           [("report-dir", JStr "/home/user/project/coverage");
            ("reporter", JArr [JStr "lcov"; JStr "text"]);
            ("tempDir", JStr "/home/user/project/.nyc_output")]
           "/home/user/project/coverage" (fs reset_world));
    reflexivity.
Defined.

Lemma saveCoverage_then_load_witness :
  well_formed payload_a = true
  /\ @store_writable sample_host (fs project_world) = true
  /\ exists w1,
       @saveCoverage sample_host payload_a project_world = (Normal tt, w1)
       /\ @loadPrevious sample_host w1 = (Normal (istanbul.PlainData payload_a), w1).
Proof.
  split; [reflexivity |]. split; [reflexivity |].
  destruct (@saveCoverage_then_load sample_host payload_a project_world eq_refl eq_refl)
    as (w1 & Hsave & Hload & _).
  exists w1. split; [exact Hsave |]. rewrite Hload. reflexivity.
Defined.

Lemma resetCoverage_by_flag_witness :
  (@store_writable sample_host (fs world_with_a) = true
   /\ exists w',
        @resetCoverage sample_host (JObj [("isInteractive", JBool true)]) world_with_a
          = (Normal RNull, w')
        /\ files (fs w') !! "/home/user/project/.nyc_output/out.json" = Some "{}")
  /\ (@store_writable sample_host (fs blocked_world) = false
      /\ exists e w',
           @resetCoverage sample_host (JObj [("isInteractive", JBool true)]) blocked_world
             = (Throw e, w')
           /\ fs w' = fs blocked_world)
  /\ @resetCoverage sample_host (JObj [("isInteractive", JBool false)]) world_with_a
     = (Normal RNull, world_with_a).
Proof.
  split; [| split].
  - split; [reflexivity |].
    destruct (proj1 (@resetCoverage_by_flag sample_host (JBool true) [] world_with_a) eq_refl)
      as (w' & Hrun & Hfiles & _).
    exists w'. split; [exact Hrun |]. rewrite Hfiles. reflexivity.
  - split; [reflexivity |].
    exact (proj2 (@resetCoverage_by_flag sample_host (JBool true) [] blocked_world) eq_refl).
  - exact (@resetCoverage_by_flag sample_host (JBool false) [] world_with_a).
Defined.



Lemma registerCodeCoverageTasks_sets_flag_witness :
  fst (registerCodeCoverageTasks sample_config empty_world)
  = Normal (JObj [("baseUrl", JStr "http://localhost:3000");
                  ("env", JObj [("coverage", JBool true);
                                ("codeCoverageTasksRegistered", JBool true)])]).
Proof.
  destruct (registerCodeCoverageTasks_sets_flag
              [("baseUrl", JStr "http://localhost:3000");
               ("env", JObj [("coverage", JBool true)])]
              [("coverage", JBool true)] empty_world eq_refl)
    as (config' & Hrun & _).
  change sample_config with
    (JObj [("baseUrl", JStr "http://localhost:3000");
           ("env", JObj [("coverage", JBool true)])]).
  rewrite Hrun. cbn [fst]. revert Hrun. vm_compute. intros [= <-]. reflexivity.
Defined.

Lemma coverageReport_returns_report_folder_witness :
  fst (@coverageReport reporting_host None reset_world)
  = Normal (RPromise (Normal (Some (JStr "/home/user/project/coverage")))).
Proof.
  rewrite (@coverageReport_returns_report_folder reporting_host None reset_world
             [("report-dir", JStr "/home/user/project/coverage");
              ("reporter", JArr [JStr "lcov"; JStr "text"]);
              ("tempDir", JStr "/home/user/project/.nyc_output")]
             engine_fs);
    try reflexivity.
  intros [fs5 events5] Hfs. cbn [fs] in Hfs. subst fs5. vm_compute. reflexivity.
Defined.

Lemma coverage_file_location_witness :
  @cwd sample_host = path_of ["home"; "user"; "project"]
  /\ @nycFilename sample_host = "/home/user/project/.nyc_output/out.json"
  /\ @pkgFilename sample_host = "/home/user/project/package.json".
Proof.
  destruct (@coverage_file_location sample_host ["home"; "user"; "project"] eq_refl eq_refl)
    as (_ & Hfile & Hpkg & _).
  split; [reflexivity |]. split; [rewrite Hfile | rewrite Hpkg]; reflexivity.
Defined.

Lemma saveCoverage_overwrites_witness :
  (exists w1 w2,
     @saveCoverage sample_host payload_a project_world = (Normal tt, w1)
     /\ @saveCoverage sample_host payload_b w1 = (Normal tt, w2)
     /\ events w2 = events w1
     /\ readFileSync "/home/user/project/.nyc_output/out.json" (fs w2)
        = Normal (JSON.stringify payload_b))
  /\ exists e, @saveCoverage sample_host payload_a blocked_world = (Throw e, blocked_world).
Proof.
  split.
  - destruct (@saveCoverage_overwrites sample_host payload_a payload_b project_world
              : exists w1 w2 w2', _ /\ _ /\ _ /\ _ /\ _ /\ _ /\ _)
      as (w1 & w2 & w2' & Hfirst & Hsecond & _ & _ & _ & Hevents & Hread).
    exists w1, w2. auto.
  - exact (@saveCoverage_overwrites sample_host payload_a payload_b blocked_world).
Defined.

Lemma combineCoverage_corrupted_store_witness :
  JSON.parse "{" = Throw SyntaxError
  /\ fst (@combineCoverage sample_host (JSON.stringify payload_a) corrupted_world)
     = Throw SyntaxError.
Proof.
  split; [reflexivity |].
  rewrite (@combineCoverage_corrupted_store sample_host (JSON.stringify payload_a) "{"
             payload_a corrupted_world); reflexivity.
Defined.

Lemma combineCoverage_twice_doubles_witness :
  exists w',
    @combineAll sample_host [JSON.stringify payload_a; JSON.stringify payload_a]
      project_world
      = (Normal tt, w')
    /\ files (fs w') !! "/home/user/project/.nyc_output/out.json"
       = Some (JSON.stringify
                 (JObj [(file_a, with_hits (sample_props file_a) (sample_hits 2))])).
Proof.
  destruct (@combineCoverage_twice_doubles sample_host (JSON.stringify payload_a) file_a
              (sample_props file_a) (sample_hits 1) project_world)
    as (w' & Hrun & Hfile); try reflexivity.
  exists w'. split; [exact Hrun |]. exact Hfile.
Defined.

Lemma resetCoverage_then_combineCoverage_witness :
  exists w1 w2,
    @resetCoverage sample_host (JObj [("isInteractive", JBool true)]) world_with_a
      = (Normal RNull, w1)
    /\ @combineCoverage sample_host (JSON.stringify payload_b) w1 = (Normal RNull, w2)
    /\ @persisted_map sample_host (fs w2)
       = Some [(file_b, with_hits (sample_props file_b) (sample_hits 2))].
Proof.
  destruct (@resetCoverage_then_combineCoverage sample_host
              (JObj [("isInteractive", JBool true)]) (JBool true)
              (JSON.stringify payload_b) world_with_a)
    as (w1 & w2 & Hreset & Hcombine & Hmap); try reflexivity.
  exists w1, w2. split; [exact Hreset |]. split; [exact Hcombine |].
  rewrite Hmap. reflexivity.
Defined.

Lemma resetCoverage_without_flag_witness :
  @resetCoverage sample_host (JObj [("isInteractive", JBool false)]) world_with_a
    = (Normal RNull, world_with_a)
  /\ @resetCoverage sample_host (JObj []) world_with_a = (Normal RNull, world_with_a)
  /\ @resetCoverage sample_host JNull world_with_a = (Throw TypeError, world_with_a).
Proof.
  split; [| split].
  - apply (@resetCoverage_without_flag sample_host (JObj [("isInteractive", JBool false)])).
    intros flag [= <-]. reflexivity.
  - apply (@resetCoverage_without_flag sample_host (JObj [])). intros flag [=].
  - apply (@resetCoverage_without_flag sample_host JNull). intros flag [=].
Defined.

Lemma coverageReport_after_combineCoverage_witness :
  fst (@combineCoverage sample_host (JSON.stringify payload_a) project_world) = Normal RNull
  /\ fst (@coverageReport sample_host None
            (snd (@combineCoverage sample_host (JSON.stringify payload_a) project_world)))
     <> Normal RNull.
Proof.
  split; [reflexivity |].
  destruct (@coverageReport_after_combineCoverage sample_host (JSON.stringify payload_a)
              None project_world RNull eq_refl) as (_ & Hresult & _).
  exact Hresult.
Defined.

Lemma coverageReport_engine_failure_witness :
  fst (@coverageReport failing_host None reset_world)
  = Normal (RPromise (Throw (Error "Invalid reporter"))).
Proof.
  rewrite (@coverageReport_engine_failure failing_host None reset_world
             [("report-dir", JStr "/home/user/project/coverage");
              ("reporter", JArr [JStr "lcov"; JStr "text"]);
              ("tempDir", JStr "/home/user/project/.nyc_output")]
             (Error "Invalid reporter")); reflexivity.
Defined.

Lemma coverageReport_without_report_dir_witness :
  fst (@coverageReport bare_options_host None reset_world)
  = Normal (RPromise (Throw TypeError)).
Proof.
  rewrite (@coverageReport_without_report_dir bare_options_host None reset_world
             (fs reset_world)); reflexivity.
Defined.

Lemma coverageReport_report_dir_not_a_string_witness :
  fst (@coverageReport numeric_report_dir_host None reset_world) = Throw TypeError.
Proof.
  rewrite (@coverageReport_report_dir_not_a_string numeric_report_dir_host None reset_world
             (JNum 1)); try reflexivity.
  intros p. discriminate.
Defined.

Lemma maybePrintFinalCoverageFiles_counts_witness :
  events (snd (maybePrintFinalCoverageFiles
                 (Some (JStr "/home/user/project/coverage")) reported_world))
  = [EDebug "Final coverage in %s" [str "/home/user/project/coverage/coverage-final.json"];
     EDebug "%s %s statements covered %d/%d" [str "⚠️"; str file_a; num 1; num 2];
     EDebug "%s %s statements covered %d/%d" [str "✅"; str file_b; num 1; num 1]].
Proof.
  rewrite (maybePrintFinalCoverageFiles_counts "/home/user/project/coverage"
             (JSON.stringify (JObj final_coverage)) final_coverage reported_world);
    reflexivity.
Defined.

Lemma coverageReport_without_custom_script_witness :
  @customNycReportScript sample_host (fs empty_world) = Normal None
  /\ exists l,
       events (snd (@coverageReport sample_host None reset_world)) = l
       /\ forallb (fun e => negb (is_subprocess e)) l = true.
Proof.
  destruct (@coverageReport_without_custom_script sample_host (fs empty_world) reset_world)
    as (Hscript & l & Hevents & Hl); [left; reflexivity |].
  split; [exact Hscript |]. exists l. split; [exact Hevents | exact Hl].
Defined.

Lemma customNycReportScript_of_package_witness :
  exists script, @customNycReportScript sample_host sample_load_fs = Normal script.
Proof.
  pose proof (@customNycReportScript_of_package sample_host sample_load_fs
                (JSON.stringify sample_package) eq_refl) as Hscript.
  vm_compute in Hscript. vm_compute. exact Hscript.
Defined.

Lemma registerCodeCoverageTasks_without_env_witness :
  fst (registerCodeCoverageTasks (JObj [("baseUrl", JStr "http://localhost:3000")])
         empty_world)
  = Throw TypeError.
Proof.
  rewrite registerCodeCoverageTasks_without_env; [reflexivity |].
  intros env [=].
Defined.

Lemma registerCodeCoverageTasks_idempotent_witness :
  exists config' w1 w2,
    registerCodeCoverageTasks sample_config empty_world = (Normal config', w1)
    /\ registerCodeCoverageTasks config' w1 = (Normal config', w2).
Proof.
  exact (registerCodeCoverageTasks_idempotent
           [("baseUrl", JStr "http://localhost:3000");
            ("env", JObj [("coverage", JBool true)])]
           [("coverage", JBool true)] empty_world eq_refl).
Defined.

Lemma pluginsFile_registers_witness :
  exists config' e',
    pluginsFile sample_config empty_world =
      (Normal (JObj config'),
       mkWorld (fs empty_world)
         [EOn "task" ["resetCoverage"; "combineCoverage"; "coverageReport"];
          EOn "file:preprocessor" []])
    /\ obj_get "env" config' = Some (JObj e')
    /\ obj_get "codeCoverageTasksRegistered" e' = Some (JBool true).
Proof.
  exact (proj1 (pluginsFile_registers sample_config empty_world) _ _ eq_refl eq_refl).
Defined.

Lemma combineCoverage_empty_payload_witness :
  exists w',
    @combineCoverage sample_host "{}" world_with_a = (Normal RNull, w')
    /\ @persisted_map sample_host (fs w')
       = Some [(file_a, with_hits (sample_props file_a) (sample_hits 1))].
Proof.
  destruct (@combineCoverage_empty_payload sample_host "{}"
              [(file_a, with_hits (sample_props file_a) (sample_hits 1))] world_with_a)
    as (w' & Hrun & Hmap & _); try reflexivity.
  exists w'. split; [exact Hrun | exact Hmap].
Defined.

Lemma combineAll_any_order_witness :
  exists w1 w2 map1 map2,
    @combineAll sample_host [JSON.stringify payload_a; JSON.stringify payload_b]
      project_world
      = (Normal tt, w1)
    /\ @combineAll sample_host [JSON.stringify payload_b; JSON.stringify payload_a]
         project_world
       = (Normal tt, w2)
    /\ @persisted_map sample_host (fs w1) = Some map1
    /\ @persisted_map sample_host (fs w2) = Some map2
    /\ Permutation map1 map2
    /\ forall file, obj_get file map1 = obj_get file map2.
Proof.
  apply (@combineAll_any_order sample_host
           [JSON.stringify payload_a; JSON.stringify payload_b]
           [JSON.stringify payload_b; JSON.stringify payload_a] project_world);
    [apply perm_swap | reflexivity | reflexivity | reflexivity | reflexivity].
Defined.

Lemma combineAll_sums_hits_witness :
  exists w',
    @combineAll sample_host
      [JSON.stringify (JObj [(file_a, with_hits (sample_props file_a) (sample_hits 2))]);
       JSON.stringify (JObj [(file_a, with_hits (sample_props file_a) (sample_hits 4))])]
      world_with_a
      = (Normal tt, w')
    /\ @persisted_map sample_host (fs w')
       = Some [(file_a, with_hits (sample_props file_a) (sample_hits 7))].
Proof.
  destruct (@combineAll_sums_hits sample_host file_a (sample_props file_a) (sample_hits 1)
              [JSON.stringify (JObj [(file_a, with_hits (sample_props file_a) (sample_hits 2))]);
               JSON.stringify (JObj [(file_a, with_hits (sample_props file_a) (sample_hits 4))])]
              [sample_hits 2; sample_hits 4] world_with_a)
    as (w' & Hrun & Hmap & _); try reflexivity.
  - repeat constructor; exists (sample_props file_a); repeat split; reflexivity.
  - exists w'. split; [exact Hrun |]. rewrite Hmap. reflexivity.
Defined.
